(** * dispenso futures: the core state machine, the then-chain and when_all

    A shallow embedding of [dispenso/detail/future_impl.h] and
    [dispenso/detail/future_impl2.h].

    The concurrent part of the code is modelled as an interleaving of the
    atomic operations that the source performs on the shared state of one
    [FutureImplBase] (every atomic read-modify-write, load and store of the
    source is one step of one thread; the memory orders of the source are not
    represented, the interleaving is sequentially consistent).  The local
    control state of each thread is a program point named after the source
    function and line it stands at. *)

From Stdlib Require Import ZArith List Lia Bool Permutation.
From stdpp Require Import base option list gmap.

Local Open Scope Z_scope.

(** ** Data *)

(** [enum Status { kNotStarted, kRunning, kReady }] (future_impl.h:135). *)
Inductive Status := kNotStarted | kRunning | kReady.

Global Instance Status_eq_dec : EqDecision Status.
Proof. solve_decision. Defined.

(** Thread identifiers, addresses of then-chain buffers handed out by
    [SmallBufferAllocator], pointers to downstream cores and to schedulers. *)
Abbreviation tid := nat.
Abbreviation addr := nat.

(** [std::launch] is a bitmask; [launch_async] and [launch_deferred] are its
    two bits. *)
Definition launch_async : Z := 1.
Definition launch_deferred : Z := 2.

Definition has_policy (policy bit : Z) : bool := Z.land policy bit =? bit.

(** [ThenChainFunctor] (future_impl.h:226-244): the continuation closure.
    [next = None] is the null pointer. *)
Record ThenChainFunctor := mkFunctor {
  impl : nat;
  schedulable : nat;
  next : option addr;
  asyncPolicy : Z
}.

Definition with_next (fn : ThenChainFunctor) (n : option addr) : ThenChainFunctor :=
  {| impl := impl fn; schedulable := schedulable fn; next := n;
     asyncPolicy := asyncPolicy fn |}.

(** Observable actions, newest first in the trace of a core. *)
Inductive Event :=
| EvCasRunning (t : tid)
    (* future_impl.h:199, the compare-exchange kNotStarted -> kRunning won *)
| EvRunFunc (t : tid)
    (* future_impl.h:200, runFunc() *)
| EvNotify (t : tid)
    (* future_impl.h:201, status_.notify(kReady) *)
| EvTaskSetDec (t : tid)
    (* future_impl.h:205, taskSetCounter_->fetch_sub(1) *)
| EvDecRef (t : tid)
    (* future_impl.h:178, refCount_.fetch_sub(1) *)
| EvDealloc (t : tid)
    (* future_impl.h:179, dealloc() *)
| EvAlloc (t : tid) (a : addr)
    (* future_impl.h:264, SmallBufferAllocator::alloc() returned [a] *)
| EvConstruct (t : tid) (a : addr) (fn : ThenChainFunctor)
    (* future_impl.h:268, a node built in [a] whose exchange then failed *)
| EvInsert (t : tid) (a : addr) (fn : ThenChainFunctor)
    (* future_impl.h:268-269, the node built in [a] became the head of
       thenChain_ *)
| EvDrain (t : tid) (a : addr)
    (* future_impl.h:218, thenChain_ exchanged from [a] to null *)
| EvFunctor (t : tid) (node : option addr) (fn : ThenChainFunctor) (force : bool)
    (* future_impl.h:233-238, ThenChainFunctor::operator() schedules [impl fn];
       [node] is the chain node it runs from, None for the installer's local *)
| EvFree (t : tid) (a : addr)
    (* the buffer of a node that has run goes back to the allocator *).

(** wrap-around of [std::atomic<uint32_t>] and [std::atomic<int32_t>]. *)
Definition wrap_u32 (z : Z) : Z := z mod 2 ^ 32.
Definition wrap_i32 (z : Z) : Z := (z + 2 ^ 31) mod 2 ^ 32 - 2 ^ 31.

(** ** FutureImplResultMember (future_impl.h:15-127), with exceptions enabled *)

Section ResultMember.
Context {Result Exn : Type}.

(** What a call hands back: a value, a rethrown exception, or a read of
    storage that was never constructed. *)
Inductive Outcome (A : Type) :=
| Returns (a : A)
| Throws (e : Exn)
| Uninitialised.

(** The primary template: [resultBuf_] holds a constructed [Result] or
    nothing yet, [exception_] is null ([None]) or the captured exception. *)
Record FutureImplResultMember := mkMember {
  resultBuf_ : option Result;
  exception_ : option Exn
}.

(** A producer either returns or throws. *)
Definition Producer := unit -> Result + Exn.

(** future_impl.h:40-50 *)
Definition runToResult (f : Producer) (m : FutureImplResultMember)
  : FutureImplResultMember :=
  match f tt with
  | inl v => {| resultBuf_ := Some v; exception_ := exception_ m |}
  | inr e => {| resultBuf_ := resultBuf_ m; exception_ := Some e |}
  end.

(** future_impl.h:18-25 *)
Definition result (m : FutureImplResultMember) : Outcome Result :=
  match exception_ m with
  | Some e => Throws Result e
  | None =>
      match resultBuf_ m with
      | Some v => Returns Result v
      | None => Uninitialised Result
      end
  end.

(** future_impl.h:52-55 *)
Definition setAsResult (t : Result) (m : FutureImplResultMember)
  : FutureImplResultMember :=
  {| resultBuf_ := Some t; exception_ := exception_ m |}.

(** future_impl.h:27-36: the destructor destroys the stored [Result] unless
    an exception was captured. *)
Definition destroys_result (m : FutureImplResultMember) : bool :=
  match exception_ m with
  | Some _ => false
  | None => true
  end.

(** The [Result&] specialisation (future_impl.h:64-98): the slot is a
    pointer. *)
Record FutureImplResultMemberRef := mkMemberRef {
  result_ : option addr;
  exception_ref : option Exn
}.

Definition runToResult_ref (f : unit -> addr + Exn) (m : FutureImplResultMemberRef)
  : FutureImplResultMemberRef :=
  match f tt with
  | inl p => {| result_ := Some p; exception_ref := exception_ref m |}
  | inr e => {| result_ := result_ m; exception_ref := Some e |}
  end.

Definition result_ref (m : FutureImplResultMemberRef) : Outcome addr :=
  match exception_ref m with
  | Some e => Throws addr e
  | None =>
      match result_ m with
      | Some p => Returns addr p
      | None => Uninitialised addr
      end
  end.

Definition setAsResult_ref (res : addr) (m : FutureImplResultMemberRef)
  : FutureImplResultMemberRef :=
  {| result_ := Some res; exception_ref := exception_ref m |}.

(** The [void] specialisation (future_impl.h:100-127): no slot at all. *)
Record FutureImplResultMemberVoid := mkMemberVoid {
  exception_void : option Exn
}.

Definition runToResult_void (f : unit -> unit + Exn) (m : FutureImplResultMemberVoid)
  : FutureImplResultMemberVoid :=
  match f tt with
  | inl _ => m
  | inr e => {| exception_void := Some e |}
  end.

Definition result_void (m : FutureImplResultMemberVoid) : Outcome unit :=
  match exception_void m with
  | Some e => Throws unit e
  | None => Returns unit tt
  end.

End ResultMember.

Arguments FutureImplResultMember : clear implicits.
Arguments FutureImplResultMemberRef : clear implicits.
Arguments FutureImplResultMemberVoid : clear implicits.
Arguments Outcome : clear implicits.
Arguments Producer : clear implicits.
Arguments Returns {Exn A} a.
Arguments Throws {Exn A} e.
Arguments Uninitialised {Exn A}.

(** ** FutureImplBase (future_impl.h:132-309) *)

(** Where the object lives: [FutureImplSmall] in a [SmallBufferAllocator]
    buffer of its size class, [FutureImplAlloc] in [alignedMalloc] storage
    (future_impl.h:384-388, 402-406). *)
Inductive Storage :=
| SmallBuffer (kImplSize : nat)
| AlignedAlloc.

Section Core.
Context {Result Exn : Type}.

Record FutureImplBase := mkCore {
  member : FutureImplResultMember Result Exn;
  (* [func_] of FutureImplSmall / FutureImplAlloc; None for the [F = void]
     specialisations, whose runFunc() is empty *)
  func_ : option (Producer Result Exn);
  storage_ : Storage;
  allowInline_ : bool;
  status_ : Status;
  refCount_ : Z;
  (* null, or a pointer to the task set's outstandingTaskCount_ *)
  taskSetCounter_ : option nat;
  thenChain_ : option addr
}.

Definition set_member m (c : FutureImplBase) : FutureImplBase :=
  mkCore m (func_ c) (storage_ c) (allowInline_ c) (status_ c) (refCount_ c)
    (taskSetCounter_ c) (thenChain_ c).
Definition set_status s (c : FutureImplBase) : FutureImplBase :=
  mkCore (member c) (func_ c) (storage_ c) (allowInline_ c) s (refCount_ c)
    (taskSetCounter_ c) (thenChain_ c).
Definition set_refCount r (c : FutureImplBase) : FutureImplBase :=
  mkCore (member c) (func_ c) (storage_ c) (allowInline_ c) (status_ c) r
    (taskSetCounter_ c) (thenChain_ c).
Definition set_thenChain h (c : FutureImplBase) : FutureImplBase :=
  mkCore (member c) (func_ c) (storage_ c) (allowInline_ c) (status_ c) (refCount_ c)
    (taskSetCounter_ c) h.

(** future_impl.h:141-143 *)
Definition ready (c : FutureImplBase) : bool :=
  bool_decide (status_ c = kReady).

(** future_impl.h:173-175 *)
Definition incRefCount (c : FutureImplBase) : FutureImplBase :=
  set_refCount (wrap_u32 (refCount_ c + 1)) c.

(** future_impl.h:177-181; the boolean tells whether dealloc() is called. *)
Definition decRefCountMaybeDestroy (c : FutureImplBase) : FutureImplBase * bool :=
  (set_refCount (wrap_u32 (refCount_ c - 1)) c, bool_decide (refCount_ c = 1)).

(** future_impl.h:183-186; the status is stored first, then the count. *)
Definition setReady (c : FutureImplBase) : FutureImplBase :=
  set_refCount 1 (set_status kReady c).

(** future_impl.h:188-190 *)
Definition setAllowInline (allow : bool) (c : FutureImplBase) : FutureImplBase :=
  mkCore (member c) (func_ c) (storage_ c) allow (status_ c) (refCount_ c)
    (taskSetCounter_ c) (thenChain_ c).

(** future_impl.h:192-194 *)
Definition setTaskSetCounter (tsc : option nat) (c : FutureImplBase) : FutureImplBase :=
  mkCore (member c) (func_ c) (storage_ c) (allowInline_ c) (status_ c) (refCount_ c)
    tsc (thenChain_ c).

(** future_impl.h:317-319 and 334: runFunc() of the four implementation
    classes. *)
Definition runFunc (c : FutureImplBase) : FutureImplBase :=
  match func_ c with
  | Some f => set_member (runToResult f (member c)) c
  | None => c
  end.

(** A freshly constructed object: the default member initialisers of
    future_impl.h:294-300.  [allowInline_] has none; [indeterminate] stands
    for whatever the storage held. *)
Definition construct (f : option (Producer Result Exn)) (st : Storage)
    (indeterminate : bool) : FutureImplBase :=
  {| member := {| resultBuf_ := None; exception_ := None |};
     func_ := f;
     storage_ := st;
     allowInline_ := indeterminate;
     status_ := kNotStarted;
     refCount_ := 2;
     taskSetCounter_ := None;
     thenChain_ := None |}.

(** The choice between the two allocators; [sizeofSmallT] is
    [sizeof(SmallT)] and [kImplSize] its size class, both fixed by the
    compiler for the instantiation at hand. *)
Definition choose_storage (sizeofSmallT kImplSize : nat) : Storage :=
  if (sizeofSmallT <=? 256)%nat then SmallBuffer kImplSize else AlignedAlloc.

(** future_impl.h:375-392 *)
Definition createFutureImpl (sizeofSmallT kImplSize : nat) (indeterminate : bool)
    (f : Producer Result Exn) (allowInline : bool) (taskSetCounter : option nat)
  : FutureImplBase :=
  let ret := construct (Some f) (choose_storage sizeofSmallT kImplSize) indeterminate in
  let ret := setAllowInline allowInline ret in
  setTaskSetCounter taskSetCounter ret.

(** future_impl.h:394-410, as the list of the intermediate objects: after
    construction, after setAsResult, after the status store of setReady and
    after its reference-count store. *)
Definition createValueFutureImplReady_steps (sizeofSmallT kImplSize : nat)
    (indeterminate : bool) (t : Result) : list FutureImplBase :=
  let c0 := construct None (choose_storage sizeofSmallT kImplSize) indeterminate in
  let c1 := set_member (setAsResult t (member c0)) c0 in
  let c2 := set_status kReady c1 in
  let c3 := set_refCount 1 c2 in
  [c0; c1; c2; c3].

Definition createValueFutureImplReady (sizeofSmallT kImplSize : nat)
    (indeterminate : bool) (t : Result) : FutureImplBase :=
  let retval := construct None (choose_storage sizeofSmallT kImplSize) indeterminate in
  let retval := set_member (setAsResult t (member retval)) retval in
  setReady retval.

(** *** The shared state and the threads *)

(** Everything the threads of the model share: the core, the task sets'
    outstanding counters, the buffers of the then-chain nodes ([Some None]
    is an allocated buffer in which no node has been constructed yet) and
    the trace. *)
Record Shared := mkShared {
  core : FutureImplBase;
  counters : gmap nat Z;
  heap : gmap addr (option ThenChainFunctor);
  trace : list Event
}.

Definition on_core (f : FutureImplBase -> FutureImplBase) (σ : Shared) : Shared :=
  mkShared (f (core σ)) (counters σ) (heap σ) (trace σ).
Definition set_counters cs (σ : Shared) : Shared :=
  mkShared (core σ) cs (heap σ) (trace σ).
Definition set_heap h (σ : Shared) : Shared :=
  mkShared (core σ) (counters σ) h (trace σ).
Definition log (e : Event) (σ : Shared) : Shared :=
  mkShared (core σ) (counters σ) (heap σ) (e :: trace σ).

Definition status (σ : Shared) : Status := status_ (core σ).
Definition thenChain (σ : Shared) : option addr := thenChain_ (core σ).

End Core.

Arguments FutureImplBase : clear implicits.
Arguments Shared : clear implicits.

(** Who called [run(int)], and who called [tryExecuteThenChain]. *)
Inductive RunCaller := FromRun | FromWait | FromWaitFor.
Inductive DrainCaller := DrainFromRun (c : RunCaller) | DrainFromAdd.

(** What a finished call returned ([std::future_status] for the timed
    waits). *)
Inductive RetVal := RetVoid | RetReady | RetTimeout.

(** Program points.  The number is the line of future_impl.h the thread is
    about to execute; the arguments are its live local variables. *)
Inductive Pc :=
| run_146                                   (* run(): (void)run(kNotStarted) *)
| decRef_178                                (* refCount_.fetch_sub(1) == 1 *)
| dealloc_179                               (* dealloc() *)
| run_198 (c : RunCaller) (s : Status)      (* while (s == kNotStarted) + CAS *)
| run_200 (c : RunCaller)                   (* runFunc() *)
| run_201 (c : RunCaller)                   (* status_.notify(kReady) *)
| run_202 (c : RunCaller)                   (* if (taskSetCounter_) fetch_sub *)
| drain_215 (d : DrainCaller)               (* head = thenChain_.load() *)
| drain_217 (d : DrainCaller) (head : option addr)   (* while (head) + CAS *)
| node_run (d : DrainCaller) (head : addr) (stack : list addr) (a : addr)
    (* a->run(): the functor of node [a] is about to be invoked; [stack] are
       the nodes whose run() has not returned yet *)
| node_ret (d : DrainCaller) (head : addr) (stack : list addr)
    (* the nested run() calls return, innermost first *)
| add_256 (fn : ThenChainFunctor)           (* status load of the installer *)
| add_257 (fn : ThenChainFunctor)           (* func() *)
| add_264 (fn : ThenChainFunctor)           (* buffer = alloc() *)
| add_266 (fn : ThenChainFunctor) (buffer : addr)   (* func.next = thenChain_.load() *)
| add_268 (fn : ThenChainFunctor) (buffer : addr)   (* new (buffer) SmallImpl(func) + CAS *)
| add_278                                   (* the second status load *)
| wait_151                                  (* wait(): waitCommon(true) *)
| wait_154                                  (* status_.wait(kReady) *)
| waitFor_159                               (* waitFor(): waitCommon(allowInline_) *)
| waitFor_block                             (* status_.waitFor(kReady, timeout) *)
| Done (r : RetVal).

(** The choices a step does not make itself: whether a
    [compare_exchange_weak] fails spuriously, which free buffer the allocator
    returns, whether a timed wait gives up. *)
Record Label := mkLabel {
  spurious : bool;
  fresh : addr;
  timed_out : bool
}.

(** [return] from [run(int)] with value [b], back in its caller. *)
Definition return_run (c : RunCaller) (b : bool) : Pc :=
  match c, b with
  | FromRun, _ => decRef_178
  | FromWait, true => Done RetVoid
  | FromWait, false => wait_154
  | FromWaitFor, true => Done RetReady
  | FromWaitFor, false => waitFor_block
  end.

(** [return] from [tryExecuteThenChain]. *)
Definition return_drain (d : DrainCaller) : Pc :=
  match d with
  | DrainFromRun c => return_run c true
  | DrainFromAdd => Done RetVoid
  end.

(** ** The steps of a thread *)

Section Steps.
Context {Result Exn : Type}.
Abbreviation Shared := (Shared Result Exn).

(** One atomic step of thread [t] standing at [pc].  [None]: the thread
    cannot move now (it is blocked in a wait, it has finished, the allocator
    was asked for a buffer that is in use, or it would touch a buffer that
    holds no node). *)
Definition thread_step (t : tid) (l : Label) (σ : Shared) (pc : Pc)
  : option (Shared * Pc) :=
  match pc with
  (* run(), future_impl.h:145-148 *)
  | run_146 => Some (σ, run_198 FromRun kNotStarted)
  (* decRefCountMaybeDestroy(), future_impl.h:177-181 *)
  | decRef_178 =>
      let '(c, last) := decRefCountMaybeDestroy (core σ) in
      Some (log (EvDecRef t) (on_core (fun _ => c) σ),
            if last then dealloc_179 else Done RetVoid)
  | dealloc_179 => Some (log (EvDealloc t) σ, Done RetVoid)
  (* run(int s), future_impl.h:197-212 *)
  | run_198 c s =>
      if bool_decide (s = kNotStarted) then
        if bool_decide (status σ = s) && negb (spurious l) then
          Some (log (EvCasRunning t) (on_core (set_status kRunning) σ), run_200 c)
        else
          Some (σ, run_198 c (status σ))
      else
        Some (σ, return_run c false)
  | run_200 c => Some (log (EvRunFunc t) (on_core runFunc σ), run_201 c)
  | run_201 c => Some (log (EvNotify t) (on_core (set_status kReady) σ), run_202 c)
  | run_202 c =>
      match taskSetCounter_ (core σ) with
      | Some p =>
          Some (log (EvTaskSetDec t)
                  (set_counters (alter (fun n => wrap_i32 (n - 1)) p (counters σ)) σ),
                drain_215 (DrainFromRun c))
      | None => Some (σ, drain_215 (DrainFromRun c))
      end
  (* tryExecuteThenChain(), future_impl.h:214-224 *)
  | drain_215 d => Some (σ, drain_217 d (thenChain σ))
  | drain_217 d head =>
      match head with
      | Some h =>
          if bool_decide (thenChain σ = head) && negb (spurious l) then
            Some (log (EvDrain t h) (on_core (set_thenChain None) σ),
                  node_run d h [] h)
          else
            Some (σ, drain_217 d (thenChain σ))
      | None => Some (σ, return_drain d)
      end
  (* OnceCallable::run() of a node: ThenChainFunctor::operator(),
     future_impl.h:233-243, then the buffer is released *)
  | node_run d h stack a =>
      match heap σ !! a with
      | Some (Some fn) =>
          let σ' :=
            log (EvFunctor t (Some a) fn (has_policy (asyncPolicy fn) launch_async)) σ in
          match next fn with
          | Some n => Some (σ', node_run d h (a :: stack) n)
          | None => Some (σ', node_ret d h (a :: stack))
          end
      | _ => None
      end
  | node_ret d h stack =>
      match stack with
      | a :: rest =>
          Some (log (EvFree t a) (set_heap (delete a (heap σ)) σ), node_ret d h rest)
      | [] => Some (σ, drain_217 d (Some h))
      end
  (* addToThenChainOrExecute(), future_impl.h:247-281 *)
  | add_256 fn =>
      let func := with_next fn None in
      if bool_decide (status σ = kReady) then Some (σ, add_257 func)
      else Some (σ, add_264 func)
  | add_257 func =>
      Some (log (EvFunctor t None func (has_policy (asyncPolicy func) launch_async)) σ,
            Done RetVoid)
  | add_264 func =>
      match heap σ !! fresh l with
      | None =>
          Some (log (EvAlloc t (fresh l)) (set_heap (<[fresh l := None]> (heap σ)) σ),
                add_266 func (fresh l))
      | Some _ => None
      end
  | add_266 func buffer => Some (σ, add_268 (with_next func (thenChain σ)) buffer)
  | add_268 func buffer =>
      match heap σ !! buffer with
      | Some _ =>
          let σ' := set_heap (<[buffer := Some func]> (heap σ)) σ in
          if bool_decide (thenChain σ = next func) && negb (spurious l) then
            Some (log (EvInsert t buffer func)
                    (on_core (set_thenChain (Some buffer)) σ'),
                  add_278)
          else
            Some (log (EvConstruct t buffer func) σ',
                  add_268 (with_next func (thenChain σ)) buffer)
      | None => None
      end
  | add_278 =>
      if bool_decide (status σ = kReady) then Some (σ, drain_215 DrainFromAdd)
      else Some (σ, Done RetVoid)
  (* wait(), future_impl.h:150-155, with waitCommon(true) of 283-286 inlined *)
  | wait_151 =>
      if bool_decide (status σ = kReady) then Some (σ, Done RetVoid)
      else Some (σ, run_198 FromWait (status σ))
  | wait_154 =>
      if bool_decide (status σ = kReady) then Some (σ, Done RetVoid) else None
  (* waitFor() / waitUntil(), future_impl.h:157-171, with
     waitCommon(allowInline_) inlined *)
  | waitFor_159 =>
      if bool_decide (status σ = kReady) then Some (σ, Done RetReady)
      else if allowInline_ (core σ) then Some (σ, run_198 FromWaitFor (status σ))
      else Some (σ, waitFor_block)
  | waitFor_block =>
      if bool_decide (status σ = kReady) then Some (σ, Done RetReady)
      else if timed_out l then Some (σ, Done RetTimeout)
      else None
  | Done _ => None
  end.

(** The whole system: the shared state and the program point of every
    thread. *)
Record World := mkWorld {
  shared : Shared;
  pool : list Pc
}.

(** Thread [t] takes one step. *)
Definition world_step (tl : tid * Label) (w : World) : option World :=
  match pool w !! tl.1 with
  | Some pc =>
      match thread_step tl.1 tl.2 (shared w) pc with
      | Some (σ, pc') => Some (mkWorld σ (<[tl.1 := pc']> (pool w)))
      | None => None
      end
  | None => None
  end.

(** A schedule is run from left to right. *)
Fixpoint exec (sched : list (tid * Label)) (w : World) : option World :=
  match sched with
  | [] => Some w
  | tl :: rest =>
      match world_step tl w with
      | Some w' => exec rest w'
      | None => None
      end
  end.

Definition reachable (w0 w : World) : Prop :=
  exists sched, exec sched w0 = Some w.

(** The calls a thread may be about to make on the core. *)
Definition is_entry (pc : Pc) : bool :=
  match pc with
  | run_146 | wait_151 | waitFor_159 | add_256 _ => true
  | _ => false
  end.


(** An initial world: a core on which nothing has happened yet, no
    then-chain buffer in use, and every thread about to make a call. *)
Definition initial (w : World) : Prop :=
  trace (shared w) = [] /\
  heap (shared w) = ∅ /\
  thenChain (shared w) = None /\
  status (shared w) <> kRunning /\
  Forall (fun pc => is_entry pc = true) (pool w).


End Steps.

Arguments World : clear implicits.

(** ** Reading a trace *)

(** The threads that won the kNotStarted -> kRunning exchange, that invoked
    the producer, that published kReady, that decremented the task-set
    counter; newest first. *)
Definition winners (tr : list Event) : list tid :=
  omap (fun e => match e with EvCasRunning t => Some t | _ => None end) tr.
Definition runners (tr : list Event) : list tid :=
  omap (fun e => match e with EvRunFunc t => Some t | _ => None end) tr.
Definition notifiers (tr : list Event) : list tid :=
  omap (fun e => match e with EvNotify t => Some t | _ => None end) tr.
Definition decrementers (tr : list Event) : list tid :=
  omap (fun e => match e with EvTaskSetDec t => Some t | _ => None end) tr.

(** Every occurrence of [e2] in the trace has an occurrence of [e1] before it
    (the trace is newest first). *)
Definition precedes (e1 e2 : Event) (tr : list Event) : Prop :=
  forall l1 l2, tr = l1 ++ e2 :: l2 -> e1 ∈ l2.

(** The thread that performed an action. *)
Definition actor (e : Event) : tid :=
  match e with
  | EvCasRunning t | EvRunFunc t | EvNotify t | EvTaskSetDec t
  | EvDecRef t | EvDealloc t | EvAlloc t _ | EvConstruct t _ _
  | EvInsert t _ _ | EvDrain t _
  | EvFunctor t _ _ _ | EvFree t _ => t
  end.

Definition own_events (t : tid) (tr : list Event) : list Event :=
  filter (fun e => actor e = t) tr.

(** The program points of the producer's thread between its exchange and the
    drain of the then-chain. *)
Definition in_run_section (pc : Pc) : bool :=
  match pc with
  | run_200 _ | run_201 _ | run_202 _ => true
  | _ => false
  end.

(** ** Invariants of the run protocol *)

Section RunInvariant.
Context {Result Exn : Type}.

(** What holds in every world reachable from an initial one, about the
    exchange kNotStarted -> kRunning, the producer, the publication of
    kReady and the task-set counter. *)
Record InvRun (w : World Result Exn) : Prop := {
  ir_win_le : (length (winners (trace (shared w))) <= 1)%nat;
  ir_ns : status (shared w) = kNotStarted ->
      winners (trace (shared w)) = [] /\ runners (trace (shared w)) = [] /\
      decrementers (trace (shared w)) = [];
  ir_sec : forall t pc, pool w !! t = Some pc -> in_run_section pc = true ->
      t ∈ winners (trace (shared w)) /\ decrementers (trace (shared w)) = [];
  ir_200 : forall t c, pool w !! t = Some (run_200 c) -> runners (trace (shared w)) = [];
  ir_201 : forall t c, pool w !! t = Some (run_201 c) -> t ∈ runners (trace (shared w));
  ir_202 : forall t c, pool w !! t = Some (run_202 c) ->
      t ∈ runners (trace (shared w)) /\ t ∈ notifiers (trace (shared w)) /\
      status (shared w) = kReady;
  ir_run_le : (length (runners (trace (shared w))) <= 1)%nat;
  ir_dec_le : (length (decrementers (trace (shared w))) <= 1)%nat;
  ir_dec_ready : decrementers (trace (shared w)) <> [] -> status (shared w) = kReady;
  ir_prec_run : forall t, precedes (EvCasRunning t) (EvRunFunc t) (trace (shared w));
  ir_prec_notify : forall t, precedes (EvRunFunc t) (EvNotify t) (trace (shared w));
  ir_prec_dec : forall t, precedes (EvNotify t) (EvTaskSetDec t) (trace (shared w));
  ir_tsc : taskSetCounter_ (core (shared w)) = None -> decrementers (trace (shared w)) = [];
  ir_done : forall t pc, t ∈ winners (trace (shared w)) -> pool w !! t = Some pc ->
      in_run_section pc = false ->
      t ∈ runners (trace (shared w)) /\ t ∈ notifiers (trace (shared w)) /\
      status (shared w) = kReady /\
      (is_Some (taskSetCounter_ (core (shared w))) -> t ∈ decrementers (trace (shared w)))
}.

End RunInvariant.

(** ** Specification vocabulary for single calls *)

(** What a thread that called [run()] on a core that had already been
    started has done so far, as a function of where it stands: nothing
    before its reference-count decrement, the decrement afterwards, and
    the deallocation if it held the last reference. *)
Definition noop_run_events (t : tid) (pc : Pc) (X : list Event) : Prop :=
  match pc with
  | run_146 | run_198 FromRun _ | decRef_178 => X = []
  | dealloc_179 => X = [EvDecRef t]
  | Done RetVoid => X = [EvDecRef t] \/ X = [EvDealloc t; EvDecRef t]
  | _ => False
  end.

(** What an installer that found the core ready has done so far: nothing
    before it invokes its local functor, that one invocation afterwards. *)
Definition ready_install_events (t : tid) (fn : ThenChainFunctor) (pc : Pc)
    (X : list Event) : Prop :=
  let func := with_next fn None in
  match pc with
  | add_256 fn' => fn' = fn /\ X = []
  | add_257 func' => func' = func /\ X = []
  | Done RetVoid =>
      X = [EvFunctor t None func (has_policy (asyncPolicy fn) launch_async)]
  | _ => False
  end.

Section Produce.
Context {Result Exn : Type}.

(** The body of the [if] of future_impl.h:199-206 run by thread [t] without
    interruption: the exchange, runFunc(), the notification and the
    decrement of the task-set counter when there is one. *)
Definition produce (t : tid) (σ : Shared Result Exn) : Shared Result Exn :=
  let σ1 := log (EvCasRunning t) (on_core (set_status kRunning) σ) in
  let σ2 := log (EvRunFunc t) (on_core runFunc σ1) in
  let σ3 := log (EvNotify t) (on_core (set_status kReady) σ2) in
  match taskSetCounter_ (core σ3) with
  | Some p =>
      log (EvTaskSetDec t)
        (set_counters (alter (fun n => wrap_i32 (n - 1)) p (counters σ3)) σ3)
  | None => σ3
  end.

(** The task-set counters once the core's decrement has or has not
    happened. *)
Definition counters_after (w0 w : World Result Exn) : gmap nat Z :=
  match decrementers (trace (shared w)), taskSetCounter_ (core (shared w0)) with
  | _ :: _, Some p => alter (fun n => wrap_i32 (n - 1)) p (counters (shared w0))
  | _, _ => counters (shared w0)
  end.

(** The result member once the producer has or has not run. *)
Definition member_after (w0 w : World Result Exn) : FutureImplResultMember Result Exn :=
  match runners (trace (shared w)) with
  | _ :: _ => member (runFunc (core (shared w0)))
  | [] => member (core (shared w0))
  end.

End Produce.

(** ** The then-chain as a linked list, and who ran which continuation *)

(** [chain h p l]: following [next] from pointer [p] through the buffers [h]
    visits exactly the nodes [l], in order, and ends in the null pointer. *)
Inductive chain (h : gmap addr (option ThenChainFunctor))
  : option addr -> list (addr * ThenChainFunctor) -> Prop :=
| chain_nil : chain h None []
| chain_cons a fn l :
    h !! a = Some (Some fn) -> chain h (next fn) l -> chain h (Some a) ((a, fn) :: l).




(** The downstream core of every continuation body that was executed. *)
Definition executed (tr : list Event) : list nat :=
  omap (fun e => match e with
                 | EvFunctor _ _ fn _ => Some (impl fn)
                 | _ => None
                 end) tr.


(** Program points that are only reached once kReady has been observed or
    published. *)
Definition gated (pc : Pc) : bool :=
  match pc with
  | add_257 _ | run_202 _ | drain_215 _ | drain_217 _ _
  | node_run _ _ _ _ | node_ret _ _ _ => true
  | _ => false
  end.



Section ChainInvariant.
Context {Result Exn : Type}.


End ChainInvariant.


(** ** FutureBase (future_impl.h:453-586): the handle *)

Section Handle.
Context {Result Exn : Type}.

(** [impl_]: null, or the address of a core. *)
Record FutureBase := mkHandle { impl_ : option nat }.

(** The cores that are alive, by address.  [dealloc()] takes the core out;
    dereferencing the address of a core that is not alive is undefined
    behaviour, which the operations below report as [None]. *)
Abbreviation Store := (gmap nat (FutureImplBase Result Exn)).

(** [p->incRefCount()] *)
Definition deref_incRefCount (p : nat) (st : Store) : option Store :=
  match st !! p with
  | Some c => Some (<[p := incRefCount c]> st)
  | None => None
  end.

(** [p->decRefCountMaybeDestroy()] *)
Definition deref_decRefCountMaybeDestroy (p : nat) (st : Store) : option Store :=
  match st !! p with
  | Some c =>
      let '(c', last) := decRefCountMaybeDestroy c in
      Some (if last then delete p st else <[p := c']> st)
  | None => None
  end.

(** future_impl.h:456 *)
Definition FutureBase_default : FutureBase := {| impl_ := None |}.

(** future_impl.h:457-459: the new handle and what is left of [f]. *)
Definition FutureBase_move (f : FutureBase) : FutureBase * FutureBase :=
  ({| impl_ := impl_ f |}, {| impl_ := None |}).

(** future_impl.h:460-465 *)
Definition FutureBase_copy (f : FutureBase) (st : Store) : option (FutureBase * Store) :=
  match impl_ f with
  | Some p =>
      match deref_incRefCount p st with
      | Some st' => Some ({| impl_ := Some p |}, st')
      | None => None
      end
  | None => Some ({| impl_ := None |}, st)
  end.

(** future_impl.h:525-527: [this] and [f] afterwards. *)
Definition move (this f : FutureBase) : FutureBase * FutureBase := (f, this).

(** future_impl.h:528-538 *)
Definition copy (this f : FutureBase) (st : Store) : option (FutureBase * Store) :=
  if bool_decide (impl_ this <> impl_ f) then
    match (match impl_ this with
           | Some p => deref_decRefCountMaybeDestroy p st
           | None => Some st
           end) with
    | Some st1 =>
        match impl_ f with
        | Some q =>
            match deref_incRefCount q st1 with
            | Some st2 => Some ({| impl_ := Some q |}, st2)
            | None => None
            end
        | None => Some ({| impl_ := None |}, st1)
        end
    | None => None
    end
  else Some (this, st).

(** future_impl.h:539-543 *)
Definition destroy (this : FutureBase) (st : Store) : option Store :=
  match impl_ this with
  | Some p => deref_decRefCountMaybeDestroy p st
  | None => Some st
  end.

(** future_impl.h:544-546 *)
Definition valid (this : FutureBase) : bool :=
  match impl_ this with Some _ => true | None => false end.

(** future_impl.h:547-550, in a build without DISPENSO_DEBUG (assertValid
    is empty). *)
Definition is_ready (this : FutureBase) (st : Store) : option bool :=
  match impl_ this with
  | Some p =>
      match st !! p with
      | Some c => Some (ready c)
      | None => None
      end
  | None => None
  end.

(** The reference count of the core at [p], when it is alive. *)
Definition refCount_at (p : nat) (st : Store) : option Z :=
  refCount_ <$> st !! p.

End Handle.

Arguments FutureBase : clear implicits.

(** ** when_all (future_impl2.h:84-165) *)

(** [ForEachApply<index>] (future_impl2.h:27-43): the indices on which [f] is
    called, from [index] down, stopping after the first one for which [f]
    returns false. *)
Fixpoint ForEachApply (index : nat) (f : nat -> bool) : list nat :=
  match index with
  | O => [O]
  | S k => if f (S k) then S k :: ForEachApply k f else [S k]
  end.

(** [forEach] (future_impl2.h:45-49) on a tuple of [size >= 1] elements. *)
Definition forEach (size : nat) (f : nat -> bool) : list nat :=
  ForEachApply (size - 1) f.

(** The two overloads: the iterator range and the variadic one. *)
Inductive Form := VectorForm | TupleForm.

(** The order in which the inputs are visited: the range-for of
    future_impl2.h:112 and 99, or [forEach] with a callback that keeps
    going (future_impl2.h:153-162, 139-145). *)
Definition visit_order (form : Form) (n : nat) : list nat :=
  match form with
  | VectorForm => seq 0 n
  | TupleForm => forEach n (fun _ => true)
  end.

(** [OnceFunction]: empty, or the thunk [OnceFunction(impl_, true)] that runs
    the output future's core. *)
Inductive OnceFunction := EmptyFn | RunOutput.

(** wrap-around of [std::atomic<size_t>]. *)
Definition wrap_u64 (z : Z) : Z := z mod 2 ^ 64.

(** The thread that calls when_all. *)
Inductive MainPc :=
| wa_check                      (* future_impl2.h:91, first == last *)
| wa_make_shared                (* :96 / :135, std::make_shared *)
| wa_construct_res              (* :109 / :150, ResultFuture res(..., interceptor) *)
| wa_store_f                    (* :111 / :152, shared->f = std::move(savedOffFn) *)
| wa_install (rest : list nat)  (* :112-120 / :153-162, one then() per input *)
| wa_done.                      (* :122 / :164, return res *)

(** The continuation installed on one input (future_impl2.h:114-118). *)
Inductive ContPc :=
| CNotInstalled
| CInstalled                    (* installed; runs once its input is resolved *)
| CTest (old : Z)               (* fetch_sub returned [old]; about to test == 1 *)
| CDone.

Inductive WaEvent :=
| WaMakeShared
| WaConstructRes
| WaStoreF
| WaInstall (i : nat)
| WaResolve (i : nat)
| WaDec (i : nat) (old : Z)
| WaFire (i : nat)
| WaBadFire (i : nat)           (* an empty OnceFunction was invoked *)
| WaOutStart
| WaOutReady.

(** What a step is: the main thread, the environment resolving an input,
    the two halves of a continuation, a waiter on the output future, the
    output producer. *)
Inductive WaAction (O : Type) :=
| AMain
| AResolve (i : nat) (o : O)
| ADec (i : nat)
| ATest (i : nat)
| AWaiter
| AWalk.

Arguments AMain {O}.
Arguments AResolve {O} i o.
Arguments ADec {O} i.
Arguments ATest {O} i.
Arguments AWaiter {O}.
Arguments AWalk {O}.

Section WhenAll.
Context {Result Exn : Type}.

(** How an input completed. *)
Abbreviation Completion := (Result + Exn)%type.

Record WhenAllState := mkWa {
  wa_form : Form;
  (* the inputs: unresolved, or resolved with a value or a failure *)
  wa_inputs : list (option Completion);
  wa_main : MainPc;
  (* WhenAllSharedVec / WhenAllSharedTuple, once allocated *)
  wa_allocated : bool;
  wa_count : Z;
  wa_f : OnceFunction;
  (* InterceptionInvoker::savedOffFn *)
  wa_savedOffFn : OnceFunction;
  wa_conts : list ContPc;
  (* the output future: its status, the inputs its producer still has to
     wait for while it runs, and its result member; the result is the
     container of the input handles, here their indices *)
  wa_out_status : Status;
  wa_walk : list nat;
  wa_out_member : FutureImplResultMember (list nat) Exn;
  wa_trace : list WaEvent
}.

Definition wa_log (e : WaEvent) (w : WhenAllState) : WhenAllState :=
  mkWa (wa_form w) (wa_inputs w) (wa_main w) (wa_allocated w) (wa_count w) (wa_f w)
    (wa_savedOffFn w) (wa_conts w) (wa_out_status w) (wa_walk w) (wa_out_member w)
    (e :: wa_trace w).
Definition wa_set_main (m : MainPc) (w : WhenAllState) : WhenAllState :=
  mkWa (wa_form w) (wa_inputs w) m (wa_allocated w) (wa_count w) (wa_f w)
    (wa_savedOffFn w) (wa_conts w) (wa_out_status w) (wa_walk w) (wa_out_member w)
    (wa_trace w).
Definition wa_set_shared (a : bool) (c : Z) (f : OnceFunction) (w : WhenAllState)
  : WhenAllState :=
  mkWa (wa_form w) (wa_inputs w) (wa_main w) a c f
    (wa_savedOffFn w) (wa_conts w) (wa_out_status w) (wa_walk w) (wa_out_member w)
    (wa_trace w).
Definition wa_set_saved (f : OnceFunction) (w : WhenAllState) : WhenAllState :=
  mkWa (wa_form w) (wa_inputs w) (wa_main w) (wa_allocated w) (wa_count w) (wa_f w)
    f (wa_conts w) (wa_out_status w) (wa_walk w) (wa_out_member w) (wa_trace w).
Definition wa_set_conts (cs : list ContPc) (w : WhenAllState) : WhenAllState :=
  mkWa (wa_form w) (wa_inputs w) (wa_main w) (wa_allocated w) (wa_count w) (wa_f w)
    (wa_savedOffFn w) cs (wa_out_status w) (wa_walk w) (wa_out_member w) (wa_trace w).
Definition wa_set_inputs (ins : list (option Completion)) (w : WhenAllState)
  : WhenAllState :=
  mkWa (wa_form w) ins (wa_main w) (wa_allocated w) (wa_count w) (wa_f w)
    (wa_savedOffFn w) (wa_conts w) (wa_out_status w) (wa_walk w) (wa_out_member w)
    (wa_trace w).
Definition wa_set_out (s : Status) (walk : list nat)
    (m : FutureImplResultMember (list nat) Exn) (w : WhenAllState) : WhenAllState :=
  mkWa (wa_form w) (wa_inputs w) (wa_main w) (wa_allocated w) (wa_count w) (wa_f w)
    (wa_savedOffFn w) (wa_conts w) s walk m (wa_trace w).

(** [run()] of the output core, reached through the intercepted thunk or
    through a waiter: only the caller that finds it kNotStarted starts the
    producer [whenComplete]. *)
Definition wa_run_output (w : WhenAllState) : WhenAllState :=
  if bool_decide (wa_out_status w = kNotStarted) then
    wa_log WaOutStart
      (wa_set_out kRunning (visit_order (wa_form w) (length (wa_inputs w)))
         (wa_out_member w) w)
  else w.

Definition wa_step (a : WaAction Completion) (w : WhenAllState) : option WhenAllState :=
  match a with
  | AMain =>
      match wa_main w with
      | wa_check =>
          match wa_inputs w with
          | [] =>
              (* return make_ready_future(VecType()), and for no argument
                 at all the overload of future_impl2.h:125-127 *)
              Some (wa_set_main wa_done
                      (wa_set_out kReady []
                         (setAsResult [] (wa_out_member w)) w))
          | _ :: _ => Some (wa_set_main wa_make_shared w)
          end
      | wa_make_shared =>
          Some (wa_log WaMakeShared
                  (wa_set_main wa_construct_res
                     (wa_set_shared true (wrap_u64 (Z.of_nat (length (wa_inputs w))))
                        EmptyFn w)))
      | wa_construct_res =>
          Some (wa_log WaConstructRes
                  (wa_set_main wa_store_f (wa_set_saved RunOutput w)))
      | wa_store_f =>
          Some (wa_log WaStoreF
                  (wa_set_main
                     (wa_install (visit_order (wa_form w) (length (wa_inputs w))))
                     (wa_set_saved EmptyFn
                        (wa_set_shared (wa_allocated w) (wa_count w)
                           (wa_savedOffFn w) w))))
      | wa_install (i :: rest) =>
          match wa_conts w !! i with
          | Some CNotInstalled =>
              Some (wa_log (WaInstall i)
                      (wa_set_main (wa_install rest)
                         (wa_set_conts (<[i := CInstalled]> (wa_conts w)) w)))
          | _ => None
          end
      | wa_install [] => Some (wa_set_main wa_done w)
      | wa_done => None
      end
  | AResolve i o =>
      match wa_inputs w !! i with
      | Some None =>
          Some (wa_log (WaResolve i)
                  (wa_set_inputs (<[i := Some o]> (wa_inputs w)) w))
      | _ => None
      end
  | ADec i =>
      (* the continuation starts once its input is resolved, however it
         was resolved; shared->count.fetch_sub(1) *)
      match wa_conts w !! i, wa_inputs w !! i with
      | Some CInstalled, Some (Some _) =>
          Some (wa_log (WaDec i (wa_count w))
                  (wa_set_conts (<[i := CTest (wa_count w)]> (wa_conts w))
                     (wa_set_shared (wa_allocated w) (wrap_u64 (wa_count w - 1))
                        (wa_f w) w)))
      | _, _ => None
      end
  | ATest i =>
      match wa_conts w !! i with
      | Some (CTest old) =>
          let w' := wa_set_conts (<[i := CDone]> (wa_conts w)) w in
          if bool_decide (old = 1) then
            match wa_f w with
            | RunOutput =>
                Some (wa_run_output
                        (wa_log (WaFire i)
                           (wa_set_shared (wa_allocated w) (wa_count w) EmptyFn w')))
            | EmptyFn => Some (wa_log (WaBadFire i) w')
            end
          else Some w'
      | _ => None
      end
  | AWaiter =>
      match wa_main w with
      | wa_done =>
          if bool_decide (wa_out_status w = kNotStarted) then Some (wa_run_output w)
          else None
      | _ => None
      end
  | AWalk =>
      match wa_out_status w with
      | kRunning =>
          match wa_walk w with
          | i :: rest =>
              if bool_decide (wa_count w = 0) then
                Some (wa_set_out kRunning [] (wa_out_member w) w)
              else
                match wa_inputs w !! i with
                | Some (Some _) => Some (wa_set_out kRunning rest (wa_out_member w) w)
                | _ => None
                end
          | [] =>
              Some (wa_log WaOutReady
                      (wa_set_out kReady []
                         (runToResult
                            (fun _ => inl (seq 0 (length (wa_inputs w))))
                            (wa_out_member w)) w))
          end
      | _ => None
      end
  end.

Fixpoint wa_exec (acts : list (WaAction Completion)) (w : WhenAllState)
  : option WhenAllState :=
  match acts with
  | [] => Some w
  | a :: rest =>
      match wa_step a w with
      | Some w' => wa_exec rest w'
      | None => None
      end
  end.

Definition wa_reachable (w0 w : WhenAllState) : Prop :=
  exists acts, wa_exec acts w0 = Some w.

(** when_all is called on [ins], some of which may already be resolved. *)
Definition wa_init (form : Form) (ins : list (option Completion)) : WhenAllState :=
  {| wa_form := form; wa_inputs := ins; wa_main := wa_check;
     wa_allocated := false; wa_count := 0; wa_f := EmptyFn; wa_savedOffFn := EmptyFn;
     wa_conts := replicate (length ins) CNotInstalled;
     wa_out_status := kNotStarted; wa_walk := [];
     wa_out_member := {| resultBuf_ := None; exception_ := None |};
     wa_trace := [] |}.

(** Reading the trace. *)
Definition wa_decs (tr : list WaEvent) : list (nat * Z) :=
  omap (fun e => match e with WaDec i old => Some (i, old) | _ => None end) tr.
Definition wa_fires (tr : list WaEvent) : list nat :=
  omap (fun e => match e with WaFire i => Some i | _ => None end) tr.
Definition wa_bad_fires (tr : list WaEvent) : list nat :=
  omap (fun e => match e with WaBadFire i => Some i | _ => None end) tr.
Definition wa_installs (tr : list WaEvent) : list nat :=
  omap (fun e => match e with WaInstall i => Some i | _ => None end) tr.

Definition wa_precedes (e1 e2 : WaEvent) (tr : list WaEvent) : Prop :=
  forall l1 l2, tr = l1 ++ e2 :: l2 -> e1 ∈ l2.

(** The values the successive fetch_sub calls return, newest first, after
    [d] decrements of a counter that started at [n]. *)
Fixpoint olds (n : nat) (d : nat) : list Z :=
  match d with
  | O => []
  | S k => (Z.of_nat n - Z.of_nat k) :: olds n k
  end.

(** The result member of input [i]'s core: what its producer left. *)
Definition input_member (o : Completion) : FutureImplResultMember Result Exn :=
  runToResult (fun _ => o) {| resultBuf_ := None; exception_ := None |}.

(** Replace every completion by another one. *)
Definition wa_relabel (g : Completion -> Completion) (w : WhenAllState)
  : WhenAllState :=
  wa_set_inputs (map (option_map g) (wa_inputs w)) w.

Definition act_relabel (g : Completion -> Completion) (a : WaAction Completion)
  : WaAction Completion :=
  match a with
  | AResolve i o => AResolve i (g o)
  | a => a
  end.

End WhenAll.

Arguments WhenAllState : clear implicits.

(** ** Invariants of the interleaving model *)

Section Invariants.
Context {Result Exn : Type}.
Implicit Types (w : World Result Exn) (σ : Shared Result Exn).

Inductive seen (t : nat) : Prop := seen_intro.

(** The status is kRunning while the producer's thread stands between its
    exchange and its notification. *)
Definition running_inv (w : World Result Exn) : Prop :=
  forall t pc, pool w !! t = Some pc ->
    (exists c, pc = run_200 c \/ pc = run_201 c) -> status (shared w) = kRunning.

Definition gated_inv (w : World Result Exn) : Prop :=
  forall t pc, pool w !! t = Some pc -> gated pc = true -> status (shared w) = kReady.





End Invariants.

(** ** Invariants of when_all *)

Section WhenAllInvariants.
Context {Result Exn : Type}.
Implicit Types (w : WhenAllState Result Exn).

Definition resolved (w : WhenAllState Result Exn) (i : nat) : Prop :=
  exists o, wa_inputs w !! i = Some (Some o).

(** A: the sizes and the form never change; resolved inputs stay resolved. *)
Definition wa_inv_a (w0 w : WhenAllState Result Exn) : Prop :=
  length (wa_conts w) = length (wa_conts w0) /\
  length (wa_inputs w) = length (wa_inputs w0) /\
  wa_form w = wa_form w0.

Definition pre_store (m : MainPc) : bool :=
  match m with
  | wa_check | wa_make_shared | wa_construct_res | wa_store_f => true
  | _ => false
  end.

(** B: what the main thread has done so far. *)
Record WaInvB (w : WhenAllState Result Exn) : Prop := {
  wb_pre : pre_store (wa_main w) = true ->
      Forall (fun c => c = CNotInstalled) (wa_conts w) /\
      (WaStoreF ∉ wa_trace w) /\ wa_installs (wa_trace w) = [] /\
      wa_decs (wa_trace w) = [] /\ wa_fires (wa_trace w) = [] /\
      wa_bad_fires (wa_trace w) = [] /\
      wa_out_status w = kNotStarted;
  wb_saved : wa_main w = wa_store_f -> wa_savedOffFn w = RunOutput;
  wb_post : pre_store (wa_main w) = false -> WaStoreF ∈ wa_trace w;
  wb_prec : forall i, wa_precedes WaStoreF (WaInstall i) (wa_trace w);
  wb_inst : forall i c, wa_conts w !! i = Some c -> c <> CNotInstalled ->
      i ∈ wa_installs (wa_trace w);
  wb_inst_nodup : NoDup (wa_installs (wa_trace w));
  wb_inst_not : forall i, wa_conts w !! i = Some CNotInstalled ->
      i ∉ wa_installs (wa_trace w)
}.

(** C: the counter, the decrements and the firing of [f]. *)
Record WaInvC (n : nat) (w : WhenAllState Result Exn) : Prop := {
  wc_cnt : wa_allocated w = true ->
      wa_count w = Z.of_nat n - Z.of_nat (length (wa_decs (wa_trace w)));
  wc_alloc : wa_main w <> wa_check -> wa_main w <> wa_make_shared ->
      wa_allocated w = true;
  wc_f : pre_store (wa_main w) = false -> wa_fires (wa_trace w) = [] ->
      wa_f w = RunOutput;
  wc_d1 : NoDup (wa_decs (wa_trace w)).*1;
  wc_d2 : forall i old, (i, old) ∈ wa_decs (wa_trace w) ->
      resolved w i /\
      ((wa_conts w !! i = Some (CTest old) /\ i ∉ wa_fires (wa_trace w)) \/
       (wa_conts w !! i = Some CDone /\ (old = 1 -> i ∈ wa_fires (wa_trace w))));
  wc_d3 : forall i old, wa_conts w !! i = Some (CTest old) ->
      (i, old) ∈ wa_decs (wa_trace w);
  wc_d3' : forall i, wa_conts w !! i = Some CDone -> i ∈ (wa_decs (wa_trace w)).*1;
  wc_d4 : (wa_decs (wa_trace w)).*2 = olds n (length (wa_decs (wa_trace w)));
  wc_f1 : NoDup (wa_fires (wa_trace w));
  wc_f2 : forall i, i ∈ wa_fires (wa_trace w) -> (i, 1) ∈ wa_decs (wa_trace w);
  wc_bad : wa_bad_fires (wa_trace w) = []
}.

(** D: the output future. *)
Record WaInvD (n : nat) (w : WhenAllState Result Exn) : Prop := {
  wd_walk : forall i, (i < n)%nat -> wa_out_status w <> kNotStarted ->
      (wa_out_status w = kRunning /\ i ∈ wa_walk w) \/ resolved w i;
  wd_member : wa_out_member w =
      if bool_decide (wa_out_status w = kReady)
      then {| resultBuf_ := Some (seq 0 n); exception_ := None |}
      else {| resultBuf_ := None; exception_ := None |}
}.

End WhenAllInvariants.

(** ** Further vocabulary *)

(** The values of [enum Status] (future_impl.h:135). *)
Definition Status_to_int (s : Status) : Z :=
  match s with
  | kNotStarted => 0
  | kRunning => 1
  | kReady => 2
  end.

(** The member function of [FutureImplBase] a program point belongs to. *)
Inductive Call := CallRun | CallWait | CallWaitFor | CallAdd.

Definition call_of_caller (c : RunCaller) : Call :=
  match c with
  | FromRun => CallRun
  | FromWait => CallWait
  | FromWaitFor => CallWaitFor
  end.

Definition call_of (pc : Pc) : option Call :=
  match pc with
  | run_146 | decRef_178 | dealloc_179 => Some CallRun
  | run_198 c _ | run_200 c | run_201 c | run_202 c => Some (call_of_caller c)
  | drain_215 d | drain_217 d _ | node_run d _ _ _ | node_ret d _ _ =>
      Some (match d with
            | DrainFromRun c => call_of_caller c
            | DrainFromAdd => CallAdd
            end)
  | add_256 _ | add_257 _ | add_264 _ | add_266 _ _ | add_268 _ _ | add_278 => Some CallAdd
  | wait_151 | wait_154 => Some CallWait
  | waitFor_159 | waitFor_block => Some CallWaitFor
  | Done _ => None
  end.


(** The status as the trace determines it. *)
Definition status_of_trace (tr : list Event) : Status :=
  match notifiers tr, winners tr with
  | _ :: _, _ => kReady
  | [], _ :: _ => kRunning
  | [], [] => kNotStarted
  end.

Section Solo.
Context {Result Exn : Type}.

(** A thread stays in the member function it called, and what it returns
    fits that function. *)
Definition call_inv (w0 w : World Result Exn) : Prop :=
  forall t pc0 pc, pool w0 !! t = Some pc0 -> pool w !! t = Some pc ->
    (forall c, call_of pc = Some c -> call_of pc0 = Some c) /\
    (forall r, pc = Done r ->
       pc0 = Done r \/
       match call_of pc0 with
       | Some CallWait => r = RetVoid /\ status (shared w) = kReady
       | Some CallWaitFor => (r = RetReady /\ status (shared w) = kReady) \/ r = RetTimeout
       | Some _ => r = RetVoid
       | None => False
       end).


(** What a thread that runs the nodes [L] of a chain one after the other
    leaves behind, and what the release of the buffers [stack] leaves
    behind. *)
Definition run_nodes (t : tid) (L : list (addr * ThenChainFunctor)) (σ : Shared Result Exn)
  : Shared Result Exn :=
  foldl (fun σ x =>
           log (EvFunctor t (Some x.1) x.2 (has_policy (asyncPolicy x.2) launch_async)) σ)
        σ L.

Definition free_nodes (t : tid) (stack : list addr) (σ : Shared Result Exn)
  : Shared Result Exn :=
  foldl (fun σ a => log (EvFree t a) (set_heap (delete a (heap σ)) σ)) σ stack.

(** tryExecuteThenChain() run by thread [t] without interruption on the
    chain [L]. *)
Definition drained (t : tid) (L : list (addr * ThenChainFunctor)) (σ : Shared Result Exn)
  : Shared Result Exn :=
  match L with
  | [] => σ
  | (h, _) :: _ =>
      free_nodes t (reverse L.*1)
        (run_nodes t L (log (EvDrain t h) (on_core (set_thenChain None) σ)))
  end.

Definition drain_steps (L : list (addr * ThenChainFunctor)) : nat :=
  match L with
  | [] => 2
  | _ :: _ => 2 * length L + 5
  end.

(** addToThenChainOrExecute() run by thread [t] without interruption on a
    core that is not ready, with buffer [a] from the allocator. *)
Definition installed (t : tid) (a : addr) (fn : ThenChainFunctor) (σ : Shared Result Exn)
  : Shared Result Exn :=
  let func := with_next fn (thenChain σ) in
  log (EvInsert t a func)
    (on_core (set_thenChain (Some a))
       (set_heap (<[a := Some func]> (<[a := None]> (heap σ)))
          (log (EvAlloc t a) σ))).

End Solo.

Section Constructors.
Context {Result Exn : Type}.

(** [FutureBase(F&&, Schedulable&, asyncPolicy, deferredPolicy)]
    (future_impl.h:466-478): the new core, and whether the thunk
    [OnceFunction(impl_, true)] is scheduled with [ForceQueuingTag]. *)
Definition FutureBase_schedulable (sizeofSmallT kImplSize : nat) (indeterminate : bool)
    (f : Producer Result Exn) (asyncPolicy deferredPolicy : Z)
  : FutureImplBase Result Exn * bool :=
  (createFutureImpl sizeofSmallT kImplSize indeterminate f
     (has_policy deferredPolicy launch_deferred) None,
   has_policy asyncPolicy launch_async).

(** [FutureBase(F&&, TaskSet&, asyncPolicy, deferredPolicy)] and its
    ConcurrentTaskSet and TaskSetInterceptionInvoker twins
    (future_impl.h:480-524): the new core, the counters after
    [outstandingTaskCount_.fetch_add(1)] on the task set's counter [p], and
    the force-queuing flag. *)
Definition FutureBase_taskSet (sizeofSmallT kImplSize : nat) (indeterminate : bool)
    (f : Producer Result Exn) (p : nat) (asyncPolicy deferredPolicy : Z)
    (cs : gmap nat Z)
  : FutureImplBase Result Exn * gmap nat Z * bool :=
  (createFutureImpl sizeofSmallT kImplSize indeterminate f
     (has_policy deferredPolicy launch_deferred) (Some p),
   alter (fun n => wrap_i32 (n + 1)) p cs,
   has_policy asyncPolicy launch_async).

End Constructors.

(** ** A measure of what is left to do in when_all *)

Section WhenAllMeasure.
Context {Result Exn : Type}.

Definition unresolved (ins : list (option (Result + Exn))) : nat :=
  length (filter (fun x => x = None) ins).

Definition main_rank (n : nat) (m : MainPc) : nat :=
  match m with
  | wa_check => n + 5
  | wa_make_shared => n + 4
  | wa_construct_res => n + 3
  | wa_store_f => n + 2
  | wa_install rest => length rest + 1
  | wa_done => 0
  end.

Definition out_rank (n : nat) (s : Status) (walk : list nat) : nat :=
  match s with
  | kNotStarted => n + 2
  | kRunning => length walk + 1
  | kReady => 0
  end.

(** The main thread installs the continuations in the order of the
    traversal. *)
Definition wa_install_inv (form : Form) (n : nat) (w : WhenAllState Result Exn) : Prop :=
  match wa_main w with
  | wa_install rest => reverse (wa_installs (wa_trace w)) ++ rest = visit_order form n
  | wa_done => reverse (wa_installs (wa_trace w)) = visit_order form n
  | _ => wa_installs (wa_trace w) = []
  end.

Definition wa_measure (w : WhenAllState Result Exn) : nat :=
  unresolved (wa_inputs w) + main_rank (length (wa_inputs w)) (wa_main w) +
  out_rank (length (wa_inputs w)) (wa_out_status w) (wa_walk w).

End WhenAllMeasure.

(** ** Concrete instances *)

(** Where a schedule leads; the starting world when it cannot be run. *)
Definition after {Result Exn : Type} (sched : list (tid * Label)) (w0 : World Result Exn)
  : World Result Exn :=
  match exec sched w0 with
  | Some w => w
  | None => w0
  end.

Definition wa_after {Result Exn : Type} (acts : list (WaAction (Result + Exn)))
    (w0 : WhenAllState Result Exn) : WhenAllState Result Exn :=
  match wa_exec acts w0 with
  | Some w => w
  | None => w0
  end.

Module Example.

(** A producer that returns 7 and one that throws exception 3. *)
Definition returns7 : Producer Z nat := fun _ => inl 7.
Definition throws3 : Producer Z nat := fun _ => inr 3%nat.

(** A label with no spurious failure and no timeout; the allocator hands out
    buffer [a]. *)
Definition lbl (a : addr) : Label := {| spurious := false; fresh := a; timed_out := false |}.

(** A world around a fresh core made by createFutureImpl, attached to task
    set counter 0 whose value is 1. *)
Definition world (f : Producer Z nat) (allowInline : bool) (threads : list Pc)
  : World Z nat :=
  {| shared := {| core := createFutureImpl 64 64 false f allowInline (Some 0%nat);
                  counters := {[ 0%nat := 1 ]};
                  heap := ∅;
                  trace := [] |};
     pool := threads |}.

(** Two continuations, scheduling the downstream cores 1 and 2. *)
Definition k1 : ThenChainFunctor :=
  {| impl := 1; schedulable := 0; next := None; asyncPolicy := 0 |}.
Definition k2 : ThenChainFunctor :=
  {| impl := 2; schedulable := 0; next := None; asyncPolicy := launch_async |}.

(** Thread [t] takes [n] steps. *)
Definition steps (t : tid) (n : nat) : list (tid * Label) := replicate n (t, lbl 10).

(** Thread 0 calls run() and gets to the end of it. *)
Definition run_to_end : list (tid * Label) := steps 0 8.


(** Two threads call run(); one thread calls wait() on a core that does not
    allow inline execution; one runner and two installers. *)
Definition two_runners : World Z nat := world returns7 true [run_146; run_146].
Definition one_waiter : World Z nat := world returns7 false [wait_151].
Definition runner_and_installers : World Z nat :=
  world returns7 true [run_146; add_256 k1; add_256 k2].
Definition failing_runner : World Z nat := world throws3 true [run_146; wait_151].

(** A store with one core at address 1, of reference count [r]. *)
Definition store1 (r : Z) : gmap nat (FutureImplBase Z nat) :=
  {[ 1%nat := set_refCount r (createFutureImpl 64 64 false returns7 true None) ]}.

(** when_all on two inputs, the second one resolved already: the main
    thread goes through when_all, the second continuation runs, the first
    input fails with exception 3, its continuation runs and fires the thunk,
    and the producer of the output future runs to its end. *)
Definition two_inputs : list (option (Z + nat)) := [None; Some (inl 5)].
Definition fan_in : list (WaAction (Z + nat)) :=
  replicate 7 AMain ++
  [ADec 1; ATest 1; AResolve 0 (inr 3%nat); ADec 0; ATest 0; AWalk; AWalk].

(** A thread in a timed wait on a core that does not allow inline
    execution, beside a runner. *)
Definition timed_waiter : World Z nat := world returns7 false [waitFor_159; run_146].

(** Thread 1 installs k1, then thread 0 runs the core up to its call of
    tryExecuteThenChain. *)
Definition install_then_produce : list (tid * Label) := steps 1 5 ++ steps 0 5.

(** A future constructed on the task set whose counter 0 stands at 0, and
    the thread that runs the scheduled thunk. *)
Definition taskset_world : World Z nat :=
  {| shared := {| core := (FutureBase_taskSet 64 64 false returns7 0 launch_async
                             launch_deferred {[ 0%nat := 0 ]}).1.1;
                  counters := (FutureBase_taskSet 64 64 false returns7 0 launch_async
                                 launch_deferred {[ 0%nat := 0 ]}).1.2;
                  heap := ∅;
                  trace := [] |};
     pool := [run_146] |}.

End Example.

(** * Proofs *)

(** ** Tactics *)

Lemma pool_lookup_upd (p : list Pc) t pc' t' q :
  <[t := pc']> p !! t' = Some q ->
  (t' = t /\ q = pc') \/ (t' <> t /\ p !! t' = Some q).
Proof.
  intros H. destruct (decide (t' = t)) as [->|Hne].
  - left. split; [done|].
    assert (t < length p)%nat.
    { apply lookup_lt_Some in H. by rewrite length_insert in H. }
    rewrite list_lookup_insert_eq in H by done. by simplify_eq.
  - right. by rewrite list_lookup_insert_ne in H.
Qed.

Lemma pool_lookup_same (p : list Pc) t pc pc' :
  p !! t = Some pc -> <[t := pc']> p !! t = Some pc'.
Proof. intros H. apply list_lookup_insert_eq. by eapply lookup_lt_Some. Qed.

Ltac clean_bools :=
  repeat match goal with
    | H : _ && _ = true |- _ => apply andb_prop in H as [? ?]
    | H : negb _ = true |- _ => apply negb_true_iff in H
    | H : bool_decide _ = true |- _ => apply bool_decide_eq_true in H
    | H : bool_decide _ = false |- _ => apply bool_decide_eq_false in H
    end.

Ltac step_cases H :=
match type of H with
| thread_step _ _ _ ?pc = Some _ =>
    destruct pc; simplify_eq/=; repeat case_match; simplify_eq/=; clean_bools
end.

Ltac pool_upd :=
repeat match goal with
  | H : <[_:=_]> _ !! _ = Some _ |- _ =>
      apply pool_lookup_upd in H as [[-> ?]|[? H]]; simplify_eq/=
  end.

Ltac pool_same := first [eassumption | eapply pool_lookup_same; pool_same].

Ltac wa_cases H :=
match type of H with
| wa_step ?a _ = Some _ =>
    destruct a; unfold wa_step, wa_run_output in H;
    repeat case_match; simplify_eq/=; clean_bools
end.

(** ** The run protocol *)

Section CoreProofs.
Context {Result Exn : Type}.
Implicit Types (w : World Result Exn) (σ : Shared Result Exn).

Lemma exec_app s1 s2 w :
  exec (s1 ++ s2) w = exec s1 w ≫= exec s2.
Proof.
  revert w. induction s1 as [|tl s1 IH]; intros w; simpl; [done|].
  destruct (world_step tl w); simpl; auto.
Qed.

Lemma reachable_refl w : reachable w w.
Proof. by exists []. Qed.

Lemma reachable_step w0 w tl w' :
  reachable w0 w -> world_step tl w = Some w' -> reachable w0 w'.
Proof.
  intros [s Hs] Hstep. exists (s ++ [tl]).
  rewrite exec_app, Hs. simpl. by rewrite Hstep.
Qed.

Lemma world_step_inv tl w w' :
  world_step tl w = Some w' ->
  exists pc σ pc',
    pool w !! tl.1 = Some pc /\
    thread_step tl.1 tl.2 (shared w) pc = Some (σ, pc') /\
    w' = mkWorld σ (<[tl.1 := pc']> (pool w)).
Proof.
  unfold world_step. intros H.
  destruct (pool w !! tl.1) as [pc|] eqn:Hpc; [|done].
  destruct (thread_step tl.1 tl.2 (shared w) pc) as [[σ pc']|] eqn:Hs; [|done].
  simplify_eq. by eexists _, _, _.
Qed.

Lemma reachable_ind (w0 : World Result Exn) (P : World Result Exn -> Prop) :
  P w0 ->
  (forall w t l pc σ pc',
      reachable w0 w -> P w ->
      pool w !! t = Some pc ->
      thread_step t l (shared w) pc = Some (σ, pc') ->
      P (mkWorld σ (<[t := pc']> (pool w)))) ->
  forall w, reachable w0 w -> P w.
Proof.
  intros H0 Hstep w [s Hs]. revert w Hs.
  induction s as [|tl s IH] using rev_ind; intros w Hs.
  - simpl in Hs. by simplify_eq.
  - rewrite exec_app in Hs.
    destruct (exec s w0) as [w1|] eqn:H1; [|done]. simpl in Hs.
    destruct (world_step tl w1) as [w2|] eqn:H2; [|done]. simplify_eq.
    destruct (world_step_inv _ _ _ H2) as (pc & σ & pc' & Hpc & Hts & ->).
    destruct tl as [t l]. eapply Hstep; eauto. by exists s.
Qed.

Lemma status_runFunc (c : FutureImplBase Result Exn) : status_ (runFunc c) = status_ c.
Proof. unfold runFunc. by destruct (func_ c). Qed.

Lemma taskSetCounter_runFunc (c : FutureImplBase Result Exn) :
  taskSetCounter_ (runFunc c) = taskSetCounter_ c.
Proof. unfold runFunc. by destruct (func_ c). Qed.

Lemma elem_of_winners t tr : EvCasRunning t ∈ tr <-> t ∈ winners tr.
Proof.
  unfold winners. rewrite list_elem_of_omap. split.
  - intros H. by exists (EvCasRunning t).
  - intros (e & He & Heq). destruct e; by simplify_eq.
Qed.

Lemma elem_of_runners t tr : EvRunFunc t ∈ tr <-> t ∈ runners tr.
Proof.
  unfold runners. rewrite list_elem_of_omap. split.
  - intros H. by exists (EvRunFunc t).
  - intros (e & He & Heq). destruct e; by simplify_eq.
Qed.

Lemma elem_of_notifiers t tr : EvNotify t ∈ tr <-> t ∈ notifiers tr.
Proof.
  unfold notifiers. rewrite list_elem_of_omap. split.
  - intros H. by exists (EvNotify t).
  - intros (e & He & Heq). destruct e; by simplify_eq.
Qed.

Lemma winners_unique (tr : list Event) t t' :
  (length (winners tr) <= 1)%nat -> t ∈ winners tr -> t' ∈ winners tr -> t = t'.
Proof.
  destruct (winners tr) as [|x [|y l]]; simpl; intros Hle H1 H2; [by apply elem_of_nil in H1| |lia].
  apply list_elem_of_singleton in H1, H2. congruence.
Qed.

Lemma precedes_nil e1 e2 : precedes e1 e2 [].
Proof. intros [|??] ? ?; simplify_eq/=. Qed.

Lemma precedes_cons e1 e2 e tr :
  precedes e1 e2 tr -> (e = e2 -> e1 ∈ tr) -> precedes e1 e2 (e :: tr).
Proof.
  intros Hp He [|x l1] l2 Heq; simplify_eq/=; [by apply He|].
  by eapply Hp.
Qed.

Lemma InvRun_reachable w0 w : initial w0 -> reachable w0 w -> InvRun w.
Proof.
  intros (Htr & Hheap & Hch & Hst & Hent). revert w.
  apply reachable_ind; [|intros w t l pc σ pc' Hr IH Hpc Hstep].
  { constructor; rewrite ?Htr; simpl; try done; try lia; auto using precedes_nil.
    - intros t pc Hl Hs. eapply Forall_lookup_1 in Hent; eauto. by destruct pc.
    - intros t c Hl. eapply Forall_lookup_1 in Hent; eauto. done.
    - intros t c Hl. eapply Forall_lookup_1 in Hent; eauto. done.
    - intros t pc Hin. by apply elem_of_nil in Hin. }
  destruct pc; simplify_eq/=; repeat case_match; simplify_eq/=; clean_bools.
  all: destruct IH as [I1 I2 I3 I4 I5 I6 I7 I8 I9 I10 I11 I12 I13 I14].
  all: constructor; unfold status in *; simpl in *.
  all: try done.
  all: intros.
  all: repeat match goal with
         | H : <[_:=_]> _ !! _ = Some _ |- _ =>
             apply pool_lookup_upd in H as [[-> ?]|[? H]]; simplify_eq/=
         end.
  all: try (destruct c; discriminate).
  all: try (destruct d as [[]|]; discriminate).
  all: rewrite ?status_runFunc in *.
  all: repeat match goal with
         | H : pool _ !! ?t = Some ?pc |- _ =>
             lazymatch pc with
             | run_200 _ =>
                 lazymatch goal with
                 | _ : seen t |- _ => fail
                 | _ => pose proof (I3 _ _ H eq_refl) as [? ?];
                        pose proof (I4 _ _ H); assert (seen t) by constructor
                 end
             | run_201 _ =>
                 lazymatch goal with
                 | _ : seen t |- _ => fail
                 | _ => pose proof (I3 _ _ H eq_refl) as [? ?];
                        pose proof (I5 _ _ H); assert (seen t) by constructor
                 end
             | run_202 _ =>
                 lazymatch goal with
                 | _ : seen t |- _ => fail
                 | _ => pose proof (I3 _ _ H eq_refl) as [? ?];
                        pose proof (I6 _ _ H) as (? & ? & ?);
                        assert (seen t) by constructor
                 end
             end
         end.
  all: try match goal with
         | H : pool _ !! ?t = Some ?pc, H' : in_run_section ?pc = true |- _ =>
             pose proof (I3 _ _ H H') as [? ?]
         end.
  all: try (apply precedes_cons; [done|intros ?; simplify_eq]).
  all: rewrite ?elem_of_winners, ?elem_of_runners, ?elem_of_notifiers.
  all: try match goal with
         | H1 : ?t ∈ winners ?tr, H2 : ?t' ∈ winners ?tr, H3 : ?t' <> ?t |- _ =>
             exfalso; apply H3; by eapply (winners_unique tr)
         end.
  all: subst.
  all: try match goal with
         | H : status_ _ = kNotStarted |- _ => pose proof (I2 H) as (? & ? & ?)
         end.
  all: repeat match goal with
         | H : ?x = [] |- _ => progress (rewrite H in * )
         end.
  all: simpl.
  all: try (by eauto).
  all: try lia.
  all: try (solve [split_and?;
              first [ done | by left | congruence
                    | exfalso; match goal with H : _ ∈ [] |- _ => by apply elem_of_nil in H end
                    | exfalso; match goal with
                               | H : ?a ∈ [?b], Hn : ?a <> ?b |- _ =>
                                   apply list_elem_of_singleton in H; contradiction
                               end
                    | intros; by left ]]).
  all: try congruence.
  all: try (split_and!; try done; intros [? ?]; congruence).
Qed.

(** *** What one step can do *)

Lemma thread_step_trace t l σ pc σ' pc' :
  thread_step t l σ pc = Some (σ', pc') ->
  σ' = σ \/ exists e, trace σ' = e :: trace σ /\ actor e = t.
Proof.
  intros H. destruct pc; simplify_eq/=; repeat case_match; simplify_eq/=; eauto.
Qed.

Lemma thread_step_status t l σ pc σ' pc' :
  thread_step t l σ pc = Some (σ', pc') ->
  status σ' = status σ \/
  (status σ = kNotStarted /\ status σ' = kRunning /\ trace σ' = EvCasRunning t :: trace σ) \/
  (pc = run_201 (match pc' with run_202 c => c | _ => FromRun end) /\ status σ' = kReady).
Proof.
  intros H. destruct pc; simplify_eq/=; repeat case_match; simplify_eq/=; clean_bools;
    unfold status in *; simpl; rewrite ?status_runFunc; subst; eauto.
Qed.

Lemma thread_step_started t l σ pc σ' pc' :
  thread_step t l σ pc = Some (σ', pc') ->
  status σ <> kNotStarted -> status σ' <> kNotStarted.
Proof.
  intros H Hs. destruct (thread_step_status _ _ _ _ _ _ H) as [E|[(E&?&?)|[_ E]]];
    congruence.
Qed.

Lemma thread_step_ready t l σ pc σ' pc' :
  thread_step t l σ pc = Some (σ', pc') ->
  status σ = kReady -> status σ' = kReady.
Proof.
  intros H Hs. destruct (thread_step_status _ _ _ _ _ _ H) as [E|[(E&?&?)|[_ E]]];
    congruence.
Qed.

Lemma thread_step_fields t l σ pc σ' pc' :
  thread_step t l σ pc = Some (σ', pc') ->
  taskSetCounter_ (core σ') = taskSetCounter_ (core σ) /\
  allowInline_ (core σ') = allowInline_ (core σ) /\
  func_ (core σ') = func_ (core σ) /\
  storage_ (core σ') = storage_ (core σ).
Proof.
  intros H. destruct pc; simplify_eq/=; repeat case_match; simplify_eq/=; try done.
  unfold runFunc. by case_match.
Qed.

Lemma reachable_trans (w0 w1 w2 : World Result Exn) :
  reachable w0 w1 -> reachable w1 w2 -> reachable w0 w2.
Proof.
  intros [s1 H1] [s2 H2]. exists (s1 ++ s2). rewrite exec_app, H1. done.
Qed.


Lemma reachable_started (w0 w : World Result Exn) :
  reachable w0 w -> status (shared w0) <> kNotStarted -> status (shared w) <> kNotStarted.
Proof.
  intros Hr H0. revert w Hr. apply reachable_ind; [done|]. intros; simpl.
  eauto using thread_step_started.
Qed.

Lemma reachable_ready (w0 w : World Result Exn) :
  reachable w0 w -> status (shared w0) = kReady -> status (shared w) = kReady.
Proof.
  intros Hr H0. revert w Hr. apply reachable_ind; [done|]. intros; simpl.
  eauto using thread_step_ready.
Qed.

Lemma precedes_elem e1 e2 tr : precedes e1 e2 tr -> e2 ∈ tr -> e1 ∈ tr.
Proof.
  intros Hp Hin. apply list_elem_of_split in Hin as (l1 & l2 & ->).
  apply elem_of_app. right. right. by eapply Hp.
Qed.

Lemma own_events_cons_other t e tr :
  actor e <> t -> own_events t (e :: tr) = own_events t tr.
Proof. intros. unfold own_events. by rewrite filter_cons_False. Qed.

Lemma own_events_cons_own t e tr :
  actor e = t -> own_events t (e :: tr) = e :: own_events t tr.
Proof. intros. unfold own_events. by rewrite filter_cons_True. Qed.

(** *** run() on a core that was already started *)

Lemma run_noop_interleaved (w : World Result Exn) t :
  pool w !! t = Some run_146 ->
  status (shared w) <> kNotStarted ->
  forall w', reachable w w' ->
    status (shared w') <> kNotStarted /\
    exists pc X,
      pool w' !! t = Some pc /\
      own_events t (trace (shared w')) = X ++ own_events t (trace (shared w)) /\
      noop_run_events t pc X.
Proof.
  intros Hpc Hst. apply reachable_ind.
  { split; [done|]. exists run_146, []. by simpl. }
  intros w1 t' l pc σ pc' Hr (Hs1 & pc1 & X & Hpc1 & Hev & Hnoop) Hl Hstep; simpl.
  split; [by eapply thread_step_started|].
  destruct (decide (t' = t)) as [->|Hne].
  - assert (pc1 = pc) as -> by congruence.
    exists pc'. rewrite list_lookup_insert_eq by (by eapply lookup_lt_Some).
    destruct pc as [| | |[] s| | | | | | | | | | | | | | | | | |[]];
      simpl in Hnoop; try done; subst X.
    + simplify_eq/=. by exists [].
    + simplify_eq/=. case_match; clean_bools; simplify_eq/=.
      * exists [EvDecRef t]. rewrite own_events_cons_own by done. by rewrite Hev.
      * exists [EvDecRef t]. rewrite own_events_cons_own by done. rewrite Hev. eauto.
    + simplify_eq/=. exists [EvDealloc t; EvDecRef t].
      rewrite own_events_cons_own by done. rewrite Hev. eauto.
    + simpl in Hstep. repeat case_match; clean_bools; simplify_eq/=;
        try (unfold status in *; congruence); by exists [].
  - exists pc1, X. rewrite list_lookup_insert_ne by done. split; [done|]. split; [|done].
    destruct (thread_step_trace _ _ _ _ _ _ Hstep) as [->|(e & -> & He)]; [done|].
    rewrite own_events_cons_other by congruence. done.
Qed.

Lemma exec_cons_step t l rest (w : World Result Exn) σ pc pc' :
  pool w !! t = Some pc ->
  thread_step t l (shared w) pc = Some (σ, pc') ->
  exec ((t, l) :: rest) w = exec rest (mkWorld σ (<[t := pc']> (pool w))).
Proof. intros Hpc Hs. simpl. unfold world_step. simpl. by rewrite Hpc, Hs. Qed.

Lemma run_noop_solo (w : World Result Exn) t l1 l2 l3 l4 :
  pool w !! t = Some run_146 ->
  status (shared w) <> kNotStarted ->
  exec [(t, l1); (t, l2); (t, l3); (t, l4)] w =
    Some {| shared := log (EvDecRef t)
                        (on_core (fun c => (decRefCountMaybeDestroy c).1) (shared w));
            pool := <[t := if (decRefCountMaybeDestroy (core (shared w))).2
                           then dealloc_179 else Done RetVoid]> (pool w) |}.
Proof.
  intros Hpc Hst.
  assert (thread_step t l2 (shared w) (run_198 FromRun kNotStarted)
          = Some (shared w, run_198 FromRun (status (shared w)))) as H2.
  { simpl. rewrite andb_false_intro1; [done|]. by apply bool_decide_eq_false. }
  assert (thread_step t l3 (shared w) (run_198 FromRun (status (shared w)))
          = Some (shared w, decRef_178)) as H3.
  { simpl. by rewrite bool_decide_eq_false_2. }
  erewrite exec_cons_step; [|done|done].
  erewrite exec_cons_step; [|pool_same|exact H2].
  erewrite exec_cons_step; [|pool_same|exact H3].
  erewrite exec_cons_step; [|pool_same|done].
  simpl. by rewrite !list_insert_insert_eq.
Qed.

(** *** The task-set counter *)

Lemma thread_step_counters t l σ pc σ' pc' :
  thread_step t l σ pc = Some (σ', pc') ->
  (counters σ' = counters σ /\
   decrementers (trace σ') = decrementers (trace σ)) \/
  (exists p, in_run_section pc = true /\
     taskSetCounter_ (core σ) = Some p /\
     counters σ' = alter (fun n => wrap_i32 (n - 1)) p (counters σ) /\
     decrementers (trace σ') = t :: decrementers (trace σ)).
Proof.
  intros H. destruct pc; simplify_eq/=; repeat case_match; simplify_eq/=.
  all: try (left; split; reflexivity).
  right. eexists. split_and!; first [reflexivity|eassumption|symmetry; eassumption].
Qed.

Lemma member_runFunc (c : FutureImplBase Result Exn) :
  member (runFunc c) =
    match func_ c with Some f => runToResult f (member c) | None => member c end.
Proof. unfold runFunc. by destruct (func_ c). Qed.

Lemma thread_step_member t l σ pc σ' pc' :
  thread_step t l σ pc = Some (σ', pc') ->
  (member (core σ') = member (core σ) /\ runners (trace σ') = runners (trace σ)) \/
  (exists c, pc = run_200 c /\ member (core σ') = member (runFunc (core σ)) /\
     runners (trace σ') = t :: runners (trace σ)).
Proof.
  intros H. destruct pc; simplify_eq/=; repeat case_match; simplify_eq/=.
  all: try (left; split; reflexivity).
  right. eexists. split_and!; reflexivity.
Qed.

Lemma aux_reachable (w0 w : World Result Exn) :
  initial w0 -> reachable w0 w ->
  taskSetCounter_ (core (shared w)) = taskSetCounter_ (core (shared w0)) /\
  allowInline_ (core (shared w)) = allowInline_ (core (shared w0)) /\
  (status (shared w0) = kNotStarted -> status (shared w) <> kNotStarted ->
     winners (trace (shared w)) <> []) /\
  Forall (fun e => is_Some (pool w !! actor e)) (trace (shared w)) /\
  counters (shared w) = counters_after w0 w /\
  func_ (core (shared w)) = func_ (core (shared w0)) /\
  member (core (shared w)) = member_after w0 w.
Proof.
  intros Hinit. revert w. apply reachable_ind.
  { destruct Hinit as (Htr & _). unfold counters_after, member_after. rewrite Htr. simpl.
    split_and!; try done. }
  intros w t l pc σ pc' Hr (Htsc & Hai & Hwin & Hact & Hcnt & Hfn & Hmem) Hpc Hstep.
  pose proof (InvRun_reachable _ _ Hinit Hr) as Hinv.
  destruct (thread_step_fields _ _ _ _ _ _ Hstep) as (F1 & F2 & F3 & _).
  simpl. split_and!.
  - congruence.
  - congruence.
  - intros H0 Hs.
    destruct (thread_step_status _ _ _ _ _ _ Hstep) as [E|[(E1&E2&E3)|[E1 E2]]].
    + rewrite E in Hs. specialize (Hwin H0 Hs).
      destruct (thread_step_trace _ _ _ _ _ _ Hstep) as [->|(e & -> & _)]; [done|].
      simpl. destruct e; simpl; try done.
    + by rewrite E3.
    + rewrite E1 in Hpc.
      destruct (ir_sec _ Hinv _ _ Hpc eq_refl) as [Hin _].
      assert (winners (trace (shared w)) <> []) as Hne
        by (intros Heq; rewrite Heq in Hin; by apply elem_of_nil in Hin).
      destruct (thread_step_trace _ _ _ _ _ _ Hstep) as [->|(e & -> & _)]; [done|].
      simpl. destruct e; simpl; done.
  - assert (Forall (fun e => is_Some (<[t:=pc']> (pool w) !! actor e))
              (trace (shared w))) as Hact'.
    { eapply Forall_impl; [exact Hact|]. intros e He. simpl in He.
      apply lookup_lt_is_Some. rewrite length_insert. by apply lookup_lt_is_Some. }
    destruct (thread_step_trace _ _ _ _ _ _ Hstep) as [->|(e & -> & He)]; [done|].
    constructor; [|done]. rewrite He. apply lookup_lt_is_Some.
    rewrite length_insert. by eapply lookup_lt_Some.
  - unfold counters_after in *. simpl.
    destruct (thread_step_counters _ _ _ _ _ _ Hstep) as [[-> ->]|(p & Hsec & Hp & -> & ->)];
      [done|].
    destruct (ir_sec _ Hinv _ _ Hpc Hsec) as [_ Hd]. rewrite Hd in Hcnt.
    rewrite <- Htsc, Hp. by rewrite Hcnt.
  - congruence.
  - unfold member_after in *. simpl.
    destruct (thread_step_member _ _ _ _ _ _ Hstep) as [[-> ->]|(c & -> & -> & ->)];
      [done|].
    rewrite (ir_200 _ Hinv _ _ Hpc) in Hmem.
    rewrite !member_runFunc, Hfn, Hmem. done.
Qed.

Lemma all_ready_when_drained (ws : list (World Result Exn * World Result Exn)) :
  Forall (fun x => initial x.1 /\ reachable x.1 x.2) ws ->
  sum_list (map (fun x => length (decrementers (trace (shared x.2)))) ws) = length ws ->
  Forall (fun x => ready (core (shared x.2)) = true) ws.
Proof.
  induction 1 as [|[w0 w] ws [Hi Hr] Hall IH]; simpl; [done|].
  simpl in Hi, Hr.
  pose proof (InvRun_reachable _ _ Hi Hr) as Hinv.
  pose proof (ir_dec_le _ Hinv) as Hle.
  assert (sum_list (map (fun x => length (decrementers (trace (shared x.2)))) ws)
          <= length ws)%nat as Hsum.
  { clear -Hall. induction Hall as [|[w0' w'] ws' [Hi' Hr'] _ IH']; simpl; [lia|].
    simpl in *. pose proof (ir_dec_le _ (InvRun_reachable _ _ Hi' Hr')). lia. }
  intros Heq. constructor.
  - simpl. unfold ready. apply bool_decide_eq_true.
    apply (ir_dec_ready _ Hinv). destruct (decrementers (trace (shared w))); simpl in *;
      [lia|done].
  - apply IH. lia.
Qed.

(** *** An installer that finds the core ready *)

Lemma ready_install_interleaved (w : World Result Exn) t fn :
  pool w !! t = Some (add_256 fn) ->
  status (shared w) = kReady ->
  forall w', reachable w w' ->
    status (shared w') = kReady /\
    exists pc X,
      pool w' !! t = Some pc /\
      own_events t (trace (shared w')) = X ++ own_events t (trace (shared w)) /\
      ready_install_events t fn pc X.
Proof.
  intros Hpc Hst. apply reachable_ind.
  { split; [done|]. exists (add_256 fn), []. by simpl. }
  intros w1 t' l pc σ pc' Hr (Hs1 & pc1 & X & Hpc1 & Hev & Hri) Hl Hstep; simpl.
  split; [by eapply thread_step_ready|].
  destruct (decide (t' = t)) as [->|Hne].
  - assert (pc1 = pc) as -> by congruence.
    exists pc'. rewrite list_lookup_insert_eq by (by eapply lookup_lt_Some).
    destruct pc; simpl in Hri; try done.
    + destruct Hri as [-> ->]. simpl in Hstep.
      rewrite bool_decide_eq_true_2 in Hstep by done. simplify_eq. by exists [].
    + destruct Hri as [-> ->]. simplify_eq/=.
      exists [EvFunctor t None (with_next fn None)
                (has_policy (asyncPolicy fn) launch_async)].
      split; [done|]. rewrite own_events_cons_own by done. by rewrite Hev.
  - exists pc1, X. rewrite list_lookup_insert_ne by done. split; [done|]. split; [|done].
    destruct (thread_step_trace _ _ _ _ _ _ Hstep) as [->|(e & -> & He)]; [done|].
    rewrite own_events_cons_other by congruence. done.
Qed.

(** *** wait() *)

Lemma step_202 t l (σ : Shared Result Exn) c :
  thread_step t l σ (run_202 c) =
    Some (match taskSetCounter_ (core σ) with
          | Some p =>
              log (EvTaskSetDec t)
                (set_counters (alter (fun n => wrap_i32 (n - 1)) p (counters σ)) σ)
          | None => σ
          end, drain_215 (DrainFromRun c)).
Proof. simpl. by destruct (taskSetCounter_ (core σ)). Qed.

Lemma wait_inline_solo (w : World Result Exn) t l :
  pool w !! t = Some wait_151 ->
  status (shared w) = kNotStarted ->
  spurious l = false ->
  exec (replicate 5 (t, l)) w =
    Some {| shared := produce t (shared w);
            pool := <[t := drain_215 (DrainFromRun FromWait)]> (pool w) |}.
Proof.
  intros Hpc Hst Hsp. simpl replicate.
  assert (thread_step t l (shared w) wait_151
          = Some (shared w, run_198 FromWait kNotStarted)) as H1.
  { simpl. rewrite Hst. done. }
  assert (thread_step t l (shared w) (run_198 FromWait kNotStarted)
          = Some (log (EvCasRunning t) (on_core (set_status kRunning) (shared w)),
                  run_200 FromWait)) as H2.
  { simpl. rewrite Hst, Hsp. done. }
  erewrite exec_cons_step; [|pool_same|exact H1].
  erewrite exec_cons_step; [|pool_same|exact H2].
  erewrite exec_cons_step; [|pool_same|done].
  erewrite exec_cons_step; [|pool_same|done].
  erewrite exec_cons_step; [|pool_same|apply step_202].
  unfold produce. cbn [exec pool shared].
  by rewrite !list_insert_insert_eq.
Qed.

Lemma wait_ready_solo (w : World Result Exn) t l :
  pool w !! t = Some wait_151 ->
  status (shared w) = kReady ->
  exec [(t, l)] w = Some {| shared := shared w; pool := <[t := Done RetVoid]> (pool w) |}.
Proof.
  intros Hpc Hst. erewrite exec_cons_step; [done|done|].
  simpl. by rewrite Hst.
Qed.

Lemma wait_running_solo (w : World Result Exn) t l :
  pool w !! t = Some wait_151 ->
  status (shared w) = kRunning ->
  exec [(t, l); (t, l)] w =
    Some {| shared := shared w; pool := <[t := wait_154]> (pool w) |} /\
  world_step (t, l) {| shared := shared w; pool := <[t := wait_154]> (pool w) |} = None.
Proof.
  intros Hpc Hst. split.
  - assert (thread_step t l (shared w) wait_151
            = Some (shared w, run_198 FromWait kRunning)) as H1.
    { simpl. rewrite Hst. done. }
    erewrite exec_cons_step; [|pool_same|exact H1].
    erewrite exec_cons_step; [|pool_same|done].
    simpl. by rewrite list_insert_insert_eq.
  - unfold world_step. simpl. erewrite pool_lookup_same by done.
    simpl. by rewrite Hst.
Qed.

End CoreProofs.

(** ** The then-chain *)

Section ListFacts.
Context {A : Type}.

End ListFacts.

Section ChainProofs.
Context {Result Exn : Type}.
Implicit Types (w : World Result Exn) (σ : Shared Result Exn).

Lemma thenChain_runFunc (c : FutureImplBase Result Exn) :
  thenChain_ (runFunc c) = thenChain_ c.
Proof. unfold runFunc. by destruct (func_ c). Qed.

Lemma gated_reachable w0 w : initial w0 -> reachable w0 w -> gated_inv w.
Proof.
  intros (_ & _ & _ & _ & Hent). revert w. apply reachable_ind; unfold gated_inv.
  { intros t pc Hl Hg. eapply Forall_lookup_1 in Hent; eauto. by destruct pc. }
  intros w t l pc σ pc' Hr IH Hpc Hstep t' pc1 Hl Hg. simpl in *.
  apply pool_lookup_upd in Hl as [[-> ->]|[Hne Hl]].
  - destruct (gated pc) eqn:Hgpc.
    + eapply thread_step_ready; eauto.
    + step_cases Hstep; unfold status in *; simpl in *; try done.
      all: try (destruct c; done).
      all: try (destruct d as [[]|]; done).
  - eapply thread_step_ready; eauto.
Qed.




(** *** The shape of the buffers *)

Lemma chain_agree h h' p l :
  chain h p l -> (forall x, x ∈ l.*1 -> h' !! x = h !! x) -> chain h' p l.
Proof.
  induction 1 as [|a fn l Ha Hc IH]; intros Hag; constructor.
  - rewrite Hag; [done|]. simpl. left.
  - apply IH. intros x Hx. apply Hag. simpl. by right.
Qed.

Lemma chain_allocated h p l x : chain h p l -> x ∈ l.*1 -> is_Some (h !! x).
Proof.
  induction 1 as [|a fn l Ha Hc IH]; simpl; intros Hx; [by apply elem_of_nil in Hx|].
  apply elem_of_cons in Hx as [->|Hx]; eauto.
Qed.

Lemma chain_None_inv h l : chain h None l -> l = [].
Proof. by inversion 1. Qed.

Lemma chain_Some_inv h a l :
  chain h (Some a) l ->
  exists fn l', l = (a, fn) :: l' /\ h !! a = Some (Some fn) /\ chain h (next fn) l'.
Proof. inversion 1; subst. eauto. Qed.








(** *** Every continuation runs exactly once *)










End ChainProofs.

Section MoreCoreProofs.
Context {Result Exn : Type}.
Implicit Types (w : World Result Exn) (σ : Shared Result Exn).

Lemma running_reachable w0 w : initial w0 -> reachable w0 w -> running_inv w.
Proof.
  intros Hi. pose proof Hi as (_ & _ & _ & _ & Hent). revert w.
  apply reachable_ind; unfold running_inv.
  { intros t pc Hl [c [-> | ->]]; eapply Forall_lookup_1 in Hent; eauto; done. }
  intros w t l pc σ pc' Hr IH Hpc Hstep t' pc1 Hl [c Hc]. simpl in *.
  pose proof (InvRun_reachable _ _ Hi Hr) as I.
  apply pool_lookup_upd in Hl as [[-> ->]|[Hne Hl]].
  - destruct Hc as [-> | ->]; step_cases Hstep; unfold status in *; simpl in *;
      rewrite ?status_runFunc; try done.
    all: try (destruct c0; done).
    all: try (destruct d as [[]|]; done).
    eapply IH; eauto.
  - specialize (IH _ _ Hl (ex_intro _ c Hc)).
    destruct (thread_step_status _ _ _ _ _ _ Hstep) as [E|[(E1 & E2 & _)|(E1 & E2)]].
    + congruence.
    + congruence.
    + exfalso. subst pc. apply Hne.
      assert (t ∈ winners (trace (shared w))) by (by eapply (ir_sec _ I)).
      assert (t' ∈ winners (trace (shared w))).
      { eapply (ir_sec _ I); [exact Hl|]. by destruct Hc as [-> | ->]. }
      symmetry. eapply winners_unique; eauto. apply (ir_win_le _ I).
Qed.

Lemma ready_has_runner w0 w :
  initial w0 -> status (shared w0) = kNotStarted -> reachable w0 w ->
  status (shared w) = kReady -> runners (trace (shared w)) <> [].
Proof.
  intros Hi H0 Hr Hrd.
  pose proof (InvRun_reachable _ _ Hi Hr) as I.
  destruct (aux_reachable _ _ Hi Hr) as (_ & _ & Hw & Hact & _).
  specialize (Hw H0 ltac:(congruence)).
  destruct (winners (trace (shared w))) as [|t ws] eqn:E; [done|].
  assert (t ∈ winners (trace (shared w))) as Hin by (rewrite E; left).
  pose proof Hin as Hev. apply elem_of_winners in Hev.
  rewrite Forall_forall in Hact. destruct (Hact _ Hev) as [pc Hpc]. simpl in Hpc.
  assert (t ∈ runners (trace (shared w))) as Hrun.
  { destruct (in_run_section pc) eqn:Hs.
    - destruct pc; try done.
      + pose proof (running_reachable _ _ Hi Hr _ _ Hpc (ex_intro _ c (or_introl eq_refl))).
        congruence.
      + by eapply (ir_201 _ I).
      + by eapply (ir_202 _ I).
    - by destruct (ir_done _ I _ _ Hin Hpc Hs) as (? & _). }
  intros Hnil. rewrite Hnil in Hrun. by apply elem_of_nil in Hrun.
Qed.

Lemma ready_install_solo w t fn l1 l2 :
  pool w !! t = Some (add_256 fn) ->
  status (shared w) = kReady ->
  exec [(t, l1); (t, l2)] w =
    Some {| shared := log (EvFunctor t None (with_next fn None)
                             (has_policy (asyncPolicy fn) launch_async)) (shared w);
            pool := <[t := Done RetVoid]> (pool w) |}.
Proof.
  intros Hpc Hst.
  assert (thread_step t l1 (shared w) (add_256 fn)
          = Some (shared w, add_257 (with_next fn None))) as H1.
  { simpl. by rewrite bool_decide_eq_true_2. }
  erewrite exec_cons_step; [|done|exact H1].
  erewrite exec_cons_step; [|pool_same|done].
  simpl. by rewrite !list_insert_insert_eq.
Qed.

End MoreCoreProofs.

(** ** when_all *)

Section WhenAllProofs.
Context {Result Exn : Type}.
Implicit Types (w : WhenAllState Result Exn).

Lemma wa_exec_app a1 a2 w :
  wa_exec (a1 ++ a2) w = wa_exec a1 w ≫= wa_exec a2.
Proof.
  revert w. induction a1 as [|a a1 IH]; intros w; simpl; [done|].
  destruct (wa_step a w); simpl; auto.
Qed.

Lemma wa_reachable_ind (w0 : WhenAllState Result Exn) (P : WhenAllState Result Exn -> Prop) :
  P w0 ->
  (forall w a w', wa_reachable w0 w -> P w -> wa_step a w = Some w' -> P w') ->
  forall w, wa_reachable w0 w -> P w.
Proof.
  intros H0 Hstep w [s Hs]. revert w Hs.
  induction s as [|a s IH] using rev_ind; intros w Hs.
  - simpl in Hs. injection Hs as <-. exact H0.
  - rewrite wa_exec_app in Hs.
    destruct (wa_exec s w0) as [w1|] eqn:H1; [|done]. simpl in Hs.
    destruct (wa_step a w1) as [w2|] eqn:H2; [|done]. injection Hs as <-.
    eapply (Hstep w1 a); [by exists s|by apply IH|done].
Qed.

Lemma wa_step_a w a w' :
  wa_step a w = Some w' ->
  length (wa_conts w') = length (wa_conts w) /\
  length (wa_inputs w') = length (wa_inputs w) /\
  wa_form w' = wa_form w /\
  (forall i, resolved w i -> resolved w' i).
Proof.
  intros H. wa_cases H; rewrite ?length_insert; split_and!; try done.
  all: try (by match goal with H : wa_inputs _ = _ |- _ => rewrite H end).
  intros j [o' Ho]; unfold resolved; simpl.
  destruct (decide (j = i)) as [->|Hne].
  - exists o. rewrite list_lookup_insert_eq; [done|]. by eapply lookup_lt_Some.
  - exists o'. by rewrite list_lookup_insert_ne.
Qed.

Lemma wa_reachable_a w0 w : wa_reachable w0 w -> wa_inv_a w0 w.
Proof.
  revert w. apply wa_reachable_ind; [done|].
  intros w a w' _ (I1 & I2 & I3) Hs.
  destruct (wa_step_a _ _ _ Hs) as (E1 & E2 & E3 & _).
  unfold wa_inv_a. rewrite E1, E2, E3. done.
Qed.

Lemma wa_precedes_nil e1 e2 : wa_precedes e1 e2 [].
Proof. intros [|??] ? ?; simplify_eq/=. Qed.

Lemma wa_precedes_cons e1 e2 e tr :
  wa_precedes e1 e2 tr -> (e = e2 -> e1 ∈ tr) -> wa_precedes e1 e2 (e :: tr).
Proof.
  intros Hp He [|x l1] l2 Heq; simplify_eq/=; [by apply He|].
  by eapply Hp.
Qed.

Lemma wa_precedes_cons_same e1 e2 tr :
  wa_precedes e1 e2 tr -> e1 ∈ tr -> forall e, wa_precedes e1 e2 (e :: tr).
Proof. intros. by apply wa_precedes_cons. Qed.

Lemma all_not_installed (cs : list ContPc) i c :
  Forall (fun c => c = CNotInstalled) cs -> cs !! i = Some c -> c = CNotInstalled.
Proof. intros F H. by eapply Forall_lookup_1 in F; [|exact H]. Qed.

Lemma conts_insert_lookup (cs : list ContPc) i j c c' :
  <[i := c]> cs !! j = Some c' ->
  (j = i /\ c' = c) \/ (j <> i /\ cs !! j = Some c').
Proof.
  intros H. destruct (decide (j = i)) as [->|Hne].
  - left. split; [done|].
    assert (i < length cs)%nat.
    { apply lookup_lt_Some in H. by rewrite length_insert in H. }
    rewrite list_lookup_insert_eq in H by done. by simplify_eq.
  - right. by rewrite list_lookup_insert_ne in H.
Qed.

Lemma wa_reachable_b form ins w :
  ins <> [] ->
  wa_reachable (wa_init form ins) w -> WaInvB w.
Proof.
  intros Hne. revert w. apply wa_reachable_ind.
  { constructor; simpl; try done; auto using wa_precedes_nil.
    all: try (intros; apply not_elem_of_nil).
    all: try (by constructor).
    - intros _. split_and!; try done; [|apply not_elem_of_nil].
      by apply Forall_replicate.
    - intros i c Hl. apply lookup_replicate in Hl as [-> _]. done. }
  intros w a w' Hr IH Hs.
  destruct (wa_reachable_a _ _ Hr) as (_ & Hlen & _). simpl in Hlen.
  assert (wa_inputs w <> []) as Hne' by (intros E; rewrite E in Hlen; by destruct ins).
  destruct IH as [B1 B2 B3 B4 B5 B6 B7].
  assert (forall i c, wa_conts w !! i = Some c -> c <> CNotInstalled ->
                      pre_store (wa_main w) = false) as Hc.
  { intros i c Hl Hc. destruct (pre_store (wa_main w)) eqn:E; [|done].
    destruct (B1 eq_refl) as (F & _). by eapply all_not_installed in F. }
  assert (wa_out_status w <> kNotStarted -> pre_store (wa_main w) = false) as Ho.
  { intros Hc'. destruct (pre_store (wa_main w)) eqn:E; [|done].
    destruct (B1 eq_refl) as (_ & _ & _ & _ & _ & _ & F). done. }
  wa_cases Hs.
  all: try match goal with
         | H : wa_conts _ !! _ = Some CInstalled |- _ => pose proof (Hc _ _ H ltac:(done))
         | H : wa_conts _ !! _ = Some (CTest _) |- _ => pose proof (Hc _ _ H ltac:(done))
         | H : wa_out_status _ = kRunning |- _ =>
             pose proof (Ho ltac:(by rewrite H))
         end.
  all: constructor; simpl; try done; intros.
  all: try congruence.
  all: repeat match goal with
         | H : <[_:=_]> _ !! _ = Some _ |- _ =>
             apply conts_insert_lookup in H as [[-> ?]|[? H]]; simplify_eq
         end.
  all: try match goal with
         | H : true = true -> _ |- _ =>
             destruct (H eq_refl) as (F1 & F2 & F3 & F4 & F5 & F6 & F7)
         | H : pre_store (wa_main _) = true |- _ =>
             destruct (B1 H) as (F1 & F2 & F3 & F4 & F5 & F6 & F7)
         end.
  all: try (apply wa_precedes_cons; [done|intros; simplify_eq]).
  all: rewrite ?F3 in *.
  all: try (by eauto).
  all: try (split_and!; try done; rewrite not_elem_of_cons; by split).
  all: try (rewrite elem_of_cons; right; by eauto).
  all: try (rewrite not_elem_of_cons; split; [congruence|by eauto]).
  all: try done.
  all: try (by left).
  all: try (exfalso; match goal with
                     | H : wa_main _ = _, H' : pre_store (wa_main _) = true |- _ =>
                         by rewrite H in H'
                     end).
  all: try (constructor; by eauto).
  all: try (repeat (apply wa_precedes_cons; [|intros; simplify_eq]); done).
  all: rewrite ?elem_of_cons; eauto.
Qed.

Lemma olds_bounds n d x : x ∈ olds n d -> Z.of_nat n - Z.of_nat d < x <= Z.of_nat n.
Proof.
  induction d as [|d IH]; simpl; intros Hx; [by apply elem_of_nil in Hx|].
  apply elem_of_cons in Hx as [->|Hx]; [lia|]. specialize (IH Hx). lia.
Qed.

Lemma olds_nodup n d : NoDup (olds n d).
Proof.
  induction d as [|d IH]; simpl; constructor; [|done].
  intros Hx. apply olds_bounds in Hx. lia.
Qed.

Lemma olds_length n d : length (olds n d) = d.
Proof. induction d; simpl; auto. Qed.



Lemma fst_unique {A B} (l : list (A * B)) a b b' :
  NoDup l.*1 -> (a, b) ∈ l -> (a, b') ∈ l -> b = b'.
Proof.
  induction l as [|[x y] l IH]; simpl; intros Hnd H1 H2; [by apply elem_of_nil in H1|].
  apply NoDup_cons in Hnd as [Hn Hnd].
  apply elem_of_cons in H1 as [H1|H1]; apply elem_of_cons in H2 as [H2|H2];
    simplify_eq; eauto.
  - exfalso. apply Hn. apply list_elem_of_fmap. by exists (x, b').
  - exfalso. apply Hn. apply list_elem_of_fmap. by exists (x, b).
Qed.

Lemma snd_unique {A B} (l : list (A * B)) a a' b :
  NoDup l.*2 -> (a, b) ∈ l -> (a', b) ∈ l -> a = a'.
Proof.
  induction l as [|[x y] l IH]; simpl; intros Hnd H1 H2; [by apply elem_of_nil in H1|].
  apply NoDup_cons in Hnd as [Hn Hnd].
  apply elem_of_cons in H1 as [H1|H1]; apply elem_of_cons in H2 as [H2|H2];
    simplify_eq; eauto.
  - exfalso. apply Hn. apply list_elem_of_fmap. by exists (a', y).
  - exfalso. apply Hn. apply list_elem_of_fmap. by exists (a, y).
Qed.

Lemma pigeonhole (l : list nat) n :
  NoDup l -> (forall x, x ∈ l -> (x < n)%nat) -> (length l <= n)%nat.
Proof.
  intros Hnd Hlt.
  assert (length l <= length (seq 0 n))%nat as H; [|by rewrite length_seq in H].
  apply submseteq_length. apply NoDup_submseteq; [done|].
  intros x Hx. apply elem_of_seq. specialize (Hlt x Hx). lia.
Qed.

Lemma pigeonhole_full (l : list nat) n i :
  NoDup l -> (forall x, x ∈ l -> (x < n)%nat) -> length l = n -> (i < n)%nat -> i ∈ l.
Proof.
  intros Hnd Hlt Hlen Hi.
  assert (l ⊆+ seq 0 n) as Hsub.
  { apply NoDup_submseteq; [done|]. intros x Hx. apply elem_of_seq.
    specialize (Hlt x Hx). lia. }
  apply submseteq_length_Permutation in Hsub; [|rewrite length_seq; lia].
  rewrite Hsub. apply elem_of_seq. lia.
Qed.

Lemma WaInvC_dec_lt n w i :
  length (wa_inputs w) = n -> WaInvC n w ->
  i ∈ (wa_decs (wa_trace w)).*1 -> (i < n)%nat.
Proof.
  intros Hlen C Hi. apply list_elem_of_fmap in Hi as ([j old] & -> & Hin).
  destruct (wc_d2 _ _ C _ _ Hin) as [[o Ho] _]. simpl.
  apply lookup_lt_Some in Ho. lia.
Qed.

Lemma wa_reachable_c form ins w :
  ins <> [] -> Z.of_nat (length ins) < 2 ^ 64 ->
  wa_reachable (wa_init form ins) w -> WaInvC (length ins) w.
Proof.
  intros Hne Hsz. revert w. apply wa_reachable_ind.
  { constructor; simpl; try done.
    all: try (by constructor).
    all: try (intros ? ? Hin; by apply elem_of_nil in Hin).
    all: try (intros ? Hin; by apply elem_of_nil in Hin).
    - intros i old Hl. by apply lookup_replicate in Hl as [? _].
    - intros i Hl. by apply lookup_replicate in Hl as [? _]. }
  intros w a w' Hr IH Hs.
  pose proof (wa_reachable_b _ _ _ Hne Hr) as B.
  destruct (wa_reachable_a _ _ Hr) as (_ & Hlen & _). simpl in Hlen.
  pose proof (fun i => WaInvC_dec_lt _ _ i Hlen IH) as Hlt.
  destruct (wa_step_a _ _ _ Hs) as (_ & _ & _ & Hres).
  assert (wa_inputs w <> []) as Hne' by (intros E; rewrite E in Hlen; by destruct ins).
  destruct IH as [C1 C2 C3 C4 C5 C6 C7 C8 C9 C10 C11].
  destruct B as [B1 B2 B3 _ _ _ _].
  assert (forall i c, wa_conts w !! i = Some c -> c <> CNotInstalled ->
                      pre_store (wa_main w) = false) as Hc.
  { intros i c Hl Hc. destruct (pre_store (wa_main w)) eqn:E; [|done].
    destruct (B1 eq_refl) as (F & _). by eapply all_not_installed in F. }
  wa_cases Hs.
  all: try match goal with
         | H : wa_conts _ !! _ = Some CInstalled |- _ => pose proof (Hc _ _ H ltac:(done))
         | H : wa_conts _ !! _ = Some (CTest _) |- _ => pose proof (Hc _ _ H ltac:(done))
         end.
  all: try match goal with
         | H : true = true -> _ |- _ =>
             destruct (H eq_refl) as (F1 & F2 & F3 & F4 & F5 & F6 & F7)
         end.
  1-7,13-16: constructor; simpl; try done; intros.
  all: try congruence.
  all: repeat match goal with
         | H : <[_:=_]> (wa_conts _) !! _ = Some _ |- _ =>
             apply conts_insert_lookup in H as [[-> ?]|[? H]]; simplify_eq
         end.
  all: try (by eauto).
  - (* make_shared *)
    rewrite F4, Hlen. simpl. unfold wrap_u64. rewrite Z.mod_small; lia.
  - (* an installation *)
    match goal with H : (_, _) ∈ wa_decs _ |- _ =>
      destruct (C5 _ _ H) as [Hr' Hd] end.
    split; [done|].
    assert (i <> n) as Hin by (intros ->; destruct Hd as [[? _]|[? _]]; congruence).
    rewrite list_lookup_insert_ne by done. done.
  - (* an input is resolved *)
    match goal with H : (_, _) ∈ wa_decs _ |- _ =>
      destruct (C5 _ _ H) as [Hr' Hd] end.
    split; [by apply Hres|done].
  - (* a continuation decrements the counter *)
    match goal with H : wa_conts w !! i = Some CInstalled |- _ => rename H into Hci end.
    match goal with H : wa_inputs w !! i = Some (Some _) |- _ => rename H into Hi end.
    assert (wa_allocated w = true) as Hal.
    { apply C2; intros E; rewrite E in *; done. }
    specialize (C1 Hal).
    assert (i ∉ (wa_decs (wa_trace w)).*1) as Hnin.
    { intros Hin. apply list_elem_of_fmap in Hin as ([j old] & -> & Hin).
      destruct (C5 _ _ Hin) as [_ [[? _]|[? _]]]; simpl in *; congruence. }
    assert (S (length (wa_decs (wa_trace w))) <= length ins)%nat as Hle.
    { rewrite <- (length_fmap fst).
      apply (pigeonhole (i :: (wa_decs (wa_trace w)).*1)); [by constructor|].
      intros x Hx. apply elem_of_cons in Hx as [->|Hx]; [|by apply Hlt].
      apply lookup_lt_Some in Hi. lia. }
    assert (forall j, j ∈ wa_fires (wa_trace w) -> j <> i) as Hfi.
    { intros j Hj ->. apply Hnin. apply list_elem_of_fmap. exists (i, 1).
      split; [done|]. by apply C10. }
    constructor; simpl; try done; intros.
    + rewrite C1. unfold wrap_u64. rewrite Z.mod_small; lia.
    + by constructor.
    + match goal with H : _ ∈ _ :: _ |- _ => apply elem_of_cons in H as [H|H] end.
      * simplify_eq. split; [by eexists|]. left.
        rewrite list_lookup_insert_eq by (by eapply lookup_lt_Some).
        split; [done|]. intros Hf. by eapply Hfi.
      * destruct (C5 _ _ H) as [Hr' Hd]. split; [done|].
        assert (i0 <> i) as Hne0.
        { intros ->. apply Hnin. apply list_elem_of_fmap. by exists (i, old). }
        by rewrite list_lookup_insert_ne.
    + match goal with H : <[_:=_]> _ !! _ = Some _ |- _ =>
        apply conts_insert_lookup in H as [[-> ?]|[? H]]; simplify_eq end.
      * left.
      * right. by apply C6.
    + match goal with H : <[_:=_]> _ !! _ = Some _ |- _ =>
        apply conts_insert_lookup in H as [[-> ?]|[? H]]; simplify_eq end.
      right. by apply C7.
    + f_equal; [exact C1|exact C8].
    + right. by apply C10.
  - (* the empty function would be invoked: impossible *)
    exfalso.
    match goal with H : wa_conts w !! i = Some (CTest _) |- _ => rename H into Hct end.
    pose proof (C6 _ _ Hct) as Hin.
    destruct (C5 _ _ Hin) as [_ [[_ Hnf]|[? _]]]; [|congruence].
    subst old.
    assert (wa_fires (wa_trace w) = []) as Hf.
    { destruct (wa_fires (wa_trace w)) as [|j rest]; [done|].
      exfalso. apply Hnf.
      assert ((j, 1) ∈ wa_decs (wa_trace w)) as Hj1 by (apply C10; left).
      assert (i = j) as -> by (eapply snd_unique; eauto; rewrite C8; apply olds_nodup).
      left. }
    specialize (C3 ltac:(done) Hf). congruence.
  - (* the last continuation fires f, which starts the output *)
    match goal with H : wa_conts w !! i = Some (CTest _) |- _ => rename H into Hct end.
    subst old.
    pose proof (C6 _ _ Hct) as Hin.
    destruct (C5 _ _ Hin) as [_ [[_ Hnf]|[? _]]]; [|congruence].
    constructor; simpl; try done; intros.
    + match goal with H : (_, _) ∈ wa_decs _ |- _ =>
        destruct (C5 _ _ H) as [Hr' Hd]; rename H into Hin' end.
      split; [done|]. destruct (decide (i0 = i)) as [->|Hne0].
      * right. rewrite list_lookup_insert_eq by (by eapply lookup_lt_Some).
        split; [done|]. intros _. left.
      * rewrite list_lookup_insert_ne by done.
        destruct Hd as [[? ?]|[? ?]]; [left|right]; split; try done.
        -- rewrite not_elem_of_cons. done.
        -- intros. right. eauto.
    + match goal with H : <[_:=_]> _ !! _ = Some _ |- _ =>
        apply conts_insert_lookup in H as [[-> ?]|[? H]]; simplify_eq end.
      by apply C6.
    + match goal with H : <[_:=_]> _ !! _ = Some _ |- _ =>
        apply conts_insert_lookup in H as [[-> ?]|[? H]]; simplify_eq end.
      * apply list_elem_of_fmap. by exists (i, 1).
      * by apply C7.
    + by constructor.
    + match goal with H : _ ∈ _ :: _ |- _ => apply elem_of_cons in H as [->|H] end;
        [done|by apply C10].
  - (* the last continuation fires f, the output was started already *)
    match goal with H : wa_conts w !! i = Some (CTest _) |- _ => rename H into Hct end.
    subst old.
    pose proof (C6 _ _ Hct) as Hin.
    destruct (C5 _ _ Hin) as [_ [[_ Hnf]|[? _]]]; [|congruence].
    constructor; simpl; try done; intros.
    + match goal with H : (_, _) ∈ wa_decs _ |- _ =>
        destruct (C5 _ _ H) as [Hr' Hd]; rename H into Hin' end.
      split; [done|]. destruct (decide (i0 = i)) as [->|Hne0].
      * right. rewrite list_lookup_insert_eq by (by eapply lookup_lt_Some).
        split; [done|]. intros _. left.
      * rewrite list_lookup_insert_ne by done.
        destruct Hd as [[? ?]|[? ?]]; [left|right]; split; try done.
        -- rewrite not_elem_of_cons. done.
        -- intros. right. eauto.
    + match goal with H : <[_:=_]> _ !! _ = Some _ |- _ =>
        apply conts_insert_lookup in H as [[-> ?]|[? H]]; simplify_eq end.
      by apply C6.
    + match goal with H : <[_:=_]> _ !! _ = Some _ |- _ =>
        apply conts_insert_lookup in H as [[-> ?]|[? H]]; simplify_eq end.
      * apply list_elem_of_fmap. by exists (i, 1).
      * by apply C7.
    + by constructor.
    + match goal with H : _ ∈ _ :: _ |- _ => apply elem_of_cons in H as [->|H] end;
        [done|by apply C10].
  - (* a continuation that was not the last one finishes *)
    match goal with H : wa_conts w !! i = Some (CTest _) |- _ => rename H into Hct end.
    pose proof (C6 _ _ Hct) as Hin.
    constructor; simpl; try done; intros.
    + match goal with H : (_, _) ∈ wa_decs _ |- _ =>
        destruct (C5 _ _ H) as [Hr' Hd]; rename H into Hin' end.
      split; [done|]. destruct (decide (i0 = i)) as [->|Hne0].
      * right. rewrite list_lookup_insert_eq by (by eapply lookup_lt_Some).
        split; [done|]. intros ->.
        assert (old = 1) by (eapply fst_unique; eauto). done.
      * by rewrite list_lookup_insert_ne.
    + match goal with H : <[_:=_]> _ !! _ = Some _ |- _ =>
        apply conts_insert_lookup in H as [[-> ?]|[? H]]; simplify_eq end.
      by apply C6.
    + match goal with H : <[_:=_]> _ !! _ = Some _ |- _ =>
        apply conts_insert_lookup in H as [[-> ?]|[? H]]; simplify_eq end.
      * apply list_elem_of_fmap. by exists (i, old).
      * by apply C7.
Qed.

Lemma ForEachApply_all k : ForEachApply k (fun _ => true) = reverse (seq 0 (S k)).
Proof.
  induction k as [|k IH]; [done|].
  cbn [ForEachApply]. rewrite IH. rewrite (seq_S (S k)). rewrite reverse_app. done.
Qed.

Lemma visit_order_elem form n i :
  (0 < n)%nat -> (i < n)%nat -> i ∈ visit_order form n.
Proof.
  intros Hn Hi. destruct form; simpl.
  - apply elem_of_seq. lia.
  - unfold forEach. rewrite ForEachApply_all. rewrite elem_of_reverse.
    apply elem_of_seq. lia.
Qed.

Lemma visit_order_perm form n : (0 < n)%nat -> visit_order form n ≡ₚ seq 0 n.
Proof.
  intros Hn. destruct form; simpl; [done|].
  unfold forEach. rewrite ForEachApply_all. rewrite reverse_Permutation.
  by replace (S (n - 1)) with n by lia.
Qed.

Lemma wa_reachable_d form ins w :
  ins <> [] -> Z.of_nat (length ins) < 2 ^ 64 ->
  wa_reachable (wa_init form ins) w -> WaInvD (length ins) w.
Proof.
  intros Hne Hsz. revert w. apply wa_reachable_ind.
  { constructor; simpl; try done. }
  intros w a w' Hr IH Hs.
  pose proof (wa_reachable_b _ _ _ Hne Hr) as B.
  pose proof (wa_reachable_c _ _ _ Hne Hsz Hr) as C.
  destruct (wa_reachable_a _ _ Hr) as (_ & Hlen & _). simpl in Hlen.
  assert (0 < length ins)%nat as Hpos by (destruct ins; [done|simpl; lia]).
  destruct (wa_step_a _ _ _ Hs) as (_ & _ & _ & Hres).
  assert (wa_inputs w <> []) as Hne' by (intros E; rewrite E in Hlen; by destruct ins).
  destruct IH as [D1 D2].
  wa_cases Hs.
  all: constructor; simpl; try done; intros.
  all: try (by eauto).
  all: try (left; split; [done|]; rewrite Hlen; by apply visit_order_elem).
  all: try (rewrite D2; repeat case_bool_decide; congruence).
  all: try match goal with
         | H : wa_out_status _ = kNotStarted |- _ => rewrite H in *
         end.
  all: try done.
  - destruct (D1 _ H0 H2) as [[? ?]|?]; [congruence|right; by apply Hres].
  - destruct (D1 _ H0 H2) as [[? ?]|?]; [by left|right; by apply Hres].
  - right. destruct (D1 i ltac:(done) ltac:(done)) as [[_ Hin]|?]; [|done].
    by apply elem_of_nil in Hin.
  - rewrite D2. unfold runToResult. simpl. by rewrite Hlen.
  - (* the producer sees the counter at zero and stops waiting *)
    right.
    assert (wa_allocated w = true) as Hal.
    { apply (wc_alloc _ _ C); intros E;
        destruct (wb_pre _ B) as (_ & _ & _ & _ & _ & _ & ?);
        [by rewrite E| congruence | by rewrite E | congruence]. }
    pose proof (wc_cnt _ _ C Hal) as Hc.
    assert (i ∈ (wa_decs (wa_trace w)).*1) as Hin.
    { apply (pigeonhole_full _ (length ins)); [apply (wc_d1 _ _ C)| |rewrite length_fmap; lia|done].
      intros x Hx. by eapply WaInvC_dec_lt. }
    apply list_elem_of_fmap in Hin as ([j old] & -> & Hin).
    by destruct (wc_d2 _ _ C _ _ Hin) as [? _].
  - destruct (D1 i ltac:(done) ltac:(done)) as [[_ Hin]|?]; [|by right].
    apply elem_of_cons in Hin as [->|Hin]; [right; by eexists|by left].
Qed.

Lemma wa_relabel_step (g : Result + Exn -> Result + Exn) a w :
  wa_step (act_relabel g a) (wa_relabel g w) = wa_relabel g <$> wa_step a w.
Proof.
  destruct w as [fm ins m al c f sv cs os wk om tr].
  destruct a; unfold wa_step, wa_relabel, wa_run_output; simpl;
    rewrite ?length_map.
  - destruct m as [| | | |[|]|]; simpl; try done.
    + by destruct ins.
    + by repeat case_match.
  - rewrite list_lookup_fmap. destruct (ins !! i) as [[|]|] eqn:E; simpl; try done.
    unfold wa_log, wa_set_inputs; simpl. do 2 f_equal.
    by rewrite (list_fmap_insert (option_map g)).
  - rewrite list_lookup_fmap. destruct (cs !! i) as [[| | |]|]; try done.
    by destruct (ins !! i) as [[|]|].
  - destruct (cs !! i) as [[| | |]|]; try done.
    repeat case_match; simpl; rewrite ?length_map; done.
  - destruct m; try done. repeat case_match; simpl; rewrite ?length_map; done.
  - destruct os; try done. destruct wk; simpl; [done|].
    case_bool_decide; [done|]. rewrite list_lookup_fmap.
    by destruct (ins !! n) as [[|]|].
Qed.

Lemma wa_relabel_exec (g : Result + Exn -> Result + Exn) acts w :
  wa_exec (act_relabel g <$> acts) (wa_relabel g w) = wa_relabel g <$> wa_exec acts w.
Proof.
  revert w. induction acts as [|a acts IH]; intros w; [done|].
  cbn [fmap list_fmap wa_exec]. rewrite wa_relabel_step.
  destruct (wa_step a w); simpl; [apply IH|done].
Qed.


End WhenAllProofs.

(** * The claims *)

Section CoreClaims.
Context {Result Exn : Type}.
Implicit Types (w : World Result Exn) (σ : Shared Result Exn).

(** C1. In every world reachable from an initial one the producer has been
    invoked at most once and the exchange kNotStarted -> kRunning has
    succeeded at most once; whoever invoked the producer is the thread that
    won the exchange, and did so afterwards.  A thread that calls run() on a
    core that is not kNotStarted any more only decrements the reference
    count (and deallocates when it held the last reference): alone it does
    so in four steps, and under any interleaving its own actions are never
    anything else, while the status stays started. *)
Theorem producer_invoked_at_most_once w0 w :
  initial w0 -> reachable w0 w ->
  (length (runners (trace (shared w))) <= 1)%nat /\
  (length (winners (trace (shared w))) <= 1)%nat /\
  (forall t, t ∈ runners (trace (shared w)) ->
     t ∈ winners (trace (shared w)) /\
     precedes (EvCasRunning t) (EvRunFunc t) (trace (shared w))) /\
  (forall t, pool w !! t = Some run_146 -> status (shared w) <> kNotStarted ->
     (forall l1 l2 l3 l4,
        exec [(t, l1); (t, l2); (t, l3); (t, l4)] w =
          Some {| shared := log (EvDecRef t)
                     (on_core (fun c => (decRefCountMaybeDestroy c).1) (shared w));
                  pool := <[t := if (decRefCountMaybeDestroy (core (shared w))).2
                                 then dealloc_179 else Done RetVoid]> (pool w) |}) /\
     (forall w', reachable w w' ->
        status (shared w') <> kNotStarted /\
        exists pc X,
          pool w' !! t = Some pc /\
          own_events t (trace (shared w')) = X ++ own_events t (trace (shared w)) /\
          noop_run_events t pc X)).
Proof.
  intros Hi Hr. pose proof (InvRun_reachable _ _ Hi Hr) as I.
  split_and!.
  - apply (ir_run_le _ I).
  - apply (ir_win_le _ I).
  - intros t Ht. split; [|apply (ir_prec_run _ I)].
    apply elem_of_winners. eapply precedes_elem; [apply (ir_prec_run _ I)|].
    by apply elem_of_runners.
  - intros t Hpc Hst. split.
    + intros. by apply run_noop_solo.
    + intros w' Hr'. by apply run_noop_interleaved.
Qed.

(** C2 (amended). wait() on a core that is kReady returns at once; on a core
    that is kNotStarted it runs the producer on the calling thread, whatever
    allowInline_ says; on a core that is kRunning it blocks in
    status_.wait(kReady), from which it returns exactly when the status is
    kReady.  It is the timed waits that look at allowInline_: with
    allowInline_ false they go to the timed block without calling run. *)
Theorem wait_runs_inline_whatever_allowInline w t l :
  pool w !! t = Some wait_151 ->
  (status (shared w) = kReady ->
     exec [(t, l)] w =
       Some {| shared := shared w; pool := <[t := Done RetVoid]> (pool w) |}) /\
  (status (shared w) = kNotStarted -> spurious l = false ->
     exec (replicate 5 (t, l)) w =
       Some {| shared := produce t (shared w);
               pool := <[t := drain_215 (DrainFromRun FromWait)]> (pool w) |}) /\
  (status (shared w) = kRunning ->
     exec [(t, l); (t, l)] w =
       Some {| shared := shared w; pool := <[t := wait_154]> (pool w) |} /\
     world_step (t, l) {| shared := shared w; pool := <[t := wait_154]> (pool w) |} = None) /\
  (forall σ, thread_step t l σ wait_154 =
     if bool_decide (status σ = kReady) then Some (σ, Done RetVoid) else None) /\
  (forall σ, status σ <> kReady -> allowInline_ (core σ) = false ->
     thread_step t l σ waitFor_159 = Some (σ, waitFor_block)).
Proof.
  intros Hpc. split_and!.
  - intros. by apply wait_ready_solo.
  - intros. by apply wait_inline_solo.
  - intros. by apply wait_running_solo.
  - done.
  - intros σ Hs Ha. simpl. rewrite bool_decide_eq_false_2 by done. by rewrite Ha.
Qed.

(** C3. An installer that finds the core kReady at its first status load
    invokes its own functor on its own thread and returns: alone it does so
    in two steps, which leave the chain head and the buffers as they were;
    under any interleaving its own actions are never anything but that one
    invocation, so it allocates no buffer and inserts no node. *)
Theorem ready_install_runs_on_installer w t fn :
  pool w !! t = Some (add_256 fn) -> status (shared w) = kReady ->
  (forall l1 l2,
     exec [(t, l1); (t, l2)] w =
       Some {| shared := log (EvFunctor t None (with_next fn None)
                                (has_policy (asyncPolicy fn) launch_async)) (shared w);
               pool := <[t := Done RetVoid]> (pool w) |}) /\
  (forall w', reachable w w' ->
     status (shared w') = kReady /\
     exists pc X,
       pool w' !! t = Some pc /\
       own_events t (trace (shared w')) = X ++ own_events t (trace (shared w)) /\
       ready_install_events t fn pc X).
Proof.
  intros Hpc Hst. split.
  - intros. by apply ready_install_solo.
  - intros w' Hr. by apply ready_install_interleaved.
Qed.


(** C6. On a core whose producer throws, the result slot is never written
    and no exception is stored before the producer has run; once the core is
    kReady the thrown exception is the stored one, and result() rethrows it
    in this and in every later world: it never returns a value.  A producer
    that throws leaves the slot of the member as it was, in the value, the
    reference and the void variant alike. *)
Theorem producer_failure_is_captured w0 w f e :
  initial w0 -> status (shared w0) = kNotStarted ->
  func_ (core (shared w0)) = Some f -> f tt = inr e ->
  member (core (shared w0)) = {| resultBuf_ := None; exception_ := None |} ->
  reachable w0 w ->
  resultBuf_ (member (core (shared w))) = None /\
  (runners (trace (shared w)) = [] -> exception_ (member (core (shared w))) = None) /\
  (status (shared w) = kReady ->
     forall w', reachable w w' ->
       exception_ (member (core (shared w'))) = Some e /\
       resultBuf_ (member (core (shared w'))) = None /\
       result (member (core (shared w'))) = Throws e /\
       destroys_result (member (core (shared w'))) = false) /\
  (forall m, resultBuf_ (runToResult f m) = resultBuf_ m /\
             result (runToResult f m) = Throws e) /\
  (forall (g : unit -> addr + Exn) (h : unit -> unit + Exn) m1 m2,
     g tt = inr e -> h tt = inr e ->
     result_ (runToResult_ref g m1) = result_ m1 /\
     result_ref (runToResult_ref g m1) = Throws e /\
     result_void (runToResult_void h m2) = Throws e).
Proof.
  intros Hi H0 Hf He Hm Hr.
  assert (forall w1, reachable w0 w1 ->
            member (core (shared w1)) =
              match runners (trace (shared w1)) with
              | _ :: _ => {| resultBuf_ := None; exception_ := Some e |}
              | [] => {| resultBuf_ := None; exception_ := None |}
              end) as Hmem.
  { intros w1 Hr1.
    destruct (aux_reachable _ _ Hi Hr1) as (_ & _ & _ & _ & _ & _ & ->).
    unfold member_after. rewrite member_runFunc, Hf, Hm.
    unfold runToResult. rewrite He. done. }
  split_and!.
  - rewrite (Hmem _ Hr). by destruct (runners _).
  - intros E. rewrite (Hmem _ Hr), E. done.
  - intros Hrd w' Hr'.
    pose proof (reachable_trans _ _ _ Hr Hr') as Hr0.
    pose proof (reachable_ready _ _ Hr' Hrd) as Hrd'.
    pose proof (ready_has_runner _ _ Hi H0 Hr0 Hrd') as Hrun.
    rewrite (Hmem _ Hr0). by destruct (runners (trace (shared w'))).
  - intros m. unfold runToResult, result. rewrite He. done.
  - intros g h m1 m2 Hg Hh.
    unfold runToResult_ref, runToResult_void, result_ref, result_void.
    rewrite Hg, Hh. done.
Qed.

(** C9. For the futures attached to a task set, each with its own core:
    the counter is decremented at most once per core, never when the core
    holds no counter, and only after the core's kReady notification, so a
    decrement that happened finds the core kReady; once the producer's
    thread has left the section of run(int) that holds the decrement, the
    decrement has happened exactly once, and the counter of the task set is
    its initial value minus one.  Hence when as many decrements have
    happened as there are futures, every one of them is ready. *)
Theorem taskset_decrement_once_after_ready (ws : list (World Result Exn * World Result Exn)) :
  Forall (fun x => initial x.1 /\ reachable x.1 x.2) ws ->
  Forall (fun x =>
    (length (decrementers (trace (shared x.2))) <= 1)%nat /\
    (taskSetCounter_ (core (shared x.2)) = None ->
       decrementers (trace (shared x.2)) = []) /\
    (forall t, precedes (EvNotify t) (EvTaskSetDec t) (trace (shared x.2))) /\
    (decrementers (trace (shared x.2)) <> [] -> status (shared x.2) = kReady) /\
    counters (shared x.2) = counters_after x.1 x.2 /\
    (forall t pc, t ∈ winners (trace (shared x.2)) -> pool x.2 !! t = Some pc ->
       in_run_section pc = false -> is_Some (taskSetCounter_ (core (shared x.2))) ->
       decrementers (trace (shared x.2)) = [t])) ws /\
  (sum_list (map (fun x => length (decrementers (trace (shared x.2)))) ws) = length ws ->
   Forall (fun x => ready (core (shared x.2)) = true) ws).
Proof.
  intros Hall. split; [|by apply all_ready_when_drained].
  eapply Forall_impl; [exact Hall|]. intros [w0 w] [Hi Hr]. simpl in *.
  pose proof (InvRun_reachable _ _ Hi Hr) as I.
  destruct (aux_reachable _ _ Hi Hr) as (_ & _ & _ & _ & Hc & _).
  split_and!.
  - apply (ir_dec_le _ I).
  - apply (ir_tsc _ I).
  - apply (ir_prec_dec _ I).
  - apply (ir_dec_ready _ I).
  - done.
  - intros t pc Hw Hpc Hs Htsc.
    destruct (ir_done _ I _ _ Hw Hpc Hs) as (_ & _ & _ & Hd). specialize (Hd Htsc).
    pose proof (ir_dec_le _ I) as Hle.
    destruct (decrementers (trace (shared w))) as [|t' [|]]; simpl in Hle; try lia.
    + by apply elem_of_nil in Hd.
    + apply list_elem_of_singleton in Hd. by subst.
Qed.

End CoreClaims.

Section SequentialClaims.
Context {Result Exn : Type}.

(** C8. createValueFutureImplReady makes a core that is ready at once, with
    reference count 1, whose result() returns the given value; on the way
    there the value is written while the status is still kNotStarted, the
    status is stored next and the reference count last.  A wait() on that
    core returns in its first step, and is_ready() of a handle on it is
    true. *)
Theorem make_ready_future_is_ready (sizeofSmallT kImplSize : nat) (indeterminate : bool)
    (v : Result) :
  let c := @createValueFutureImplReady Result Exn sizeofSmallT kImplSize indeterminate v in
  ready c = true /\ status_ c = kReady /\ refCount_ c = 1 /\
  result (member c) = Returns v /\
  (exists c0 c1 c2,
     createValueFutureImplReady_steps sizeofSmallT kImplSize indeterminate v
       = [c0; c1; c2; c] /\
     status_ c0 = kNotStarted /\ refCount_ c0 = 2 /\ result (member c0) = Uninitialised /\
     status_ c1 = kNotStarted /\ result (member c1) = Returns v /\
     status_ c2 = kReady /\ refCount_ c2 = 2 /\ member c2 = member c1) /\
  (forall t l (σ : Shared Result Exn), core σ = c ->
     thread_step t l σ wait_151 = Some (σ, Done RetVoid)) /\
  (forall p (st : gmap nat (FutureImplBase Result Exn)),
     is_ready {| impl_ := Some p |} (<[p := c]> st) = Some true).
Proof.
  intros c. split_and!; try done.
  - by eexists _, _, _.
  - intros t l σ Hc. simpl. unfold status. by rewrite Hc.
  - intros p st. unfold is_ready. simpl. by rewrite lookup_insert_eq.
Qed.

(** C10 (amended). Copying from a null handle never fails where the
    destination is null or its core alive, and leaves the destination
    invalid.  The copy constructor leaves every core as it was.  Copy
    assignment onto a null destination does so too; onto a destination that
    holds a core it releases that core once (deallocating it when this was
    the last reference) and leaves every other core as it was.  Destroying
    an invalid handle leaves every core as it was; default-constructed and
    moved-from handles are invalid. *)
Theorem null_handle_copy_is_total (this f : FutureBase)
    (st : gmap nat (FutureImplBase Result Exn)) :
  impl_ f = None ->
  FutureBase_copy f st = Some ({| impl_ := None |}, st) /\
  (impl_ this = None -> copy this f st = Some (this, st)) /\
  (forall p c, impl_ this = Some p -> st !! p = Some c ->
     exists st', copy this f st = Some ({| impl_ := None |}, st') /\
       st' !! p = (if bool_decide (refCount_ c = 1) then None
                   else Some (set_refCount (wrap_u32 (refCount_ c - 1)) c)) /\
       forall q, q <> p -> st' !! q = st !! q) /\
  (forall dest st', copy this f st = Some (dest, st') -> valid dest = false) /\
  destroy {| impl_ := None |} st = Some st /\
  valid FutureBase_default = false /\
  (forall g, valid (FutureBase_move g).2 = false).
Proof.
  intros Hf. split_and!.
  - unfold FutureBase_copy. by rewrite Hf.
  - intros Ht. unfold copy. rewrite Ht, Hf. by rewrite bool_decide_eq_false_2 by naive_solver.
  - intros p c Ht Hp. unfold copy, deref_decRefCountMaybeDestroy, decRefCountMaybeDestroy.
    rewrite Ht, Hf, Hp. rewrite bool_decide_eq_true_2 by done.
    case_bool_decide; eexists; (split; [done|]); split.
    + by rewrite lookup_delete_eq.
    + intros q Hq. by rewrite lookup_delete_ne.
    + by rewrite lookup_insert_eq.
    + intros q Hq. by rewrite lookup_insert_ne.
  - intros dest st'. unfold copy. rewrite Hf.
    case_bool_decide as Hb.
    + destruct (impl_ this) as [p|]; [|naive_solver].
      destruct (deref_decRefCountMaybeDestroy p st); naive_solver.
    + intros [= <- <-]. unfold valid. destruct (impl_ this); [|done].
      naive_solver.

  - done.
  - done.
  - done.
Qed.

End SequentialClaims.

Section WhenAllClaims.
Context {Result Exn : Type}.
Implicit Types (w : WhenAllState Result Exn).




(** C7. when_all does not look at how an input completed: replacing
    every completion by another one (a value by a failure, say) leaves every
    step enabled and changes nothing but the inputs themselves, so the
    counter is decremented for failed inputs as for the others; the output
    future is not started before the thunk fired or a waiter ran it, it is
    ready only when every input is resolved, and its result is then the
    container of all the inputs, never a failure; a failed input shows its
    failure when its own result is asked for. *)
Theorem when_all_no_short_circuit (form : Form) (ins : list (option (Result + Exn))) w :
  ins <> [] -> Z.of_nat (length ins) < 2 ^ 64 ->
  wa_reachable (wa_init form ins) w ->
  (forall g acts,
     wa_exec (act_relabel g <$> acts) (wa_relabel g (wa_init form ins)) =
     wa_relabel g <$> wa_exec acts (wa_init form ins)) /\
  (forall i o, wa_conts w !! i = Some CInstalled -> wa_inputs w !! i = Some (Some o) ->
     exists w', wa_step (ADec i) w = Some w' /\
                wa_decs (wa_trace w') = (i, wa_count w) :: wa_decs (wa_trace w)) /\
  (wa_out_status w = kReady ->
     (forall i, (i < length ins)%nat -> resolved w i) /\
     result (wa_out_member w) = Returns (seq 0 (length ins))) /\
  (forall i e, wa_inputs w !! i = Some (Some (inr e)) ->
     result (@input_member Result Exn (inr e)) = Throws e).
Proof.
  intros Hne Hsz Hr.
  pose proof (wa_reachable_d _ _ _ Hne Hsz Hr) as D.
  split_and!.
  - intros g acts. apply wa_relabel_exec.
  - intros i o Hc Hi. unfold wa_step. rewrite Hc, Hi. by eexists.
  - intros Hrd. split.
    + intros i Hi. destruct (wd_walk _ _ D i Hi) as [[? _]|?]; [congruence|congruence|done].
    + rewrite (wd_member _ _ D). by rewrite bool_decide_eq_true_2.
  - done.
Qed.

End WhenAllClaims.

(** ** Instances *)

Lemma initial_example f allow threads :
  Forall (fun pc => is_entry pc = true) threads ->
  initial (Example.world f allow threads).
Proof. intros H. by repeat split. Qed.

Lemma reachable_after {Result Exn} sched (w0 : World Result Exn) :
  is_Some (exec sched w0) -> reachable w0 (after sched w0).
Proof. intros [w H]. exists sched. unfold after. by rewrite H. Qed.

Lemma wa_reachable_after {Result Exn} acts (w0 : WhenAllState Result Exn) :
  is_Some (wa_exec acts w0) -> wa_reachable w0 (wa_after acts w0).
Proof. intros [w H]. exists acts. unfold wa_after. by rewrite H. Qed.

Lemma producer_invoked_at_most_once_witness :
  initial Example.two_runners /\
  reachable Example.two_runners (after Example.run_to_end Example.two_runners) /\
  (length (runners (trace (shared (after Example.run_to_end Example.two_runners)))) <= 1)%nat.
Proof.
  assert (initial Example.two_runners) as Hi
    by (apply initial_example; repeat constructor).
  assert (reachable Example.two_runners (after Example.run_to_end Example.two_runners)) as Hr
    by (apply reachable_after; vm_compute; eauto).
  split; [exact Hi|]. split; [exact Hr|].
  exact (proj1 (producer_invoked_at_most_once _ _ Hi Hr)).
Defined.

(** C2, as stated: with allowInline_ false and the core kNotStarted, wait()
    would block.  It does not: the waiting thread runs the producer. *)
Lemma wait_runs_producer_with_allowInline_false :
  allowInline_ (core (shared Example.one_waiter)) = false /\
  status (shared Example.one_waiter) = kNotStarted /\
  pool Example.one_waiter !! 0%nat = Some wait_151 /\
  exec (Example.steps 0 5) Example.one_waiter
    = Some (after (Example.steps 0 5) Example.one_waiter) /\
  trace (shared (after (Example.steps 0 5) Example.one_waiter))
    = [EvTaskSetDec 0; EvNotify 0; EvRunFunc 0; EvCasRunning 0] /\
  result (member (core (shared (after (Example.steps 0 5) Example.one_waiter))))
    = Returns 7.
Proof. repeat split; vm_compute; reflexivity. Qed.

Lemma wait_runs_inline_whatever_allowInline_witness :
  pool Example.one_waiter !! 0%nat = Some wait_151 /\
  exec (replicate 5 (0%nat, Example.lbl 10)) Example.one_waiter =
    Some {| shared := produce 0 (shared Example.one_waiter);
            pool := <[0%nat := drain_215 (DrainFromRun FromWait)]>
                      (pool Example.one_waiter) |}.
Proof.
  split; [reflexivity|].
  apply (wait_runs_inline_whatever_allowInline Example.one_waiter 0%nat (Example.lbl 10)
           eq_refl); reflexivity.
Defined.

Lemma ready_install_runs_on_installer_witness :
  pool (after Example.run_to_end Example.runner_and_installers) !! 1%nat
    = Some (add_256 Example.k1) /\
  status (shared (after Example.run_to_end Example.runner_and_installers)) = kReady /\
  exec [(1%nat, Example.lbl 10); (1%nat, Example.lbl 11)]
       (after Example.run_to_end Example.runner_and_installers) =
    Some {| shared := log (EvFunctor 1 None (with_next Example.k1 None)
                             (has_policy (asyncPolicy Example.k1) launch_async))
                        (shared (after Example.run_to_end Example.runner_and_installers));
            pool := <[1%nat := Done RetVoid]>
                      (pool (after Example.run_to_end Example.runner_and_installers)) |}.
Proof.
  assert (pool (after Example.run_to_end Example.runner_and_installers) !! 1%nat
          = Some (add_256 Example.k1)) as Hpc by (vm_compute; reflexivity).
  assert (status (shared (after Example.run_to_end Example.runner_and_installers)) = kReady)
    as Hst by (vm_compute; reflexivity).
  split; [exact Hpc|]. split; [exact Hst|].
  exact (proj1 (ready_install_runs_on_installer _ _ _ Hpc Hst) _ _).
Defined.



Lemma producer_failure_is_captured_witness :
  initial Example.failing_runner /\
  reachable Example.failing_runner (after Example.run_to_end Example.failing_runner) /\
  result (member (core (shared (after Example.run_to_end Example.failing_runner))))
    = Throws 3%nat.
Proof.
  assert (initial Example.failing_runner) as Hi
    by (apply initial_example; repeat constructor).
  assert (reachable Example.failing_runner
            (after Example.run_to_end Example.failing_runner)) as Hr
    by (apply reachable_after; vm_compute; eauto).
  split; [exact Hi|]. split; [exact Hr|].
  destruct (producer_failure_is_captured _ _ Example.throws3 3%nat Hi eq_refl eq_refl
              eq_refl eq_refl Hr) as (_ & _ & H & _).
  assert (status (shared (after Example.run_to_end Example.failing_runner)) = kReady)
    as Hrd by (vm_compute; reflexivity).
  destruct (H Hrd _ (reachable_refl _)) as (_ & _ & H' & _).
  exact H'.
Defined.

Lemma taskset_decrement_once_after_ready_witness :
  Forall (fun x : World Z nat * World Z nat => ready (core (shared x.2)) = true)
    [(Example.two_runners, after Example.run_to_end Example.two_runners)].
Proof.
  apply taskset_decrement_once_after_ready.
  - constructor; [|constructor]. split.
    + apply initial_example; repeat constructor.
    + apply reachable_after; vm_compute; eauto.
  - vm_compute. reflexivity.
Defined.

(** C10, as stated: copy-assigning a null handle touches no reference
    count.  It does: the destination's core loses one reference, and is
    deallocated when that was the last one. *)
Lemma copy_assign_null_releases_destination :
  refCount_at 1 (Example.store1 2) = Some 2 /\
  (copy {| impl_ := Some 1%nat |} {| impl_ := None |} (Example.store1 2)
     ≫= fun r => refCount_at 1 r.2) = Some 1 /\
  (copy {| impl_ := Some 1%nat |} {| impl_ := None |} (Example.store1 1)
     ≫= fun r => Some (r.2 !! 1%nat)) = Some None.
Proof. repeat split; vm_compute; reflexivity. Qed.

Lemma null_handle_copy_is_total_witness :
  FutureBase_copy {| impl_ := None |} (Example.store1 2)
    = Some ({| impl_ := None |}, Example.store1 2).
Proof.
  exact (proj1 (null_handle_copy_is_total {| impl_ := Some 1%nat |} {| impl_ := None |}
                  (Example.store1 2) eq_refl)).
Defined.


Lemma when_all_no_short_circuit_witness :
  Example.two_inputs <> [] /\
  wa_reachable (wa_init TupleForm Example.two_inputs)
    (wa_after Example.fan_in (wa_init TupleForm Example.two_inputs)) /\
  result (wa_out_member (wa_after Example.fan_in (wa_init TupleForm Example.two_inputs)))
    = Returns [0%nat; 1%nat].
Proof.
  assert (Example.two_inputs <> []) as Hne by discriminate.
  assert (wa_reachable (wa_init TupleForm Example.two_inputs)
            (wa_after Example.fan_in (wa_init TupleForm Example.two_inputs))) as Hr
    by (apply wa_reachable_after; vm_compute; eauto).
  split; [exact Hne|]. split; [exact Hr|].
  destruct (when_all_no_short_circuit TupleForm Example.two_inputs _ Hne
              ltac:(vm_compute; reflexivity) Hr) as (_ & _ & H & _).
  assert (wa_out_status (wa_after Example.fan_in (wa_init TupleForm Example.two_inputs))
          = kReady) as Hrd by (vm_compute; reflexivity).
  exact (proj2 (H Hrd)).
Defined.

(** * Further properties of the code *)

Section CoreExtras.
Context {Result Exn : Type}.
Implicit Types (w : World Result Exn) (σ : Shared Result Exn).

Lemma thread_step_notifiers t l σ pc σ' pc' :
  thread_step t l σ pc = Some (σ', pc') ->
  (notifiers (trace σ') = notifiers (trace σ) /\
   (status σ' = status σ \/ (status σ = kNotStarted /\ status σ' = kRunning))) \/
  (notifiers (trace σ') = t :: notifiers (trace σ) /\ status σ' = kReady /\
   exists c, pc = run_201 c).
Proof.
  intros H. step_cases H; unfold status in *; simpl; rewrite ?status_runFunc; eauto 10.
  subst s. left. split; [done|]. right. by rewrite H.
Qed.

Lemma notified_ready w0 w :
  initial w0 -> reachable w0 w ->
  notifiers (trace (shared w)) <> [] -> status (shared w) = kReady.
Proof.
  intros (Htr & _). revert w.
  apply (reachable_ind w0 (fun w => notifiers (trace (shared w)) <> [] ->
                                    status (shared w) = kReady)).
  { by rewrite Htr. }
  intros w t l pc σ pc' Hr IH Hpc Hstep Hn. simpl in *.
  destruct (thread_step_notifiers _ _ _ _ _ _ Hstep) as [[E Hs]|(_ & ? & _)]; [|done].
  rewrite E in Hn. specialize (IH Hn).
  eapply thread_step_ready; eauto.
Qed.

(** The status only moves forward through the values of [enum Status],
    whatever the threads do. *)
Theorem status_never_goes_back w w' :
  reachable w w' ->
  Status_to_int (status (shared w)) <= Status_to_int (status (shared w')).
Proof.
  revert w'. apply reachable_ind; [lia|].
  intros w1 t l pc σ pc' Hr IH Hpc Hstep. simpl.
  destruct (thread_step_status _ _ _ _ _ _ Hstep) as [E|[(E1 & E2 & _)|(_ & E2)]].
  - by rewrite E.
  - rewrite E2. rewrite E1 in IH. simpl in *. lia.
  - rewrite E2. destruct (status (shared w1)), (status (shared w)); simpl in *; lia.
Qed.

Lemma notifiers_le_one w0 w :
  initial w0 -> reachable w0 w -> (length (notifiers (trace (shared w))) <= 1)%nat.
Proof.
  intros Hi. pose proof Hi as (Htr & _). revert w.
  apply reachable_ind; [by rewrite Htr; simpl; lia|].
  intros w t l pc σ pc' Hr IH Hpc Hstep. simpl in *.
  destruct (thread_step_notifiers _ _ _ _ _ _ Hstep) as [[E _]|(E & _ & c & ->)];
    rewrite E; [done|].
  pose proof (running_reachable _ _ Hi Hr _ _ Hpc (ex_intro _ c (or_intror eq_refl))) as Hrun.
  destruct (notifiers (trace (shared w))) eqn:En; [simpl; lia|].
  pose proof (notified_ready _ _ Hi Hr) as Hn. rewrite En in Hn.
  specialize (Hn ltac:(done)). congruence.
Qed.

(** On a core that started kNotStarted the status is a function of what
    happened: kNotStarted until a thread wins the exchange, kRunning from
    then until the winner's notification, kReady afterwards; the producer has
    run before the notification. *)
Theorem status_follows_the_trace w0 w :
  initial w0 -> status (shared w0) = kNotStarted -> reachable w0 w ->
  status (shared w) = status_of_trace (trace (shared w)) /\
  (status (shared w) = kReady ->
     exists t, runners (trace (shared w)) = [t] /\ winners (trace (shared w)) = [t] /\
               notifiers (trace (shared w)) = [t] /\
               precedes (EvCasRunning t) (EvRunFunc t) (trace (shared w)) /\
               precedes (EvRunFunc t) (EvNotify t) (trace (shared w))).
Proof.
  intros Hi H0 Hr.
  pose proof (InvRun_reachable _ _ Hi Hr) as I.
  destruct (aux_reachable _ _ Hi Hr) as (_ & _ & Hw & Hact & _).
  specialize (Hw H0).
  pose proof (notified_ready _ _ Hi Hr) as Hnr.
  pose proof (notifiers_le_one _ _ Hi Hr) as Hn1.
  assert (status (shared w) = kReady ->
          exists t, runners (trace (shared w)) = [t] /\ winners (trace (shared w)) = [t] /\
               notifiers (trace (shared w)) = [t]) as Hready.
  { intros Hrd. pose proof (ready_has_runner _ _ Hi H0 Hr Hrd) as Hrun.
    pose proof (ir_run_le _ I) as Hle. pose proof (ir_win_le _ I) as Hle'.
    destruct (runners (trace (shared w))) as [|t [|]] eqn:Er; simpl in Hle; try done; try lia.
    exists t. assert (t ∈ winners (trace (shared w))) as Hwin.
    { apply elem_of_winners. eapply precedes_elem; [apply (ir_prec_run _ I)|].
      apply elem_of_runners. rewrite Er. left. }
    pose proof Hwin as Hev. apply elem_of_winners in Hev.
    rewrite Forall_forall in Hact. destruct (Hact _ Hev) as [pc Hpc]. simpl in Hpc.
    assert (t ∈ notifiers (trace (shared w))) as Hnt.
    { destruct (in_run_section pc) eqn:Hs.
      - destruct pc; try done.
        + pose proof (running_reachable _ _ Hi Hr _ _ Hpc (ex_intro _ c (or_introl eq_refl))).
          congruence.
        + pose proof (running_reachable _ _ Hi Hr _ _ Hpc (ex_intro _ c (or_intror eq_refl))).
          congruence.
        + by destruct (ir_202 _ I _ _ Hpc) as (_ & ? & _).
      - by destruct (ir_done _ I _ _ Hwin Hpc Hs) as (_ & ? & _). }
    destruct (winners (trace (shared w))) as [|t' [|]] eqn:Ew; simpl in Hle'; try lia.
    { by apply elem_of_nil in Hwin. }
    apply list_elem_of_singleton in Hwin. subst t'.
    destruct (notifiers (trace (shared w))) as [|t' [|]] eqn:En; simpl in Hn1; try lia.
    { by apply elem_of_nil in Hnt. }
    apply list_elem_of_singleton in Hnt. by subst t'. }
  split.
  - unfold status_of_trace.
    destruct (status (shared w)) eqn:Es.
    + destruct (ir_ns _ I Es) as (-> & _).
      destruct (notifiers (trace (shared w))) eqn:En; [done|].
      specialize (Hnr ltac:(done)). congruence.
    + specialize (Hw ltac:(done)).
      destruct (notifiers (trace (shared w))) eqn:En.
      * by destruct (winners (trace (shared w))).
      * specialize (Hnr ltac:(done)). congruence.
    + destruct (Hready eq_refl) as (t & _ & _ & ->). done.
  - intros Hrd. destruct (Hready Hrd) as (t & ? & ? & ?). exists t.
    split_and!; try done; [apply (ir_prec_run _ I)|apply (ir_prec_notify _ I)].
Qed.

Lemma call_reachable w0 w : initial w0 -> reachable w0 w -> call_inv w0 w.
Proof.
  intros Hi. revert w. apply reachable_ind; unfold call_inv.
  { intros t pc0 pc H0 H1. simplify_eq. split; [done|]. intros r ->. by left. }
  intros w t l pc σ pc' Hr IH Hpc Hstep t' pc0 pc1 H0 Hl. simpl in *.
  pose proof (gated_reachable _ _ Hi Hr) as G.
  apply pool_lookup_upd in Hl as [[-> ->]|[Hne Hl]].
  - destruct (IH _ _ _ H0 Hpc) as [IH1 _].
    pose proof (G _ _ Hpc) as Hg.
    step_cases Hstep; unfold status in *; simpl in *.
    all: try (destruct c; simpl in * ).
    all: try (destruct d as [[]|]; simpl in * ).
    all: try (specialize (IH1 _ eq_refl)).
    all: (split; [by intros ? [= <-]|]).
    all: intros r' Hd; simplify_eq; right; rewrite ?IH1; eauto.
  - destruct (IH _ _ _ H0 Hl) as [IH1 IH2]. split; [done|].
    intros r ->. destruct (IH2 _ eq_refl) as [?|Hc]; [by left|right].
    destruct (call_of pc0) as [[]|]; try done.
    + destruct Hc as [? Hc]. split; [done|]. eapply thread_step_ready; eauto.
    + destruct Hc as [[? Hc]|?]; [left|by right]. split; [done|].
      eapply thread_step_ready; eauto.
Qed.

(** wait() returns only once the core is kReady, under every interleaving. *)
Theorem wait_returns_only_when_ready w0 w t r :
  initial w0 -> reachable w0 w ->
  pool w0 !! t = Some wait_151 -> pool w !! t = Some (Done r) ->
  r = RetVoid /\ status (shared w) = kReady /\
  forall w', reachable w w' ->
    status (shared w') = kReady /\ pool w' !! t = Some (Done RetVoid).
Proof.
  intros Hi Hr H0 Hpc.
  destruct (call_reachable _ _ Hi Hr _ _ _ H0 Hpc) as [_ H].
  destruct (H _ eq_refl) as [?|[-> Hrd]]; [done|].
  split_and!; [done..|].
  intros w' Hr'. split; [by eapply reachable_ready|].
  revert w' Hr'. apply reachable_ind; [done|].
  intros w1 t1 l pc σ pc' _ IH Hpc1 Hstep. simpl.
  destruct (decide (t1 = t)) as [->|Hne].
  - rewrite IH in Hpc1. by simplify_eq.
  - by rewrite list_lookup_insert_ne.
Qed.

(** The timed waits return ready only when the core is kReady.  On a core
    that does not allow inline execution they never touch the core: the
    waiting thread performs no action at all, it only loads the status, waits
    and returns. *)
Theorem timed_wait_respects_allowInline w0 w t :
  initial w0 -> reachable w0 w -> pool w0 !! t = Some waitFor_159 ->
  (forall r, pool w !! t = Some (Done r) ->
     (r = RetReady /\ status (shared w) = kReady) \/ r = RetTimeout) /\
  (allowInline_ (core (shared w0)) = false ->
     own_events t (trace (shared w)) = [] /\
     (pool w !! t = Some waitFor_159 \/ pool w !! t = Some waitFor_block \/
      pool w !! t = Some (Done RetReady) \/ pool w !! t = Some (Done RetTimeout))).
Proof.
  intros Hi Hr H0. split.
  - intros r Hpc. destruct (call_reachable _ _ Hi Hr _ _ _ H0 Hpc) as [_ H].
    by destruct (H _ eq_refl) as [?|?].
  - intros Ha. pose proof Hi as (Htr & _).
    revert w Hr. apply reachable_ind.
    { rewrite Htr. split; [done|by left]. }
    intros w t1 l pc σ pc' Hr [IH1 IH2] Hpc Hstep. simpl.
    destruct (aux_reachable _ _ Hi Hr) as (_ & Hal & _). rewrite Ha in Hal.
    destruct (decide (t1 = t)) as [->|Hne].
    + rewrite list_lookup_insert_eq by (by eapply lookup_lt_Some).
      rewrite Hpc in IH2.
      destruct IH2 as [?|[?|[?|?]]]; simplify_eq; simpl in Hstep;
        repeat case_match; simplify_eq; eauto 10.
    + rewrite list_lookup_insert_ne by done. split; [|done].
      destruct (thread_step_trace _ _ _ _ _ _ Hstep) as [->|(e & -> & He)]; [done|].
      rewrite own_events_cons_other; [done|congruence].
Qed.

(** *** The reference count *)

Lemma refCount_runFunc (c : FutureImplBase Result Exn) : refCount_ (runFunc c) = refCount_ c.
Proof. unfold runFunc. by destruct (func_ c). Qed.






(** *** Calls that run alone *)

Lemma exec_replicate_add n m (tl : tid * Label) w :
  exec (replicate (n + m) tl) w = exec (replicate n tl) w ≫= exec (replicate m tl).
Proof. by rewrite replicate_add, exec_app. Qed.

Lemma produce_solo w t l c :
  pool w !! t = Some (run_198 c kNotStarted) ->
  status (shared w) = kNotStarted -> spurious l = false ->
  exec (replicate 4 (t, l)) w =
    Some {| shared := produce t (shared w);
            pool := <[t := drain_215 (DrainFromRun c)]> (pool w) |}.
Proof.
  intros Hpc Hst Hsp. simpl replicate.
  assert (thread_step t l (shared w) (run_198 c kNotStarted)
          = Some (log (EvCasRunning t) (on_core (set_status kRunning) (shared w)),
                  run_200 c)) as H2.
  { simpl. rewrite Hst, Hsp. done. }
  erewrite exec_cons_step; [|pool_same|exact H2].
  erewrite exec_cons_step; [|pool_same|done].
  erewrite exec_cons_step; [|pool_same|done].
  erewrite exec_cons_step; [|pool_same|apply step_202].
  unfold produce. cbn [exec pool shared].
  by rewrite !list_insert_insert_eq.
Qed.

Lemma heap_run_nodes t L σ : heap (run_nodes t L σ) = heap σ.
Proof. revert σ. induction L as [|x L IH]; intros σ; simpl; [done|]. by rewrite IH. Qed.

Lemma node_run_solo t l d h L : forall a stack w,
  pool w !! t = Some (node_run d h stack a) ->
  chain (heap (shared w)) (Some a) L ->
  exec (replicate (length L) (t, l)) w =
    Some {| shared := run_nodes t L (shared w);
            pool := <[t := node_ret d h (reverse L.*1 ++ stack)]> (pool w) |}.
Proof.
  induction L as [|[a0 fn] L IH]; intros a stack w Hpc Hch.
  { inversion Hch. }
  apply chain_Some_inv in Hch as (fn' & L' & Heq & Ha & Hch).
  injection Heq as -> <- <-.
  cbn [length replicate].
  destruct (next fn) as [n|] eqn:En.
  - assert (thread_step t l (shared w) (node_run d h stack a)
            = Some (log (EvFunctor t (Some a) fn (has_policy (asyncPolicy fn) launch_async))
                      (shared w), node_run d h (a :: stack) n)) as H1.
    { simpl. by rewrite Ha, En. }
    erewrite exec_cons_step; [|exact Hpc|exact H1].
    erewrite IH; [| cbn [pool]; pool_same | exact Hch].
    cbn [pool shared run_nodes foldl fmap list_fmap fst].
    rewrite list_insert_insert_eq. rewrite reverse_cons, <- (assoc_L (++)). done.
  - apply chain_None_inv in Hch as ->.
    assert (thread_step t l (shared w) (node_run d h stack a)
            = Some (log (EvFunctor t (Some a) fn (has_policy (asyncPolicy fn) launch_async))
                      (shared w), node_ret d h (a :: stack))) as H1.
    { simpl. by rewrite Ha, En. }
    erewrite exec_cons_step; [|exact Hpc|exact H1]. done.
Qed.

Lemma node_ret_solo t l d h : forall stack w,
  pool w !! t = Some (node_ret d h stack) ->
  exec (replicate (length stack) (t, l)) w =
    Some {| shared := free_nodes t stack (shared w);
            pool := <[t := node_ret d h []]> (pool w) |}.
Proof.
  induction stack as [|a stack IH]; intros w Hpc; cbn [length replicate].
  - simpl. destruct w as [σ p]. simpl in *. f_equal. f_equal.
    symmetry. by apply list_insert_id.
  - erewrite exec_cons_step; [|exact Hpc|done].
    erewrite IH; [|cbn [pool]; pool_same].
    cbn [pool shared]. by rewrite list_insert_insert_eq.
Qed.

Lemma thenChain_run_nodes t L σ : thenChain (run_nodes t L σ) = thenChain σ.
Proof. revert σ. induction L as [|x L IH]; intros σ; simpl; [done|]. by rewrite IH. Qed.

Lemma thenChain_free_nodes t st σ : thenChain (free_nodes t st σ) = thenChain σ.
Proof. revert σ. induction st as [|x L IH]; intros σ; simpl; [done|]. by rewrite IH. Qed.

Lemma executed_run_nodes t L σ :
  executed (trace (run_nodes t L σ)) = reverse ((fun x => impl x.2) <$> L) ++ executed (trace σ).
Proof.
  revert σ. induction L as [|x L IH]; intros σ; simpl; [done|].
  rewrite IH. simpl. rewrite reverse_cons, <- (assoc_L (++)). done.
Qed.

Lemma executed_free_nodes t st σ : executed (trace (free_nodes t st σ)) = executed (trace σ).
Proof. revert σ. induction st as [|x L IH]; intros σ; simpl; [done|]. by rewrite IH. Qed.

Lemma heap_free_nodes t st σ a :
  a ∈ st -> heap (free_nodes t st σ) !! a = None.
Proof.
  revert σ. induction st as [|x st IH]; intros σ Ha; [by apply elem_of_nil in Ha|].
  simpl. destruct (decide (a ∈ st)) as [Hin|Hnin]; [by apply IH|].
  apply elem_of_cons in Ha as [->|?]; [|done].
  clear IH. revert σ. induction st as [|y st IH]; intros σ; simpl.
  - by rewrite lookup_delete_eq.
  - apply not_elem_of_cons in Hnin as [Hne Hnin].
    rewrite <- (IH Hnin σ). simpl.
    assert (forall σ1 σ2 : Shared Result Exn, heap σ1 !! x = heap σ2 !! x ->
              heap (free_nodes t st σ1) !! x = heap (free_nodes t st σ2) !! x) as Hcong.
    { clear. induction st as [|z st IH]; intros σ1 σ2 E; simpl; [done|].
      apply IH. simpl. destruct (decide (z = x)) as [->|?].
      - by rewrite !lookup_delete_eq.
      - by rewrite !lookup_delete_ne. }
    apply Hcong. simpl. rewrite lookup_delete_ne by done.
    by rewrite !lookup_delete_eq.
Qed.

Lemma drain_alone_runs_the_chain_aux w t l d L :
  pool w !! t = Some (drain_215 d) ->
  chain (heap (shared w)) (thenChain (shared w)) L ->
  spurious l = false ->
  exec (replicate (drain_steps L) (t, l)) w =
    Some {| shared := drained t L (shared w);
            pool := <[t := return_drain d]> (pool w) |} /\
  thenChain (drained t L (shared w)) = None /\
  executed (trace (drained t L (shared w))) =
    reverse ((fun x => impl x.2) <$> L) ++ executed (trace (shared w)) /\
  (forall a, a ∈ L.*1 -> heap (drained t L (shared w)) !! a = None).
Proof.
  intros Hpc Hch Hsp.
  destruct L as [|[h fn] L].
  - inversion Hch as [E|]. split_and!; [|done|done|by intros a Ha; apply elem_of_nil in Ha].
    cbn [drain_steps replicate drained].
    erewrite exec_cons_step; [|exact Hpc|done].
    assert (thread_step t l (shared w) (drain_217 d (thenChain (shared w)))
            = Some (shared w, return_drain d)) as H2 by (by rewrite <- E).
    erewrite exec_cons_step; [|pool_same|exact H2].
    cbn [exec pool shared]. by rewrite list_insert_insert_eq.
  - inversion Hch as [|a0 fn0 l0 Hh0 Hn0 Eh]. subst.
    split_and!.
    + cbn [drain_steps].
      replace (2 * length ((h, fn) :: L) + 5)%nat
        with (2 + (length ((h, fn) :: L) + (length (reverse ((h, fn) :: L).*1) + 3)))%nat
        by (rewrite length_reverse, length_fmap; lia).
      rewrite exec_replicate_add. cbn [replicate].
      erewrite exec_cons_step; [|exact Hpc|done].
      assert (thread_step t l (shared w) (drain_217 d (thenChain (shared w)))
              = Some (log (EvDrain t h) (on_core (set_thenChain None) (shared w)),
                      node_run d h [] h)) as H2.
      { rewrite <- Eh. simpl. rewrite <- Eh, Hsp. by rewrite bool_decide_eq_true_2. }
      erewrite exec_cons_step; [|pool_same|exact H2].
      cbn [exec mbind option_bind]. rewrite exec_replicate_add.
      erewrite (node_run_solo t l d h ((h, fn) :: L)); [|cbn [pool]; pool_same|by constructor].
      cbn [mbind option_bind]. rewrite exec_replicate_add.
      erewrite node_ret_solo; [|cbn [pool]; rewrite app_nil_r; pool_same].
      cbn [mbind option_bind replicate].
      erewrite exec_cons_step; [|cbn [pool]; pool_same|done].
      assert (forall σ, thenChain σ = None ->
                thread_step t l σ (drain_217 d (Some h)) = Some (σ, drain_217 d None)) as H5.
      { intros σ E. simpl. rewrite E. by rewrite bool_decide_eq_false_2. }
      erewrite exec_cons_step; [|cbn [pool]; pool_same|apply H5].
      2:{ cbn [shared]. by rewrite thenChain_free_nodes, thenChain_run_nodes. }
      erewrite exec_cons_step; [|cbn [pool]; pool_same|done].
      cbn [exec pool shared drained]. by rewrite !list_insert_insert_eq.
    + cbn [drained]. by rewrite thenChain_free_nodes, thenChain_run_nodes.
    + cbn [drained]. by rewrite executed_free_nodes, executed_run_nodes.
    + intros a Hin. cbn [drained]. apply heap_free_nodes. by rewrite elem_of_reverse.
Qed.

(** tryExecuteThenChain() run alone on a chain [L] ends after
    [drain_steps L] steps: it has taken the whole chain in one exchange, run
    every continuation of it once, the head first, released every buffer and
    left the chain empty; on an empty chain it does nothing. *)
Theorem drain_alone_runs_the_whole_chain w t l d L :
  pool w !! t = Some (drain_215 d) ->
  chain (heap (shared w)) (thenChain (shared w)) L ->
  spurious l = false ->
  exec (replicate (drain_steps L) (t, l)) w =
    Some {| shared := drained t L (shared w);
            pool := <[t := return_drain d]> (pool w) |} /\
  thenChain (drained t L (shared w)) = None /\
  executed (trace (drained t L (shared w))) =
    reverse ((fun x => impl x.2) <$> L) ++ executed (trace (shared w)) /\
  (forall a, a ∈ L.*1 -> heap (drained t L (shared w)) !! a = None).
Proof. intros Hpc Hch Hsp. by apply drain_alone_runs_the_chain_aux. Qed.

(** addToThenChainOrExecute() run alone on a core that is not ready, with a
    free buffer from the allocator, ends after five steps: the new node is
    the head of the chain, its [next] is the previous head, and nothing was
    executed. *)
Theorem install_alone_pushes_a_node w t l fn L :
  pool w !! t = Some (add_256 fn) ->
  status (shared w) <> kReady ->
  heap (shared w) !! fresh l = None ->
  spurious l = false ->
  chain (heap (shared w)) (thenChain (shared w)) L ->
  exec (replicate 5 (t, l)) w =
    Some {| shared := installed t (fresh l) fn (shared w);
            pool := <[t := Done RetVoid]> (pool w) |} /\
  chain (heap (installed t (fresh l) fn (shared w)))
        (thenChain (installed t (fresh l) fn (shared w)))
        ((fresh l, with_next fn (thenChain (shared w))) :: L) /\
  executed (trace (installed t (fresh l) fn (shared w))) = executed (trace (shared w)).
Proof.
  intros Hpc Hst Hfree Hsp Hch. split_and!.
  - cbn [replicate].
    assert (thread_step t l (shared w) (add_256 fn)
            = Some (shared w, add_264 (with_next fn None))) as H1.
    { simpl. by rewrite bool_decide_eq_false_2. }
    erewrite exec_cons_step; [|exact Hpc|exact H1].
    assert (thread_step t l (shared w) (add_264 (with_next fn None))
            = Some (log (EvAlloc t (fresh l))
                      (set_heap (<[fresh l := None]> (heap (shared w))) (shared w)),
                    add_266 (with_next fn None) (fresh l))) as H2.
    { simpl. by rewrite Hfree. }
    erewrite exec_cons_step; [|pool_same|exact H2].
    erewrite exec_cons_step; [|cbn [pool]; pool_same|done].
    match goal with
    | |- exec _ ?W = _ =>
        assert (thread_step t l (shared W)
                  (add_268 (with_next (with_next fn None) (thenChain (shared w))) (fresh l))
                = Some (installed t (fresh l) fn (shared w), add_278)) as H4
    end.
    { simpl. rewrite lookup_insert_eq. unfold thenChain. simpl.
      rewrite bool_decide_eq_true_2 by done. rewrite Hsp. done. }
    erewrite exec_cons_step; [|cbn [pool]; pool_same|exact H4].
    assert (thread_step t l (installed t (fresh l) fn (shared w)) add_278
            = Some (installed t (fresh l) fn (shared w), Done RetVoid)) as H5.
    { simpl. unfold status in *. simpl. by rewrite bool_decide_eq_false_2. }
    erewrite exec_cons_step; [|cbn [pool]; pool_same|exact H5].
    cbn [exec pool shared]. by rewrite !list_insert_insert_eq.
  - unfold installed, thenChain. simpl. constructor.
    + by rewrite lookup_insert_eq.
    + simpl. eapply chain_agree; [exact Hch|].
      intros x Hx. destruct (decide (x = fresh l)) as [->|Hne].
      * eapply chain_allocated in Hx; [|exact Hch]. rewrite Hfree in Hx. by destruct Hx.
      * by rewrite !lookup_insert_ne.
  - done.
Qed.

Lemma heap_produce t σ : heap (produce t σ) = heap σ.
Proof. unfold produce. simpl. by destruct (taskSetCounter_ _). Qed.

Lemma thenChain_produce t σ : thenChain (produce t σ) = thenChain σ.
Proof.
  unfold produce, thenChain. simpl. rewrite taskSetCounter_runFunc.
  destruct (taskSetCounter_ _); simpl; by rewrite thenChain_runFunc.
Qed.

Lemma refCount_produce t σ : refCount_ (core (produce t σ)) = refCount_ (core σ).
Proof.
  unfold produce. simpl. rewrite taskSetCounter_runFunc.
  destruct (taskSetCounter_ _); simpl; by rewrite refCount_runFunc.
Qed.

Lemma refCount_drained t L σ : refCount_ (core (drained t L σ)) = refCount_ (core σ).
Proof.
  destruct L as [|[h fn] L]; [done|]. cbn [drained].
  assert (forall st σ', refCount_ (core (free_nodes t st σ')) = refCount_ (core σ')) as H1.
  { induction st as [|x st IH]; intros σ'; simpl; [done|]. by rewrite IH. }
  assert (forall L' σ', refCount_ (core (run_nodes t L' σ')) = refCount_ (core σ')) as H2.
  { induction L' as [|x L' IH]; intros σ'; simpl; [done|]. by rewrite IH. }
  by rewrite H1, H2.
Qed.

Lemma run_alone_aux w t l L :
  pool w !! t = Some run_146 ->
  status (shared w) = kNotStarted ->
  chain (heap (shared w)) (thenChain (shared w)) L ->
  spurious l = false ->
  exec (replicate (6 + drain_steps L) (t, l)) w =
    Some {| shared := log (EvDecRef t)
                        (on_core (fun c => (decRefCountMaybeDestroy c).1)
                           (drained t L (produce t (shared w))));
            pool := <[t := if bool_decide (refCount_ (core (shared w)) = 1)
                           then dealloc_179 else Done RetVoid]> (pool w) |}.
Proof.
  intros Hpc Hst Hch Hsp.
  replace (6 + drain_steps L)%nat with (1 + (4 + (drain_steps L + 1)))%nat by lia.
  rewrite exec_replicate_add. cbn [replicate].
  erewrite exec_cons_step; [|exact Hpc|done].
  cbn [exec mbind option_bind]. rewrite exec_replicate_add.
  erewrite produce_solo; [|cbn [pool]; pool_same|done|done].
  cbn [mbind option_bind]. rewrite exec_replicate_add.
  match goal with
  | |- exec _ ?W ≫= _ = _ =>
      destruct (drain_alone_runs_the_chain_aux W t l (DrainFromRun FromRun) L)
        as (-> & _)
  end.
  { cbn [pool]. pool_same. }
  { cbn [shared]. by rewrite heap_produce, thenChain_produce. }
  { done. }
  cbn [mbind option_bind replicate pool shared return_drain return_run].
  erewrite exec_cons_step; [|cbn [pool]; pool_same|done].
  cbn [exec pool shared]. rewrite !list_insert_insert_eq.
  unfold decRefCountMaybeDestroy, on_core. cbn [fst snd].
  rewrite refCount_drained, refCount_produce. done.
Qed.

(** run() alone on a core that is kNotStarted, with the chain [L] installed:
    the thread wins the exchange, runs the producer, publishes kReady,
    decrements the task-set counter, runs the chain and releases its
    reference, all in [6 + drain_steps L] steps. *)
Theorem run_alone_completes w t l L :
  pool w !! t = Some run_146 ->
  status (shared w) = kNotStarted ->
  chain (heap (shared w)) (thenChain (shared w)) L ->
  spurious l = false ->
  exec (replicate (6 + drain_steps L) (t, l)) w =
    Some {| shared := log (EvDecRef t)
                        (on_core (fun c => (decRefCountMaybeDestroy c).1)
                           (drained t L (produce t (shared w))));
            pool := <[t := if bool_decide (refCount_ (core (shared w)) = 1)
                           then dealloc_179 else Done RetVoid]> (pool w) |}.
Proof. intros Hpc Hst Hch Hsp. by apply run_alone_aux. Qed.

(** A future made by createFutureImpl and run once, alone: it is kReady, it
    holds what the producer produced, one of its two references is left and
    nothing was deallocated, and the counter of its task set, if it has one,
    went down by one. *)
Theorem created_future_run_once (sizeofSmallT kImplSize : nat) (indeterminate : bool)
    (f : Producer Result Exn) (allowInline : bool) (tsc : option nat)
    (cs : gmap nat Z) (threads : list Pc) t l :
  threads !! t = Some run_146 -> spurious l = false ->
  exists σ,
    exec (replicate 8 (t, l))
      {| shared := {| core := createFutureImpl sizeofSmallT kImplSize indeterminate f
                                allowInline tsc;
                      counters := cs; heap := ∅; trace := [] |};
         pool := threads |}
    = Some {| shared := σ; pool := <[t := Done RetVoid]> threads |} /\
    status σ = kReady /\ refCount_ (core σ) = 1 /\
    member (core σ) = runToResult f {| resultBuf_ := None; exception_ := None |} /\
    allowInline_ (core σ) = allowInline /\
    counters σ = match tsc with
                 | Some p => alter (fun n => wrap_i32 (n - 1)) p cs
                 | None => cs
                 end /\
    heap σ = ∅ /\ thenChain σ = None /\
    trace σ = EvDecRef t ::
              match tsc with
              | Some _ => [EvTaskSetDec t; EvNotify t; EvRunFunc t; EvCasRunning t]
              | None => [EvNotify t; EvRunFunc t; EvCasRunning t]
              end.
Proof.
  intros Hpc Hsp.
  pose proof (run_alone_aux
                {| shared := {| core := createFutureImpl sizeofSmallT kImplSize indeterminate f
                                          allowInline tsc;
                                counters := cs; heap := ∅; trace := [] |};
                   pool := threads |} t l [] Hpc eq_refl (chain_nil _) Hsp) as H.
  cbn [drain_steps Nat.add drained pool shared] in H.
  eexists. split; [exact H|].
  unfold produce, status, thenChain. simpl.
  destruct tsc; simpl; split_and!; done.
Qed.

(** A producer that returns: the stored value is what result() returns from
    the moment the core is kReady, in every later world; before the producer
    has run the slot is empty.  No exception is ever stored. *)
Theorem producer_value_is_returned w0 w f v :
  initial w0 -> status (shared w0) = kNotStarted ->
  func_ (core (shared w0)) = Some f -> f tt = inl v ->
  member (core (shared w0)) = {| resultBuf_ := None; exception_ := None |} ->
  reachable w0 w ->
  exception_ (member (core (shared w))) = None /\
  (runners (trace (shared w)) = [] -> result (member (core (shared w))) = Uninitialised) /\
  (status (shared w) = kReady ->
     forall w', reachable w w' ->
       result (member (core (shared w'))) = Returns v /\
       destroys_result (member (core (shared w'))) = true).
Proof.
  intros Hi H0 Hf He Hm Hr.
  assert (forall w1, reachable w0 w1 ->
            member (core (shared w1)) =
              match runners (trace (shared w1)) with
              | _ :: _ => {| resultBuf_ := Some v; exception_ := None |}
              | [] => {| resultBuf_ := None; exception_ := None |}
              end) as Hmem.
  { intros w1 Hr1.
    destruct (aux_reachable _ _ Hi Hr1) as (_ & _ & _ & _ & _ & _ & ->).
    unfold member_after. rewrite member_runFunc, Hf, Hm.
    unfold runToResult. rewrite He. done. }
  split_and!.
  - rewrite (Hmem _ Hr). by destruct (runners _).
  - intros E. rewrite (Hmem _ Hr), E. done.
  - intros Hrd w' Hr'.
    pose proof (reachable_trans _ _ _ Hr Hr') as Hr0.
    pose proof (reachable_ready _ _ Hr' Hrd) as Hrd'.
    pose proof (ready_has_runner _ _ Hi H0 Hr0 Hrd') as Hrun.
    rewrite (Hmem _ Hr0). by destruct (runners (trace (shared w'))).
Qed.

Lemma wrap_i32_pred a : wrap_i32 (wrap_i32 a - 1) = wrap_i32 (a - 1).
Proof.
  unfold wrap_i32.
  replace ((a + 2 ^ 31) mod 2 ^ 32 - 2 ^ 31 - 1 + 2 ^ 31)
    with ((a + 2 ^ 31) mod 2 ^ 32 - 1) by lia.
  rewrite Zminus_mod_idemp_l. do 2 f_equal. lia.
Qed.

Lemma wrap_i32_small a : - 2 ^ 31 <= a < 2 ^ 31 -> wrap_i32 a = a.
Proof. intros H. unfold wrap_i32. rewrite Z.mod_small; lia. Qed.

(** A future constructed on a task set adds one to the set's outstanding
    count, and its run takes that one away again: until the decrement the
    count is one more than before the construction, afterwards it is what it
    was.  The core allows inline execution exactly when the deferred policy
    has the deferred bit, and the thunk is force-queued exactly when the
    async policy has the async bit. *)
Theorem taskset_count_round_trip (sizeofSmallT kImplSize : nat) (indeterminate : bool)
    (f : Producer Result Exn) (p : nat) (asyncPolicy deferredPolicy : Z)
    (cs : gmap nat Z) (n : Z) w0 w :
  cs !! p = Some n -> - 2 ^ 31 <= n < 2 ^ 31 ->
  initial w0 ->
  core (shared w0) =
    (FutureBase_taskSet sizeofSmallT kImplSize indeterminate f p asyncPolicy deferredPolicy
       cs).1.1 ->
  counters (shared w0) =
    (FutureBase_taskSet sizeofSmallT kImplSize indeterminate f p asyncPolicy deferredPolicy
       cs).1.2 ->
  reachable w0 w ->
  counters (shared w0) !! p = Some (wrap_i32 (n + 1)) /\
  counters (shared w) =
    (if bool_decide (decrementers (trace (shared w)) = [])
     then counters (shared w0) else cs) /\
  allowInline_ (core (shared w)) = has_policy deferredPolicy launch_deferred /\
  (FutureBase_taskSet sizeofSmallT kImplSize indeterminate f p asyncPolicy deferredPolicy
     cs).2 = has_policy asyncPolicy launch_async.
Proof.
  intros Hp Hn Hi Hc Hcs Hr. simpl in Hc, Hcs.
  destruct (aux_reachable _ _ Hi Hr) as (_ & Hal & _ & _ & Hcnt & _).
  split_and!.
  - rewrite Hcs. rewrite lookup_alter_eq, Hp. done.
  - rewrite Hcnt. unfold counters_after. rewrite Hc. simpl.
    destruct (decrementers (trace (shared w))); [done|].
    rewrite bool_decide_eq_false_2 by done. rewrite Hcs.
    rewrite alter_alter_eq. apply alter_id.
    intros x Hx. assert (x = n) as -> by congruence.
    simpl. rewrite wrap_i32_pred.
    replace (n + 1 - 1) with n by lia. by apply wrap_i32_small.
  - rewrite Hal, Hc. done.
  - done.
Qed.

(** The destructor of the result member (future_impl.h:27-36) destroys the
    stored Result unless an exception was captured.  Once the producer has
    run this is right: a Result is destroyed exactly when one was
    constructed.  Before the producer has run nothing was constructed, and
    the destructor would destroy a Result all the same. *)
Theorem member_destructor_after_run w0 w f :
  initial w0 -> func_ (core (shared w0)) = Some f ->
  member (core (shared w0)) = {| resultBuf_ := None; exception_ := None |} ->
  reachable w0 w ->
  (runners (trace (shared w)) <> [] ->
     (destroys_result (member (core (shared w))) = true <->
      is_Some (resultBuf_ (member (core (shared w)))))) /\
  (runners (trace (shared w)) = [] ->
     destroys_result (member (core (shared w))) = true /\
     resultBuf_ (member (core (shared w))) = None).
Proof.
  intros Hi Hf Hm Hr.
  destruct (aux_reachable _ _ Hi Hr) as (_ & _ & _ & _ & _ & _ & ->).
  unfold member_after. rewrite member_runFunc, Hf, Hm.
  unfold runToResult, destroys_result.
  split; intros Hrun.
  - destruct (runners (trace (shared w))); [done|].
    destruct (f tt); simpl; split; try done; by intros [? ?].
  - by rewrite Hrun.
Qed.


End CoreExtras.

Section WaitExtras.
Context {Result Exn : Type}.
Implicit Types (w : World Result Exn) (σ : Shared Result Exn).

Lemma inline_solo w t l L c pc0 :
  pool w !! t = Some pc0 ->
  thread_step t l (shared w) pc0 = Some (shared w, run_198 c kNotStarted) ->
  status (shared w) = kNotStarted ->
  chain (heap (shared w)) (thenChain (shared w)) L ->
  spurious l = false ->
  exec (replicate (5 + drain_steps L) (t, l)) w =
    Some {| shared := drained t L (produce t (shared w));
            pool := <[t := return_drain (DrainFromRun c)]> (pool w) |}.
Proof.
  intros Hpc Hstep Hst Hch Hsp.
  replace (5 + drain_steps L)%nat with (1 + (4 + drain_steps L))%nat by lia.
  rewrite exec_replicate_add. cbn [replicate].
  erewrite exec_cons_step; [|exact Hpc|exact Hstep].
  cbn [exec mbind option_bind]. rewrite exec_replicate_add.
  erewrite produce_solo; [|cbn [pool]; pool_same|done|done].
  cbn [mbind option_bind].
  match goal with
  | |- exec _ ?W = _ =>
      destruct (drain_alone_runs_the_chain_aux W t l (DrainFromRun c) L) as (-> & _)
  end.
  { cbn [pool]. pool_same. }
  { cbn [shared]. by rewrite heap_produce, thenChain_produce. }
  { done. }
  cbn [pool shared]. by rewrite !list_insert_insert_eq.
Qed.

(** wait() alone on a core that is kNotStarted, with the chain [L]
    installed, runs the producer and the chain on the calling thread and
    returns, in [5 + drain_steps L] steps, whatever allowInline_ is. *)
Theorem wait_alone_completes w t l L :
  pool w !! t = Some wait_151 ->
  status (shared w) = kNotStarted ->
  chain (heap (shared w)) (thenChain (shared w)) L ->
  spurious l = false ->
  exec (replicate (5 + drain_steps L) (t, l)) w =
    Some {| shared := drained t L (produce t (shared w));
            pool := <[t := Done RetVoid]> (pool w) |} /\
  status (drained t L (produce t (shared w))) = kReady.
Proof.
  intros Hpc Hst Hch Hsp. split.
  - apply (inline_solo w t l L FromWait wait_151); try done.
    simpl. by rewrite Hst.
  - destruct L as [|[h fn] L]; cbn [drained]; unfold produce, status; simpl.
    + by destruct (taskSetCounter_ _).
    + assert (forall st σ', status_ (core (free_nodes t st σ')) = status_ (core σ')) as H1.
      { induction st as [|x st IH]; intros σ'; simpl; [done|]. by rewrite IH. }
      assert (forall L' σ', status_ (core (run_nodes t L' σ')) = status_ (core σ')) as H2.
      { induction L' as [|x L' IH]; intros σ'; simpl; [done|]. by rewrite IH. }
      rewrite H1, H2. simpl. by destruct (taskSetCounter_ _).
Qed.

(** The timed waits alone on a core that is kNotStarted.  When the core
    allows inline execution they run the producer and the chain on the
    calling thread and return ready.  When it does not, they leave the core
    untouched: they block, and return timeout when the time is up. *)
Theorem timed_wait_alone w t l L :
  pool w !! t = Some waitFor_159 ->
  status (shared w) = kNotStarted ->
  (allowInline_ (core (shared w)) = true ->
   chain (heap (shared w)) (thenChain (shared w)) L -> spurious l = false ->
   exec (replicate (5 + drain_steps L) (t, l)) w =
     Some {| shared := drained t L (produce t (shared w));
             pool := <[t := Done RetReady]> (pool w) |}) /\
  (allowInline_ (core (shared w)) = false ->
   exec [(t, l)] w = Some {| shared := shared w; pool := <[t := waitFor_block]> (pool w) |} /\
   world_step (t, l) {| shared := shared w; pool := <[t := waitFor_block]> (pool w) |} =
     (if timed_out l
      then Some {| shared := shared w; pool := <[t := Done RetTimeout]> (pool w) |}
      else None)).
Proof.
  intros Hpc Hst. split.
  - intros Ha Hch Hsp.
    apply (inline_solo w t l L FromWaitFor waitFor_159); try done.
    simpl. by rewrite Hst, Ha.
  - intros Ha.
    assert (thread_step t l (shared w) waitFor_159 = Some (shared w, waitFor_block)) as H1.
    { simpl. by rewrite Hst, Ha. }
    split.
    + erewrite exec_cons_step; [done|exact Hpc|exact H1].
    + unfold world_step. cbn [fst snd pool shared].
      erewrite pool_lookup_same; [|exact Hpc]. simpl. rewrite Hst. simpl.
      destruct (timed_out l); [|done]. by rewrite list_insert_insert_eq.
Qed.

End WaitExtras.

(** ** The handle *)

Section HandleExtras.
Context {Result Exn : Type}.
Implicit Types (st : gmap nat (FutureImplBase Result Exn)).

Lemma set_refCount_same (c : FutureImplBase Result Exn) r :
  set_refCount (refCount_ c) (set_refCount r c) = c.
Proof. by destruct c. Qed.

(** Copy-constructing a handle of a live core adds one reference, and
    destroying the copy gives the store back as it was; nothing is
    deallocated on the way. *)
Theorem copy_then_destroy_restores (f : FutureBase) st p c :
  impl_ f = Some p -> st !! p = Some c -> 1 <= refCount_ c < 2 ^ 32 - 1 ->
  exists g st1,
    FutureBase_copy f st = Some (g, st1) /\ impl_ g = Some p /\
    refCount_at p st1 = Some (refCount_ c + 1) /\
    (forall q, q <> p -> st1 !! q = st !! q) /\
    destroy g st1 = Some st.
Proof.
  intros Hf Hp Hr. unfold FutureBase_copy, deref_incRefCount. rewrite Hf, Hp.
  eexists _, _. split; [done|]. split; [done|].
  assert (wrap_u32 (refCount_ c + 1) = refCount_ c + 1) as Hw.
  { unfold wrap_u32. rewrite Z.mod_small; lia. }
  split_and!.
  - unfold refCount_at. rewrite lookup_insert_eq. simpl. by rewrite Hw.
  - intros q Hq. by rewrite lookup_insert_ne.
  - unfold destroy, deref_decRefCountMaybeDestroy, decRefCountMaybeDestroy. simpl.
    rewrite lookup_insert_eq. simpl. rewrite Hw.
    rewrite bool_decide_eq_false_2 by lia.
    rewrite insert_insert_eq. f_equal.
    replace (refCount_ c + 1 - 1) with (refCount_ c) by lia.
    assert (wrap_u32 (refCount_ c) = refCount_ c) as ->.
    { unfold wrap_u32. rewrite Z.mod_small; lia. }
    unfold incRefCount. rewrite set_refCount_same. by apply insert_id.
Qed.

(** Copy assignment.  Assigning a handle of the same core (self-assignment
    included) changes nothing.  Assigning a handle of another live core
    releases the destination's core once, deallocating it when that was its
    last reference, adds one reference to the source's core and leaves every
    other core as it was. *)
Theorem copy_assign_moves_one_reference (this f : FutureBase) st :
  (impl_ this = impl_ f -> copy this f st = Some (this, st)) /\
  (forall p q cp cq,
     impl_ this = Some p -> impl_ f = Some q -> p <> q ->
     st !! p = Some cp -> st !! q = Some cq ->
     exists st',
       copy this f st = Some ({| impl_ := Some q |}, st') /\
       st' !! q = Some (incRefCount cq) /\
       st' !! p = (if bool_decide (refCount_ cp = 1) then None
                   else Some (set_refCount (wrap_u32 (refCount_ cp - 1)) cp)) /\
       forall x, x <> p -> x <> q -> st' !! x = st !! x).
Proof.
  split.
  - intros E. unfold copy. rewrite bool_decide_eq_false_2 by naive_solver. done.
  - intros p q cp cq Ht Hf Hne Hp Hq.
    unfold copy, deref_decRefCountMaybeDestroy, decRefCountMaybeDestroy, deref_incRefCount.
    rewrite Ht, Hf, Hp. rewrite bool_decide_eq_true_2 by naive_solver.
    case_bool_decide.
    + rewrite lookup_delete_ne by done. rewrite Hq. eexists. split; [done|]. split_and!.
      * by rewrite lookup_insert_eq.
      * rewrite lookup_insert_ne by done. by rewrite lookup_delete_eq.
      * intros x ? ?. rewrite lookup_insert_ne by done. by rewrite lookup_delete_ne.
    + rewrite lookup_insert_ne by done. rewrite Hq. eexists. split; [done|]. split_and!.
      * by rewrite lookup_insert_eq.
      * rewrite lookup_insert_ne by done. by rewrite lookup_insert_eq.
      * intros x ? ?. by rewrite !lookup_insert_ne.
Qed.

End HandleExtras.

(** ** forEach and when_all *)

(** [ForEachApply<index>] calls [f] on [index], [index - 1], ... and stops
    after the first element on which [f] returns false, or after element 0,
    on which the value of [f] is ignored. *)
Theorem ForEachApply_visits_downwards (index : nat) (f : nat -> bool) :
  exists j, (j <= index)%nat /\
    ForEachApply index f = reverse (seq j (S index - j)) /\
    (forall i, (j < i <= index)%nat -> f i = true) /\
    (j = 0%nat \/ f j = false).
Proof.
  induction index as [|k (j & Hj & IH & Hall & Hstop)].
  - exists 0%nat. split_and!; [lia|done|intros; lia|by left].
  - cbn [ForEachApply]. destruct (f (S k)) eqn:E.
    + exists j. split_and!; [lia| |intros i Hi|done].
      * rewrite IH. replace (S (S k) - j)%nat with (S (S k - j)) by lia.
        rewrite seq_S, reverse_app. simpl. do 2 f_equal. lia.
      * destruct (decide (i = S k)) as [->|?]; [done|apply Hall; lia].
    + exists (S k). split_and!; [lia| |intros; lia|by right].
      by replace (S (S k) - S k)%nat with 1%nat by lia.
Qed.

Section WhenAllExtras.
Context {Result Exn : Type}.
Implicit Types (w : WhenAllState Result Exn).

Lemma wa_install_reachable form ins w :
  ins <> [] -> wa_reachable (wa_init form ins) w -> wa_install_inv form (length ins) w.
Proof.
  intros Hne. revert w. apply wa_reachable_ind; [done|].
  intros w a w' Hr IH Hs.
  destruct (wa_reachable_a _ _ Hr) as (_ & Hlen & Hform). simpl in Hlen, Hform.
  assert (wa_inputs w <> []) as Hne' by (intros E; rewrite E in Hlen; by destruct ins).
  subst form.
  wa_cases Hs; unfold wa_install_inv in *; simpl in *; rewrite ?Hlen.
  all: try match goal with H : wa_main _ = _ |- _ => rewrite H in IH end.
  all: try match goal with H : _ = wa_main _ |- _ => rewrite <- H in IH end.
  all: try done.
  all: try (by rewrite IH).
  all: try (by rewrite app_nil_r in IH).
  - rewrite reverse_cons, <- (assoc_L (++)). done.
  - by rewrite H.
Qed.

(** When the call of when_all has returned, every input has had its
    continuation installed exactly once: in the order of the range for the
    iterator form, from the last element of the tuple to the first for the
    variadic form. *)
Theorem when_all_installs_every_input_once (form : Form)
    (ins : list (option (Result + Exn))) w :
  ins <> [] -> wa_reachable (wa_init form ins) w -> wa_main w = wa_done ->
  reverse (wa_installs (wa_trace w)) =
    match form with
    | VectorForm => seq 0 (length ins)
    | TupleForm => reverse (seq 0 (length ins))
    end /\
  wa_installs (wa_trace w) ≡ₚ seq 0 (length ins) /\
  (forall i c, wa_conts w !! i = Some c -> c <> CNotInstalled).
Proof.
  intros Hne Hr Hd.
  pose proof (wa_install_reachable _ _ _ Hne Hr) as E.
  pose proof (wa_reachable_b _ _ _ Hne Hr) as B.
  unfold wa_install_inv in E. rewrite Hd in E.
  assert (0 < length ins)%nat as Hpos by (destruct ins; [done|simpl; lia]).
  assert (wa_installs (wa_trace w) ≡ₚ seq 0 (length ins)) as Hperm.
  { rewrite <- (visit_order_perm form) by done. rewrite <- E. by rewrite reverse_Permutation. }
  split_and!; [|done|].
  - rewrite E. destruct form; simpl; [done|].
    unfold forEach. rewrite ForEachApply_all. by replace (S (length ins - 1)) with (length ins) by lia.
  - intros i c Hc ->. pose proof (wb_inst_not _ B _ Hc) as Hn. apply Hn.
    rewrite Hperm. apply elem_of_seq. apply lookup_lt_Some in Hc.
    destruct (wa_reachable_a _ _ Hr) as (Hl & _). simpl in Hl.
    rewrite length_replicate in Hl. lia.
Qed.

(** when_all on no input at all returns, in its first step, a future that
    is ready with the empty container; no shared state is allocated, no
    continuation exists, and nothing can happen afterwards. *)
Theorem when_all_of_nothing_is_ready (form : Form) :
  exists w : WhenAllState Result Exn,
    wa_step AMain (wa_init form []) = Some w /\
    wa_main w = wa_done /\ wa_out_status w = kReady /\
    result (wa_out_member w) = Returns [] /\
    wa_allocated w = false /\ wa_conts w = [] /\ wa_trace w = [] /\
    forall a, wa_step a w = None.
Proof.
  eexists. split; [done|]. split_and!; try done.
  intros []; try done.
Qed.

(** The shared counter never wraps: once the shared state exists it is the
    number of inputs minus the number of decrements, between zero and the
    number of inputs; when it is zero every input is resolved and every
    continuation has made its decrement. *)
Theorem when_all_counter_stays_in_range (form : Form)
    (ins : list (option (Result + Exn))) w :
  ins <> [] -> Z.of_nat (length ins) < 2 ^ 64 ->
  wa_reachable (wa_init form ins) w -> wa_allocated w = true ->
  wa_count w = Z.of_nat (length ins) - Z.of_nat (length (wa_decs (wa_trace w))) /\
  0 <= wa_count w <= Z.of_nat (length ins) /\
  (wa_count w = 0 ->
     forall i, (i < length ins)%nat ->
       resolved w i /\ exists old, (i, old) ∈ wa_decs (wa_trace w)).
Proof.
  intros Hne Hsz Hr Hal.
  pose proof (wa_reachable_c _ _ _ Hne Hsz Hr) as C.
  destruct (wa_reachable_a _ _ Hr) as (_ & Hlen & _). simpl in Hlen.
  pose proof (wc_cnt _ _ C Hal) as Hc.
  assert (length (wa_decs (wa_trace w)) <= length ins)%nat as Hle.
  { rewrite <- (length_fmap fst). apply pigeonhole; [apply (wc_d1 _ _ C)|].
    intros x Hx. by eapply WaInvC_dec_lt. }
  split_and!; [done|lia|lia|].
  intros H0 i Hi.
  assert (i ∈ (wa_decs (wa_trace w)).*1) as Hin.
  { apply (pigeonhole_full _ (length ins)); [apply (wc_d1 _ _ C)| |rewrite length_fmap; lia|done].
    intros x Hx. by eapply WaInvC_dec_lt. }
  apply list_elem_of_fmap in Hin as ([j old] & -> & Hin).
  destruct (wc_d2 _ _ C _ _ Hin) as [? _]. split; [done|by exists old].
Qed.

Lemma wa_f_before_store form (ins : list (option (Result + Exn))) w :
  ins <> [] -> wa_reachable (wa_init form ins) w ->
  pre_store (wa_main w) = true -> wa_f w = EmptyFn.
Proof.
  intros Hne. revert w.
  apply (wa_reachable_ind _ (fun w => pre_store (wa_main w) = true -> wa_f w = EmptyFn));
    [done|].
  intros w a w' Hr IH Hs Hp.
  pose proof (wa_reachable_b _ _ _ Hne Hr) as B.
  wa_cases Hs; simpl in *; try done.
  all: try (apply IH; match goal with H : wa_main _ = _ |- _ => by rewrite H end).
  all: try (by apply IH).
  all: try (match goal with H : wa_main _ = _ |- _ => by rewrite H in Hp end).
  all: destruct (wb_pre _ B Hp) as (F & _).
  all: by eapply all_not_installed in F; [|eassumption].
Qed.

Lemma wa_started_by form (ins : list (option (Result + Exn))) w :
  ins <> [] -> wa_reachable (wa_init form ins) w ->
  wa_out_status w <> kNotStarted ->
  wa_fires (wa_trace w) <> [] \/ wa_main w = wa_done.
Proof.
  intros Hne. revert w.
  apply (wa_reachable_ind _ (fun w => wa_out_status w <> kNotStarted ->
                                      wa_fires (wa_trace w) <> [] \/ wa_main w = wa_done));
    [done|].
  intros w a w' Hr IH Hs Hst.
  pose proof (wa_reachable_b _ _ _ Hne Hr) as B.
  destruct (wa_reachable_a _ _ Hr) as (_ & Hlen & _). simpl in Hlen.
  assert (wa_inputs w <> []) as Hne' by (intros E; rewrite E in Hlen; by destruct ins).
  wa_cases Hs; simpl in *; eauto.
  all: try (destruct (IH Hst) as [?|Hd]; [by left|];
            match goal with H : wa_main _ = _ |- _ => rewrite H in Hd end; done).
  all: try (destruct (IH ltac:(congruence)) as [?|Hd]; [by left|by right]).
Qed.

(** Constructing the result future through the interceptor does not start
    its producer: the thunk is saved, then moved into the shared state, and
    the output future leaves kNotStarted only when a continuation fires the
    thunk or when a waiter runs it after when_all has returned. *)
Theorem when_all_output_starts_late (form : Form)
    (ins : list (option (Result + Exn))) w :
  ins <> [] -> Z.of_nat (length ins) < 2 ^ 64 ->
  wa_reachable (wa_init form ins) w ->
  (wa_main w = wa_store_f -> wa_savedOffFn w = RunOutput /\ wa_f w = EmptyFn) /\
  (pre_store (wa_main w) = true -> wa_out_status w = kNotStarted) /\
  (pre_store (wa_main w) = false -> wa_fires (wa_trace w) = [] -> wa_f w = RunOutput) /\
  (wa_out_status w <> kNotStarted ->
     wa_fires (wa_trace w) <> [] \/ wa_main w = wa_done).
Proof.
  intros Hne Hsz Hr.
  pose proof (wa_reachable_b _ _ _ Hne Hr) as B.
  pose proof (wa_reachable_c _ _ _ Hne Hsz Hr) as C.
  split_and!.
  - intros Hm. split; [by apply (wb_saved _ B)|].
    eapply wa_f_before_store; eauto. by rewrite Hm.
  - intros Hp. by destruct (wb_pre _ B Hp) as (_ & _ & _ & _ & _ & _ & ?).
  - apply (wc_f _ _ C).
  - by eapply wa_started_by.
Qed.

Lemma unresolved_insert (ins : list (option (Result + Exn))) i o :
  ins !! i = Some None -> (unresolved (<[i := Some o]> ins) < unresolved ins)%nat.
Proof.
  unfold unresolved. revert i. induction ins as [|x ins IH]; intros i Hi; [done|].
  destruct i as [|i]; simpl in *.
  - simplify_eq. rewrite filter_cons_False by done. rewrite filter_cons_True by done.
    simpl. lia.
  - specialize (IH _ Hi). destruct x.
    + rewrite !filter_cons_False by done. done.
    + rewrite !filter_cons_True by done. simpl. lia.
Qed.

Lemma visit_order_length form n : (0 < n)%nat -> length (visit_order form n) = n.
Proof. intros Hn. by rewrite (visit_order_perm form n Hn), length_seq. Qed.

Lemma wa_walk_bound form (ins : list (option (Result + Exn))) w :
  ins <> [] -> wa_reachable (wa_init form ins) w ->
  Forall (fun i => (i < length ins)%nat) (wa_walk w).
Proof.
  intros Hne. revert w. apply wa_reachable_ind; [by constructor|].
  intros w a w' Hr IH Hs.
  destruct (wa_reachable_a _ _ Hr) as (_ & Hlen & _). simpl in Hlen.
  assert (0 < length ins)%nat as Hpos by (destruct ins; [done|simpl; lia]).
  assert (Forall (fun i => (i < length ins)%nat)
            (visit_order (wa_form w) (length (wa_inputs w)))) as Hv.
  { rewrite Hlen. apply Forall_forall. intros i Hi.
    rewrite (visit_order_perm _ _ Hpos) in Hi. apply elem_of_seq in Hi. lia. }
  wa_cases Hs; simpl in *; try done.
  by apply Forall_cons in IH as [_ ?].
Qed.

(** From a reachable state in which the output is not ready, some step is
    enabled that brings it nearer: an input is resolved, the main thread
    goes on, a waiter starts the output, or the output's producer goes on. *)
Lemma wa_progress form (ins : list (option (Result + Exn))) w (o : Result + Exn) :
  ins <> [] -> Z.of_nat (length ins) < 2 ^ 64 ->
  wa_reachable (wa_init form ins) w -> wa_out_status w <> kReady ->
  exists a w', wa_step a w = Some w' /\ (wa_measure w' < wa_measure w)%nat.
Proof.
  intros Hne Hsz Hr Hnr.
  destruct (wa_reachable_a _ _ Hr) as (Hlc & Hlen & Hform). simpl in Hlc, Hlen, Hform.
  rewrite length_replicate in Hlc.
  assert (0 < length ins)%nat as Hpos by (destruct ins; [done|simpl; lia]).
  pose proof (wa_reachable_b _ _ _ Hne Hr) as B.
  pose proof (wa_install_reachable _ _ _ Hne Hr) as E.
  pose proof (wa_walk_bound _ _ _ Hne Hr) as Hwb.
  destruct (Forall_Exists_dec is_Some (fun x => x = None)
              (fun x : option (Result + Exn) =>
                 match x with
                 | Some y => left (ex_intro _ y eq_refl)
                 | None => right eq_refl
                 end) (wa_inputs w)) as [Hall|Hex].
  2:{ (* an input is resolved *)
      apply Exists_exists in Hex as (x & Hx & ->).
      apply list_elem_of_lookup in Hx as [i Hi].
      exists (AResolve i o). eexists. split; [simpl; by rewrite Hi|].
      unfold wa_measure. simpl. rewrite length_insert.
      pose proof (unresolved_insert _ _ o Hi). lia. }
  destruct (wa_main w) eqn:Em.
  - exists AMain. eexists. split.
    { simpl. rewrite Em. destruct (wa_inputs w) eqn:Ei; [|done].
      simpl in Hlen. lia. }
    unfold wa_measure. simpl. rewrite Em. simpl. lia.
  - exists AMain. eexists. split; [simpl; by rewrite Em|].
    unfold wa_measure. simpl. rewrite Em. simpl. lia.
  - exists AMain. eexists. split; [simpl; by rewrite Em|].
    unfold wa_measure. simpl. rewrite Em. simpl. lia.
  - exists AMain. eexists. split; [simpl; by rewrite Em|].
    unfold wa_measure. simpl. rewrite Em. simpl.
    rewrite Hlen, Hform, visit_order_length by done. lia.
  - destruct rest as [|i rest].
    + exists AMain. eexists. split; [simpl; by rewrite Em|].
      unfold wa_measure. simpl. rewrite Em. simpl. lia.
    + unfold wa_install_inv in E. rewrite Em in E.
      assert (i ∈ visit_order form (length ins)) as Hi.
      { rewrite <- E. apply elem_of_app. right. left. }
      assert (i ∉ wa_installs (wa_trace w)) as Hni.
      { intros Hin. pose proof (NoDup_seq 0 (length ins)) as Hnd.
        rewrite <- (visit_order_perm form _ Hpos), <- E in Hnd.
        apply NoDup_app in Hnd as (_ & Hd & _).
        apply (Hd i); [by apply elem_of_reverse|left]. }
      rewrite (visit_order_perm _ _ Hpos) in Hi. apply elem_of_seq in Hi.
      destruct (lookup_lt_is_Some_2 (wa_conts w) i ltac:(lia)) as [c Hc].
      assert (c = CNotInstalled) as ->.
      { destruct c; [done|exfalso; apply Hni; by eapply (wb_inst _ B)..]. }
      exists AMain. eexists. split; [simpl; by rewrite Em, Hc|].
      unfold wa_measure. simpl. rewrite Em. simpl. lia.
  - destruct (wa_out_status w) eqn:Es; [| |done].
    + exists AWaiter. eexists. split.
      { simpl. rewrite Em. by rewrite bool_decide_eq_true_2. }
      unfold wa_measure, wa_run_output. rewrite bool_decide_eq_true_2 by done.
      simpl. rewrite Em, Es. simpl.
      rewrite Hlen, Hform, visit_order_length by done. lia.
    + exists AWalk. destruct (wa_walk w) as [|i rest] eqn:Ew.
      * eexists. split; [simpl; by rewrite Es, Ew|].
        unfold wa_measure. simpl. rewrite Em, Es, Ew. simpl. lia.
      * destruct (decide (wa_count w = 0)) as [H0|H0].
        -- eexists. split; [simpl; rewrite Es, Ew; by rewrite bool_decide_eq_true_2|].
           unfold wa_measure. simpl. rewrite Em, Es, Ew. simpl. lia.
        -- apply Forall_cons in Hwb as [Hi _].
           destruct (lookup_lt_is_Some_2 (wa_inputs w) i ltac:(lia)) as [x Hx].
           pose proof (Forall_lookup_1 _ _ _ _ Hall Hx) as [y ->].
           eexists. split.
           { simpl. rewrite Es, Ew. rewrite bool_decide_eq_false_2 by done. by rewrite Hx. }
           unfold wa_measure. simpl. rewrite Em, Es, Ew. simpl. lia.
Qed.

(** when_all can always be brought to its end: from every reachable state,
    with the environment resolving the inputs that are still open, some
    schedule makes the output future ready, and its result is then the
    container of all the inputs. *)
Theorem when_all_can_complete (form : Form) (ins : list (option (Result + Exn))) w
    (o : Result + Exn) :
  ins <> [] -> Z.of_nat (length ins) < 2 ^ 64 ->
  wa_reachable (wa_init form ins) w ->
  exists acts w',
    wa_exec acts w = Some w' /\ wa_out_status w' = kReady /\
    result (wa_out_member w') = Returns (seq 0 (length ins)) /\
    forall i, (i < length ins)%nat -> resolved w' i.
Proof.
  intros Hne Hsz Hr.
  assert (exists acts w', wa_exec acts w = Some w' /\ wa_out_status w' = kReady)
    as (acts & w' & Hex & Hrd).
  { remember (wa_measure w) as m eqn:Hm. revert w Hr Hm.
    induction m as [m IH] using lt_wf_ind. intros w Hr ->.
    destruct (decide (wa_out_status w = kReady)) as [Hrd|Hnr].
    - exists [], w. done.
    - destruct (wa_progress _ _ _ o Hne Hsz Hr Hnr) as (a & w1 & Hs & Hlt).
      assert (wa_reachable (wa_init form ins) w1) as Hr1.
      { destruct Hr as [s Hs0]. exists (s ++ [a]). rewrite wa_exec_app, Hs0. simpl.
        by rewrite Hs. }
      destruct (IH _ Hlt _ Hr1 eq_refl) as (acts & w' & Hex & Hrd).
      exists (a :: acts), w'. simpl. rewrite Hs. done. }
  exists acts, w'. split; [done|]. split; [done|].
  assert (wa_reachable (wa_init form ins) w') as Hr'.
  { destruct Hr as [s Hs0]. exists (s ++ acts). rewrite wa_exec_app, Hs0. done. }
  pose proof (wa_reachable_d _ _ _ Hne Hsz Hr') as D.
  split.
  - rewrite (wd_member _ _ D). by rewrite bool_decide_eq_true_2.
  - intros i Hi. destruct (wd_walk _ _ D i Hi) as [[? _]|?]; [congruence|congruence|done].
Qed.

End WhenAllExtras.

(** ** Instances of the further properties *)

Lemma status_never_goes_back_witness :
  reachable Example.two_runners (after Example.run_to_end Example.two_runners) /\
  Status_to_int (status (shared Example.two_runners)) <=
    Status_to_int (status (shared (after Example.run_to_end Example.two_runners))).
Proof.
  assert (reachable Example.two_runners (after Example.run_to_end Example.two_runners)) as Hr
    by (apply reachable_after; vm_compute; eauto).
  split; [exact Hr|]. exact (status_never_goes_back _ _ Hr).
Defined.

Lemma status_follows_the_trace_witness :
  initial Example.two_runners /\
  reachable Example.two_runners (after Example.run_to_end Example.two_runners) /\
  status (shared (after Example.run_to_end Example.two_runners)) =
    status_of_trace (trace (shared (after Example.run_to_end Example.two_runners))).
Proof.
  assert (initial Example.two_runners) as Hi
    by (apply initial_example; repeat constructor).
  assert (reachable Example.two_runners (after Example.run_to_end Example.two_runners)) as Hr
    by (apply reachable_after; vm_compute; eauto).
  split; [exact Hi|]. split; [exact Hr|].
  exact (proj1 (status_follows_the_trace _ _ Hi eq_refl Hr)).
Defined.

Lemma wait_returns_only_when_ready_witness :
  initial Example.failing_runner /\
  reachable Example.failing_runner (after (Example.steps 1 7) Example.failing_runner) /\
  pool (after (Example.steps 1 7) Example.failing_runner) !! 1%nat = Some (Done RetVoid) /\
  status (shared (after (Example.steps 1 7) Example.failing_runner)) = kReady.
Proof.
  assert (initial Example.failing_runner) as Hi
    by (apply initial_example; repeat constructor).
  assert (reachable Example.failing_runner
            (after (Example.steps 1 7) Example.failing_runner)) as Hr
    by (apply reachable_after; vm_compute; eauto).
  assert (pool (after (Example.steps 1 7) Example.failing_runner) !! 1%nat
          = Some (Done RetVoid)) as Hpc by (vm_compute; reflexivity).
  split; [exact Hi|]. split; [exact Hr|]. split; [exact Hpc|].
  exact (proj1 (proj2 (wait_returns_only_when_ready _ _ 1%nat RetVoid Hi Hr eq_refl Hpc))).
Defined.

Lemma timed_wait_respects_allowInline_witness :
  initial Example.timed_waiter /\
  reachable Example.timed_waiter (after (Example.steps 0 1) Example.timed_waiter) /\
  allowInline_ (core (shared Example.timed_waiter)) = false /\
  own_events 0 (trace (shared (after (Example.steps 0 1) Example.timed_waiter))) = [].
Proof.
  assert (initial Example.timed_waiter) as Hi
    by (apply initial_example; repeat constructor).
  assert (reachable Example.timed_waiter
            (after (Example.steps 0 1) Example.timed_waiter)) as Hr
    by (apply reachable_after; vm_compute; eauto).
  split; [exact Hi|]. split; [exact Hr|]. split; [reflexivity|].
  exact (proj1 (proj2 (timed_wait_respects_allowInline _ _ 0%nat Hi Hr eq_refl) eq_refl)).
Defined.


Lemma chain_after_install :
  chain (heap (shared (after Example.install_then_produce Example.runner_and_installers)))
        (thenChain (shared (after Example.install_then_produce
                              Example.runner_and_installers)))
        [(10%nat, with_next Example.k1 None)].
Proof.
  assert (thenChain (shared (after Example.install_then_produce
                               Example.runner_and_installers)) = Some 10%nat) as ->
    by (vm_compute; reflexivity).
  apply chain_cons; [vm_compute; reflexivity|apply chain_nil].
Qed.

Lemma drain_alone_runs_the_whole_chain_witness :
  pool (after Example.install_then_produce Example.runner_and_installers) !! 0%nat
    = Some (drain_215 (DrainFromRun FromRun)) /\
  executed (trace (drained 0 [(10%nat, with_next Example.k1 None)]
                     (shared (after Example.install_then_produce
                                Example.runner_and_installers)))) =
    reverse ((fun x => impl x.2) <$> [(10%nat, with_next Example.k1 None)]) ++
    executed (trace (shared (after Example.install_then_produce
                               Example.runner_and_installers))).
Proof.
  assert (pool (after Example.install_then_produce Example.runner_and_installers) !! 0%nat
          = Some (drain_215 (DrainFromRun FromRun))) as Hpc by (vm_compute; reflexivity).
  split; [exact Hpc|].
  exact (proj1 (proj2 (proj2 (drain_alone_runs_the_whole_chain _ 0%nat (Example.lbl 10)
                                _ _ Hpc chain_after_install eq_refl)))).
Defined.

Lemma chain_of_fresh_world f allow threads :
  chain (heap (shared (Example.world f allow threads)))
        (thenChain (shared (Example.world f allow threads))) [].
Proof. apply chain_nil. Qed.

Lemma install_alone_pushes_a_node_witness :
  pool Example.runner_and_installers !! 1%nat = Some (add_256 Example.k1) /\
  exec (replicate 5 (1%nat, Example.lbl 10)) Example.runner_and_installers =
    Some {| shared := installed 1 10 Example.k1 (shared Example.runner_and_installers);
            pool := <[1%nat := Done RetVoid]> (pool Example.runner_and_installers) |}.
Proof.
  split; [reflexivity|].
  refine (proj1 (install_alone_pushes_a_node Example.runner_and_installers 1%nat
                   (Example.lbl 10) Example.k1 [] eq_refl _ eq_refl eq_refl
                   (chain_of_fresh_world _ _ _))).
  vm_compute. discriminate.
Defined.

Lemma run_alone_completes_witness :
  pool Example.two_runners !! 0%nat = Some run_146 /\
  exec (replicate 8 (0%nat, Example.lbl 10)) Example.two_runners =
    Some {| shared := log (EvDecRef 0)
                        (on_core (fun c => (decRefCountMaybeDestroy c).1)
                           (produce 0 (shared Example.two_runners)));
            pool := <[0%nat := Done RetVoid]> (pool Example.two_runners) |}.
Proof.
  split; [reflexivity|].
  exact (run_alone_completes Example.two_runners 0%nat (Example.lbl 10) [] eq_refl eq_refl
           (chain_of_fresh_world _ _ _) eq_refl).
Defined.

Lemma created_future_run_once_witness :
  exists σ : Shared Z nat,
    exec (replicate 8 (0%nat, Example.lbl 10)) Example.two_runners
      = Some {| shared := σ; pool := <[0%nat := Done RetVoid]> [run_146; run_146] |} /\
    status σ = kReady /\ refCount_ (core σ) = 1.
Proof.
  destruct (created_future_run_once 64 64 false Example.returns7 true (Some 0%nat)
              {[ 0%nat := 1 ]} [run_146; run_146] 0%nat (Example.lbl 10) eq_refl eq_refl)
    as (σ & H1 & H2 & H3 & _).
  exists σ. split; [exact H1|]. split; [exact H2|exact H3].
Defined.

Lemma producer_value_is_returned_witness :
  initial Example.two_runners /\
  reachable Example.two_runners (after Example.run_to_end Example.two_runners) /\
  result (member (core (shared (after Example.run_to_end Example.two_runners))))
    = Returns 7.
Proof.
  assert (initial Example.two_runners) as Hi
    by (apply initial_example; repeat constructor).
  assert (reachable Example.two_runners (after Example.run_to_end Example.two_runners)) as Hr
    by (apply reachable_after; vm_compute; eauto).
  split; [exact Hi|]. split; [exact Hr|].
  assert (status (shared (after Example.run_to_end Example.two_runners)) = kReady)
    as Hrd by (vm_compute; reflexivity).
  destruct (producer_value_is_returned _ _ Example.returns7 7 Hi eq_refl eq_refl eq_refl
              eq_refl Hr) as (_ & _ & H).
  exact (proj1 (H Hrd _ (reachable_refl _))).
Defined.

Lemma taskset_count_round_trip_witness :
  initial Example.taskset_world /\
  reachable Example.taskset_world (after Example.run_to_end Example.taskset_world) /\
  counters (shared (after Example.run_to_end Example.taskset_world)) = {[ 0%nat := 0 ]}.
Proof.
  assert (initial Example.taskset_world) as Hi by (repeat split; try done; repeat constructor).
  assert (reachable Example.taskset_world (after Example.run_to_end Example.taskset_world))
    as Hr by (apply reachable_after; vm_compute; eauto).
  split; [exact Hi|]. split; [exact Hr|].
  assert (({[ 0%nat := 0 ]} : gmap nat Z) !! 0%nat = Some 0) as Hl
    by (vm_compute; reflexivity).
  destruct (taskset_count_round_trip 64 64 false Example.returns7 0%nat launch_async
              launch_deferred {[ 0%nat := 0 ]} 0 _ _ Hl
              ltac:(lia) Hi eq_refl eq_refl Hr)
    as (_ & H & _).
  rewrite H. vm_compute. reflexivity.
Defined.

Lemma wait_alone_completes_witness :
  pool Example.one_waiter !! 0%nat = Some wait_151 /\
  exec (replicate 7 (0%nat, Example.lbl 10)) Example.one_waiter =
    Some {| shared := produce 0 (shared Example.one_waiter);
            pool := <[0%nat := Done RetVoid]> (pool Example.one_waiter) |}.
Proof.
  split; [reflexivity|].
  exact (proj1 (wait_alone_completes Example.one_waiter 0%nat (Example.lbl 10) [] eq_refl
                  eq_refl (chain_of_fresh_world _ _ _) eq_refl)).
Defined.

Lemma timed_wait_alone_witness :
  pool Example.timed_waiter !! 0%nat = Some waitFor_159 /\
  exec [(0%nat, Example.lbl 10)] Example.timed_waiter =
    Some {| shared := shared Example.timed_waiter;
            pool := <[0%nat := waitFor_block]> (pool Example.timed_waiter) |}.
Proof.
  split; [reflexivity|].
  exact (proj1 (proj2 (timed_wait_alone Example.timed_waiter 0%nat (Example.lbl 10) []
                         eq_refl eq_refl) eq_refl)).
Defined.

Lemma copy_then_destroy_restores_witness :
  exists g st1,
    FutureBase_copy {| impl_ := Some 1%nat |} (Example.store1 2) = Some (g, st1) /\
    destroy g st1 = Some (Example.store1 2).
Proof.
  assert (Example.store1 2 !! 1%nat
          = Some (set_refCount 2 (createFutureImpl 64 64 false Example.returns7 true None)))
    as Hl by (vm_compute; reflexivity).
  destruct (copy_then_destroy_restores {| impl_ := Some 1%nat |} (Example.store1 2) 1%nat _
              eq_refl Hl ltac:(change (1 <= 2 < 2 ^ 32 - 1); lia))
    as (g & st1 & H1 & _ & _ & _ & H2).
  exists g, st1. split; [exact H1|exact H2].
Defined.

Lemma when_all_installs_every_input_once_witness :
  wa_main (wa_after Example.fan_in (wa_init TupleForm Example.two_inputs)) = wa_done /\
  reverse (wa_installs
             (wa_trace (wa_after Example.fan_in (wa_init TupleForm Example.two_inputs))))
    = reverse (seq 0 (length Example.two_inputs)).
Proof.
  split; [vm_compute; reflexivity|].
  refine (proj1 (when_all_installs_every_input_once TupleForm Example.two_inputs _ _ _ _)).
  - discriminate.
  - apply wa_reachable_after. vm_compute. eauto.
  - vm_compute. reflexivity.
Defined.

Lemma when_all_counter_stays_in_range_witness :
  wa_allocated (wa_after Example.fan_in (wa_init VectorForm Example.two_inputs)) = true /\
  0 <= wa_count (wa_after Example.fan_in (wa_init VectorForm Example.two_inputs))
    <= Z.of_nat (length Example.two_inputs).
Proof.
  split; [vm_compute; reflexivity|].
  refine (proj1 (proj2 (when_all_counter_stays_in_range VectorForm Example.two_inputs
                          _ _ _ _ _))).
  - discriminate.
  - vm_compute. reflexivity.
  - apply wa_reachable_after. vm_compute. eauto.
  - vm_compute. reflexivity.
Defined.

Lemma when_all_output_starts_late_witness :
  wa_out_status (wa_after Example.fan_in (wa_init VectorForm Example.two_inputs))
    <> kNotStarted /\
  (wa_fires (wa_trace (wa_after Example.fan_in (wa_init VectorForm Example.two_inputs)))
     <> [] \/
   wa_main (wa_after Example.fan_in (wa_init VectorForm Example.two_inputs)) = wa_done).
Proof.
  assert (wa_out_status (wa_after Example.fan_in (wa_init VectorForm Example.two_inputs))
          <> kNotStarted) as Hs by (vm_compute; discriminate).
  split; [exact Hs|].
  refine (proj2 (proj2 (proj2 (when_all_output_starts_late VectorForm Example.two_inputs
                                 _ _ _ _))) Hs).
  - discriminate.
  - vm_compute. reflexivity.
  - apply wa_reachable_after. vm_compute. eauto.
Defined.

Lemma when_all_can_complete_witness :
  exists acts w',
    wa_exec acts (wa_init TupleForm Example.two_inputs) = Some w' /\
    wa_out_status w' = kReady.
Proof.
  destruct (when_all_can_complete TupleForm Example.two_inputs
              (wa_init TupleForm Example.two_inputs) (inl 0))
    as (acts & w' & H1 & H2 & _).
  - discriminate.
  - vm_compute. reflexivity.
  - exists []. reflexivity.
  - exists acts, w'. split; [exact H1|exact H2].
Defined.

Lemma member_destructor_after_run_witness :
  initial Example.failing_runner /\
  reachable Example.failing_runner (after Example.run_to_end Example.failing_runner) /\
  destroys_result (member (core (shared Example.failing_runner))) = true /\
  resultBuf_ (member (core (shared Example.failing_runner))) = None.
Proof.
  assert (initial Example.failing_runner) as Hi
    by (apply initial_example; repeat constructor).
  split; [exact Hi|]. split; [apply reachable_after; vm_compute; eauto|].
  exact (proj2 (member_destructor_after_run _ _ Example.throws3 Hi eq_refl eq_refl
                  (reachable_refl _)) eq_refl).
Defined.


